(** * The redirect compiler and build graph of [gulpfile.js]

    A shallow embedding of the [build-sw] task (the redirect rule compiler),
    of the JavaScript string and regular-expression primitives it is written
    with, and of the declared task graph. *)

From Stdlib Require Import Ascii String.
From Stdlib Require Import List NArith Bool Arith Lia.
Import ListNotations.

Set Implicit Arguments.

(** ** JavaScript strings

    A JavaScript string is a sequence of UTF-16 code units. *)

Definition char := N.
Definition str := list char.

Definition ch (a : ascii) : char := N_of_ascii a.

(** [js "text"] is the JavaScript string with the given ASCII text. *)
Definition js (s : string) : str := map ch (list_ascii_of_string s).

Definition TAB : char := 9%N.
Definition LF : char := 10%N.
Definition CR : char := 13%N.
Definition SP : char := 32%N.

Definition char_in (c : char) (l : str) : bool := existsb (N.eqb c) l.

(** LineTerminator: LF, CR, LS, PS. *)
Definition is_line_terminator (c : char) : bool :=
  char_in c [LF; CR; 8232%N; 8233%N].

(** The class [\s]: WhiteSpace and LineTerminator code units. *)
Definition is_space (c : char) : bool :=
  char_in c [TAB; 11%N; 12%N; SP; 160%N; 5760%N; 8239%N; 8287%N; 12288%N; 65279%N]
  || ((8192 <=? c)%N && (c <=? 8202)%N)
  || is_line_terminator c.

Fixpoint starts_with (p s : str) : bool :=
  match p, s with
  | [], _ => true
  | a :: p', b :: s' => N.eqb a b && starts_with p' s'
  | _ :: _, [] => false
  end.

(** [Array.prototype.join]. *)
Fixpoint join (sep : str) (l : list str) : str :=
  match l with
  | [] => []
  | [x] => x
  | x :: rest => x ++ sep ++ join sep rest
  end.

(** ** Regular expressions

    The fragment of the pattern language that the build script and its
    output use.  Capturing groups carry their number (the rank of their
    opening parenthesis). *)

Inductive cset : Type :=
| CDot                      (* .      any code unit but a line terminator *)
| CSpace                    (* \s *)
| CNonSpace                 (* \S *)
| COneOf (l : str).         (* [...]  *)

Inductive regex : Type :=
| RChar (c : char)          (* a pattern character or an identity escape *)
| RSet (cs : cset)
| RBol                      (* ^ *)
| REol                      (* $ *)
| REmpty
| RSeq (a b : regex)
| RAlt (a b : regex)        (* a|b *)
| RStar (a : regex)         (* a*  greedy *)
| RPlus (a : regex)         (* a+  greedy *)
| ROpt (a : regex)          (* a?  greedy *)
| RCap (i : nat) (a : regex)  (* ( a ) *)
| RGroup (a : regex).       (* (?: a ) *)

Definition in_cset (cs : cset) (c : char) : bool :=
  match cs with
  | CDot => negb (is_line_terminator c)
  | CSpace => is_space c
  | CNonSpace => negb (is_space c)
  | COneOf l => char_in c l
  end.

(** Captures: group number and captured text. *)
Definition caps := list (nat * str).

Definition cap_get (i : nat) (cs : caps) : option str :=
  match find (fun p => Nat.eqb (fst p) i) cs with
  | Some p => Some (snd p)
  | None => None
  end.

Definition cap_set (i : nat) (v : str) (cs : caps) : caps := (i, v) :: cs.

Section Matcher.
(** The backtracking matcher of the language specification, in
    continuation-passing style.  A position is the code unit before it
    (if any) and the text after it. *)
Variable A : Type.
Variable multiline : bool.

Definition cont := option char -> str -> caps -> option A.

(** Greedy repetition of [step]; an iteration that consumes nothing is
    rejected, as the language specification requires, so that a [fuel]
    above the length of the text is never used up.  (The language resets
    the captures of the repeated term at each iteration; no repeated term
    of this program iterates over a capture twice.) *)
Fixpoint repeat_match (step : option char -> str -> caps -> cont -> option A)
    (k : cont) (fuel : nat) (prev : option char) (s : str) (cs : caps) : option A :=
  match fuel with
  | O => k prev s cs
  | S fuel' =>
      match step prev s cs (fun p s' cs' =>
              if length s' <? length s
              then repeat_match step k fuel' p s' cs'
              else None) with
      | Some r => Some r
      | None => k prev s cs
      end
  end.

Fixpoint rmatch (r : regex) (prev : option char) (s : str) (cs : caps) (k : cont)
    {struct r} : option A :=
  match r with
  | RChar c =>
      match s with
      | x :: s' => if N.eqb x c then k (Some x) s' cs else None
      | [] => None
      end
  | RSet st =>
      match s with
      | x :: s' => if in_cset st x then k (Some x) s' cs else None
      | [] => None
      end
  | RBol =>
      match prev with
      | None => k prev s cs
      | Some p => if multiline && is_line_terminator p then k prev s cs else None
      end
  | REol =>
      match s with
      | [] => k prev s cs
      | x :: _ => if multiline && is_line_terminator x then k prev s cs else None
      end
  | REmpty => k prev s cs
  | RSeq a b => rmatch a prev s cs (fun p s' cs' => rmatch b p s' cs' k)
  | RAlt a b =>
      match rmatch a prev s cs k with
      | Some x => Some x
      | None => rmatch b prev s cs k
      end
  | RStar a => repeat_match (rmatch a) k (S (length s)) prev s cs
  | RPlus a =>
      rmatch a prev s cs (fun p s' cs' =>
        repeat_match (rmatch a) k (S (length s')) p s' cs')
  | ROpt a =>
      match rmatch a prev s cs (fun p s' cs' =>
              if length s' <? length s then k p s' cs' else None) with
      | Some x => Some x
      | None => k prev s cs
      end
  | RCap i a =>
      rmatch a prev s cs (fun p s' cs' =>
        k p s' (cap_set i (firstn (length s - length s') s) cs'))
  | RGroup a => rmatch a prev s cs k
  end.
End Matcher.

(** A match at the current position: the captures, the last code unit
    consumed (or the one before the position) and the text left. *)
Definition match_at (ml : bool) (r : regex) (prev : option char) (s : str)
  : option (caps * option char * str) :=
  rmatch ml r prev s [] (fun p s' cs => Some (cs, p, s')).

(** [RegExp.prototype.test] for a pattern without the global flag: is there
    a match at some position? *)
Fixpoint rx_search (ml : bool) (r : regex) (prev : option char) (s : str) : bool :=
  match match_at ml r prev s with
  | Some _ => true
  | None =>
      match s with
      | [] => false
      | x :: t => rx_search ml r (Some x) t
      end
  end.

Definition rx_test (ml : bool) (r : regex) (s : str) : bool := rx_search ml r None s.

(** ** [String.prototype.replace] *)

(** What a replacer sees of a match. *)
Record match_info : Type := {
  m_text : str;      (* the matched text *)
  m_before : str;    (* the subject before the match *)
  m_after : str;     (* the subject after the match *)
  m_caps : caps
}.

(** GetSubstitution for a pattern without capture groups, as are all the
    patterns this program replaces with a template: [$$], [$&], [$`] and
    [$'] are expanded, every other [$] stands for itself. *)
Fixpoint get_substitution (matched before after tpl : str) : str :=
  match tpl with
  | [] => []
  | c :: t =>
      if N.eqb c (ch "$") then
        match t with
        | [] => [c]
        | d :: t' =>
            if N.eqb d (ch "$") then ch "$" :: get_substitution matched before after t'
            else if N.eqb d (ch "&") then matched ++ get_substitution matched before after t'
            else if N.eqb d (ch "`") then before ++ get_substitution matched before after t'
            else if N.eqb d (ch "'") then after ++ get_substitution matched before after t'
            else c :: get_substitution matched before after t
        end
      else c :: get_substitution matched before after t
  end.

Section Replace.
(** [subject.replace(re, replacer)]: the replacer runs once per match, from
    left to right, on a state [St] that stands for what it mutates; with
    the global flag the search resumes after each match (one code unit
    further after an empty match). *)
Variable St : Type.
Variable ml g : bool.
Variable re : regex.
Variable replacer : St -> match_info -> St * str.

Fixpoint replace_loop (fuel : nat) (prev : option char) (before s : str) (st : St)
  : St * str :=
  match fuel with
  | O => (st, s)
  | S fuel' =>
      match match_at ml re prev s with
      | Some (cs, p, rest) =>
          let matched := firstn (length s - length rest) s in
          let (st1, rep) :=
            replacer st {| m_text := matched; m_before := before;
                           m_after := rest; m_caps := cs |} in
          if g then
            match matched, s with
            | [], [] => (st1, rep)
            | [], x :: t =>
                let (st2, out) := replace_loop fuel' (Some x) (before ++ [x]) t st1 in
                (st2, rep ++ x :: out)
            | _ :: _, _ =>
                let (st2, out) := replace_loop fuel' p (before ++ matched) rest st1 in
                (st2, rep ++ out)
            end
          else (st1, rep ++ rest)
      | None =>
          match s with
          | [] => (st, [])
          | x :: t =>
              let (st1, out) := replace_loop fuel' (Some x) (before ++ [x]) t st in
              (st1, x :: out)
          end
      end
  end.

Definition replace_with (s : str) (st : St) : St * str :=
  replace_loop (S (length s)) None [] s st.
End Replace.

(** [subject.replace(re, template)]. *)
Definition replace_rx (ml g : bool) (re : regex) (tpl : str) (s : str) : str :=
  snd (replace_with ml g re
         (fun (_ : unit) m =>
            (tt, get_substitution (m_text m) (m_before m) (m_after m) tpl))
         s tt).

(** [subject.replace(pattern, template)] with a string pattern: the first
    occurrence only. *)
Fixpoint replace_str_from (pat tpl before s : str) {struct s} : str :=
  if starts_with pat s then
    let after := skipn (length pat) s in
    before ++ get_substitution pat before after tpl ++ after
  else
    match s with
    | [] => before
    | x :: t => replace_str_from pat tpl (before ++ [x]) t
    end.

Definition replace_str (pat tpl s : str) : str := replace_str_from pat tpl [] s.

(** ** lodash *)

(** Modelled from the spec: lodash, which the script requires, is not part
    of the sources.  Step 3 of the compiler escapes every character with a
    special meaning in the pattern language; these are the syntax
    characters [\ ^ $ . * + ? ( ) [ ] { } |], which lodash matches with
    the class [reRegExpChar]. *)
Definition reRegExpChar : regex := RSet (COneOf (js "\^$.*+?()[]{}|")).

(** Modelled from the spec: [_.escapeRegExp] of lodash prefixes each syntax
    character with a backslash, by [string.replace(reRegExpChar, '\\$&')]
    when the string is not empty and holds such a character. *)
Definition escapeRegExp (s : str) : str :=
  match s with
  | [] => s
  | _ => if rx_test false reRegExpChar s
         then replace_rx false true reRegExpChar (js "\$&") s
         else s
  end.

(** ** The [build-sw] task *)

(** The class [[\t ]]. *)
Definition blank : cset := COneOf [TAB; SP].

(** [/^[\t ]*(\S+)[\t ]+(\S+)(?:[\t ]+(\S+))?/gm] *)
Definition rule_re : regex :=
  RSeq RBol
    (RSeq (RStar (RSet blank))
       (RSeq (RCap 1 (RPlus (RSet CNonSpace)))
          (RSeq (RPlus (RSet blank))
             (RSeq (RCap 2 (RPlus (RSet CNonSpace)))
                (ROpt (RGroup (RSeq (RPlus (RSet blank))
                                 (RCap 3 (RPlus (RSet CNonSpace)))))))))).

(** [/\\\*/g], [/\/$/] and [/\//g] *)
Definition escaped_asterisk_re : regex := RSeq (RChar (ch "\")) (RChar (ch "*")).
Definition trailing_slash_re : regex := RSeq (RChar (ch "/")) REol.
Definition slash_re : regex := RChar (ch "/").

(** The three chained replacements applied to the escaped [from]. *)
Definition compile_from (from : str) : str :=
  replace_rx false true slash_re (js "\/")
    (replace_rx false false trailing_slash_re (js "(?:/.|/?$)")
       (replace_rx false true escaped_asterisk_re (js "(.*)")
          (escapeRegExp from))).

(** Interpolation of a possibly undefined value in a template literal. *)
Definition interpolate (v : option str) : str :=
  match v with
  | Some s => s
  | None => js "undefined"
  end.

(** The pattern between the slashes of the emitted regular-expression literal. *)
Definition matcher_source (from : str) : str := ch "^" :: compile_from from.

(** [`[/^${ from }/,'${ to }',${ status }]`] *)
Definition entry (from to : str) (status : option str) : str :=
  js "[/" ++ matcher_source from ++ js "/,'" ++ to ++ js "',"
    ++ interpolate status ++ js "]".

(** lodash reads an undefined argument as the empty string; [from] is
    captured by every match, so this default never shows. *)
Definition lodash_toString (v : option str) : str :=
  match v with
  | Some s => s
  | None => []
  end.

(** The replacer of [build-sw]: it pushes one entry and returns undefined. *)
Definition push_entry (entries : list str) (m : match_info) : list str * str :=
  let cs := m_caps m in
  (entries ++ [entry (lodash_toString (cap_get 1 cs)) (interpolate (cap_get 2 cs))
                 (cap_get 3 cs)],
   js "undefined").

(** The entries collected from the redirect table. *)
Definition compile (redirects : str) : list str :=
  fst (replace_with true true rule_re push_entry redirects []).

Definition placeholder : str := js "/*insert_redirect*/".

(** The new content of [_site/sw.js]. *)
Definition build_sw (redirects sw : str) : str :=
  replace_str placeholder (join (js ",") (compile redirects)) sw.

(** Files by path; a task resolves with the new files or rejects. *)
Definition files := string -> option str.

Definition write_file (path : string) (content : str) (fs : files) : files :=
  fun p => if String.eqb p path then Some content else fs p.

Inductive outcome (A : Type) : Type :=
| Resolved (a : A)
| Rejected (message : string).

Arguments Resolved {A} a.
Arguments Rejected {A} message.

Definition build_sw_task (fs : files) : outcome files :=
  match fs "_site/_redirects"%string, fs "_site/sw.js"%string with
  | Some redirects, Some sw =>
      Resolved (write_file "_site/sw.js" (build_sw redirects sw) fs)
  | None, _ => Rejected "ENOENT: _site/_redirects"
  | _, None => Rejected "ENOENT: _site/sw.js"
  end.

(** ** Reading a pattern

    The reader of the pattern grammar, for the fragment above: pattern
    characters, identity escapes of syntax characters and of the slash,
    [.], [^], [$], the greedy quantifiers [*], [+] and [?], alternation,
    capturing and [(?:] groups.  Anything else is refused.  Capturing
    groups are numbered from 1 in the order of their opening parentheses. *)

Fixpoint mk_seq (l : list regex) : regex :=
  match l with
  | [] => REmpty
  | [t] => t
  | t :: ts => RSeq t (mk_seq ts)
  end.

Fixpoint mk_alt (l : list regex) : regex :=
  match l with
  | [] => REmpty
  | [t] => t
  | t :: ts => RAlt t (mk_alt ts)
  end.

(** SyntaxCharacter *)
Definition is_syntax_char (c : char) : bool := char_in c (js "\^$.*+?()[]{}|").

Inductive group_kind : Type :=
| GCapture (i : nat)
| GPlain.

(** An open group: its kind, and the alternatives and terms read before it
    (both most recent first). *)
Record frame : Type := {
  f_kind : group_kind;
  f_alts : list regex;
  f_cur : list regex
}.

Record reader : Type := {
  p_alts : list regex;      (* alternatives completed at this level *)
  p_cur : list regex;       (* terms of the current alternative *)
  p_stack : list frame;     (* the enclosing groups *)
  p_next : nat              (* number of the next capturing group *)
}.

Definition disjunction (st : reader) : regex :=
  mk_alt (rev (mk_seq (rev (p_cur st)) :: p_alts st)).

Definition push_term (t : regex) (st : reader) : reader :=
  {| p_alts := p_alts st; p_cur := t :: p_cur st;
     p_stack := p_stack st; p_next := p_next st |}.

Definition quantifiable (t : regex) : bool :=
  match t with
  | RChar _ | RSet _ | RCap _ _ | RGroup _ => true
  | _ => false
  end.

Definition quantify (q : regex -> regex) (st : reader) : option reader :=
  match p_cur st with
  | t :: rest =>
      if quantifiable t
      then Some {| p_alts := p_alts st; p_cur := q t :: rest;
                   p_stack := p_stack st; p_next := p_next st |}
      else None
  | [] => None
  end.

Definition open_group (capturing : bool) (st : reader) : reader :=
  {| p_alts := []; p_cur := [];
     p_stack := {| f_kind := if capturing then GCapture (p_next st) else GPlain;
                   f_alts := p_alts st; f_cur := p_cur st |} :: p_stack st;
     p_next := if capturing then S (p_next st) else p_next st |}.

Definition close_group (st : reader) : option reader :=
  match p_stack st with
  | f :: outer =>
      let inner := disjunction st in
      let t := match f_kind f with
               | GCapture i => RCap i inner
               | GPlain => RGroup inner
               end in
      Some {| p_alts := f_alts f; p_cur := t :: f_cur f;
              p_stack := outer; p_next := p_next st |}
  | [] => None
  end.

Definition next_alternative (st : reader) : reader :=
  {| p_alts := mk_seq (rev (p_cur st)) :: p_alts st; p_cur := [];
     p_stack := p_stack st; p_next := p_next st |}.

Fixpoint read_pattern (s : str) (st : reader) {struct s} : option regex :=
  match s with
  | [] =>
      match p_stack st with
      | [] => Some (disjunction st)
      | _ :: _ => None
      end
  | c :: s1 =>
      if N.eqb c (ch "\") then
        match s1 with
        | d :: s2 =>
            if is_syntax_char d || N.eqb d (ch "/")
            then read_pattern s2 (push_term (RChar d) st)
            else None
        | [] => None
        end
      else if N.eqb c (ch "(") then
        match s1 with
        | q :: s2 =>
            if N.eqb q (ch "?") then
              match s2 with
              | k :: s3 =>
                  if N.eqb k (ch ":") then read_pattern s3 (open_group false st)
                  else None
              | [] => None
              end
            else read_pattern s1 (open_group true st)
        | [] => read_pattern s1 (open_group true st)
        end
      else if N.eqb c (ch ")") then
        match close_group st with
        | Some st' => read_pattern s1 st'
        | None => None
        end
      else if N.eqb c (ch "|") then read_pattern s1 (next_alternative st)
      else if N.eqb c (ch "*") then
        match quantify RStar st with
        | Some st' => read_pattern s1 st'
        | None => None
        end
      else if N.eqb c (ch "+") then
        match quantify RPlus st with
        | Some st' => read_pattern s1 st'
        | None => None
        end
      else if N.eqb c (ch "?") then
        match quantify ROpt st with
        | Some st' => read_pattern s1 st'
        | None => None
        end
      else if N.eqb c (ch ".") then read_pattern s1 (push_term (RSet CDot) st)
      else if N.eqb c (ch "^") then read_pattern s1 (push_term RBol st)
      else if N.eqb c (ch "$") then read_pattern s1 (push_term REol st)
      else if is_syntax_char c then None
      else read_pattern s1 (push_term (RChar c) st)
  end.

Definition parse_pattern (s : str) : option regex :=
  read_pattern s {| p_alts := []; p_cur := []; p_stack := []; p_next := 1 |}.

(** The numbers of the capturing groups of a pattern, from left to right. *)
Fixpoint capture_groups (r : regex) : list nat :=
  match r with
  | RSeq a b | RAlt a b => capture_groups a ++ capture_groups b
  | RStar a | RPlus a | ROpt a | RGroup a => capture_groups a
  | RCap i a => i :: capture_groups a
  | _ => []
  end.

(** Does the emitted matcher match the path?  The matcher has no flags. *)
Definition matcher_matches (from path : str) : bool :=
  match parse_pattern (matcher_source from) with
  | Some r => rx_test false r path
  | None => false
  end.

(** *** The pattern that the specification describes for [from] *)

Definition is_asterisk (c : char) : bool := N.eqb c (ch "*").
Definition is_slash (c : char) : bool := N.eqb c (ch "/").

(** One term per code unit of [from]: a capturing group of a greedy
    any-character repetition for each wildcard marker, the unit itself
    otherwise. *)
Fixpoint from_terms (i : nat) (s : str) : list regex :=
  match s with
  | [] => []
  | c :: t =>
      if is_asterisk c
      then RCap i (RStar (RSet CDot)) :: from_terms (S i) t
      else RChar c :: from_terms i t
  end.

(** (separator, any character) or (optional separator, end). *)
Definition directory_alternation : regex :=
  RGroup (RAlt (RSeq (RChar (ch "/")) (RSet CDot))
               (RSeq (ROpt (RChar (ch "/"))) REol)).

Definition ends_with_slash (s : str) : bool :=
  match rev s with
  | c :: _ => is_slash c
  | [] => false
  end.

Definition pattern_of (from : str) : regex :=
  mk_seq (RBol ::
          if ends_with_slash from
          then from_terms 1 (removelast from) ++ [directory_alternation]
          else from_terms 1 from).

Definition count_wildcards (s : str) : nat := length (filter is_asterisk s).



(** ** The redirect table, line by line

    A direct reading of the rule grammar, to compare with the search of
    [rule_re] through the whole table. *)

Fixpoint take_while (P : char -> bool) (s : str) : str :=
  match s with
  | [] => []
  | x :: t => if P x then x :: take_while P t else []
  end.

Fixpoint drop_while (P : char -> bool) (s : str) : str :=
  match s with
  | [] => []
  | x :: t => if P x then drop_while P t else s
  end.

(** A non-empty run of code units of the class, and what follows it. *)
Definition scan_run (cs : cset) (s : str) : option (str * str) :=
  match take_while (in_cset cs) s with
  | [] => None
  | tok => Some (tok, drop_while (in_cset cs) s)
  end.

Record rule : Type := {
  r_from : str;
  r_to : str;
  r_status : option str
}.

(** [from], [to] and the optional [status] at the start of [s], and the rest
    of [s]. *)
Definition scan_rule (s : str) : option (rule * str) :=
  match scan_run CNonSpace (drop_while (in_cset blank) s) with
  | None => None
  | Some (from, s2) =>
      match scan_run blank s2 with
      | None => None
      | Some (_, s3) =>
          match scan_run CNonSpace s3 with
          | None => None
          | Some (to, s4) =>
              match scan_run blank s4 with
              | None => Some ({| r_from := from; r_to := to; r_status := None |}, s4)
              | Some (_, s5) =>
                  match scan_run CNonSpace s5 with
                  | None => Some ({| r_from := from; r_to := to; r_status := None |}, s4)
                  | Some (status, s6) =>
                      Some ({| r_from := from; r_to := to; r_status := Some status |}, s6)
                  end
              end
          end
      end
  end.

Definition rule_entry (r : rule) : str := entry (r_from r) (r_to r) (r_status r).

Definition compile_line (line : str) : list str :=
  match scan_rule line with
  | Some (r, _) => [rule_entry r]
  | None => []
  end.

(** The lines of a text: every line terminator ends a line. *)
Fixpoint split_lines (s : str) : list str :=
  match s with
  | [] => [[]]
  | x :: t =>
      if is_line_terminator x then [] :: split_lines t
      else
        match split_lines t with
        | l :: ls => (x :: l) :: ls
        | [] => [[x]]
        end
  end.

Definition all_in (cs : cset) (s : str) : bool := forallb (in_cset cs) s.

(** The rule grammar [^[\t ]*(\S+)[\t ]+(\S+)(?:[\t ]+(\S+))?] as a
    property of a line: tabs or spaces, a token, tabs or spaces, a token,
    then anything.  (The optional third group never decides whether the
    line matches.) *)
Definition matches_grammar (line : str) : Prop :=
  exists lead from gap to rest,
    line = lead ++ from ++ gap ++ to ++ rest
    /\ all_in blank lead = true
    /\ from <> [] /\ all_in CNonSpace from = true
    /\ gap <> [] /\ all_in blank gap = true
    /\ to <> [] /\ all_in CNonSpace to = true.

Definition no_line_terminator (s : str) : bool :=
  forallb (fun c => negb (is_line_terminator c)) s.

(** [String.prototype.indexOf]: the position of the first occurrence. *)
Fixpoint index_of (pat s : str) {struct s} : option nat :=
  if starts_with pat s then Some 0
  else
    match s with
    | [] => None
    | _ :: t => option_map S (index_of pat t)
    end.

(** Does the text hold one of the replacement patterns [$$], [$&], [$`]
    or [$']? *)
Fixpoint has_replacement_pattern (s : str) : bool :=
  match s with
  | [] => false
  | c :: t =>
      (N.eqb c (ch "$") &&
       match t with
       | d :: _ => char_in d (js "$&`'")
       | [] => false
       end)
      || has_replacement_pattern t
  end.

(** ** The declared tasks *)

(** The body of a task: a pipeline run by [pump], with or without the shared
    callback [cb], or a function that returns a promise. *)
Inductive action : Type :=
| Pump (callback : bool)
| Promise.

(** A task as declared: the stages that run before its own action (an array
    of names is one stage of concurrent tasks, the arguments of [sequence]
    are stages in order), and its action if it has one. *)
Record task : Type := {
  t_stages : list (list string);
  t_action : option action
}.

Definition leaf (a : action) : task := {| t_stages := []; t_action := Some a |}.
Definition group (stages : list (list string)) : task :=
  {| t_stages := stages; t_action := None |}.

Open Scope string_scope.

Definition tasks : list (string * task) :=
  [ ("build-config", leaf Promise);
    ("build-app-icons", leaf (Pump true));
    ("build-css", group [["minify-css"]]);
    ("build-favicon", leaf Promise);
    ("build-headers", leaf Promise);
    ("build-html", group [["minify-html"]]);
    ("build-images", group [["build-app-icons"]; ["build-favicon"]; ["minify-images"]]);
    ("build-js", group [["build-sw"]; ["minify-js"; "minify-sw"]]);
    ("build-metadata", group [["minify-json"; "minify-xml"]]);
    ("build-redirects", leaf Promise);
    ("build-sw", leaf Promise);
    ("minify-css", leaf (Pump false));
    ("minify-html", leaf (Pump true));
    ("minify-images", leaf (Pump true));
    ("minify-js", leaf (Pump true));
    ("minify-json", leaf (Pump true));
    ("minify-sw", leaf (Pump true));
    ("minify-xml", leaf (Pump true));
    ("build", group [["build-headers"; "build-metadata"; "build-redirects"];
                     ["build-css"; "build-html"; "build-images"; "build-js"]]) ].

(** The two stages of [build]. *)
Definition first_stage : list string :=
  ["build-headers"; "build-metadata"; "build-redirects"].
Definition second_stage : list string :=
  ["build-css"; "build-html"; "build-images"; "build-js"].

(** The tasks that run under the first stage, and under the members of the
    second stage other than [build-js]. *)
Definition under_first_stage : list string :=
  ["build-headers"; "build-metadata"; "minify-json"; "minify-xml"; "build-redirects"].
Definition under_other_members : list string :=
  ["build-css"; "minify-css"; "build-html"; "minify-html"; "build-images";
   "build-app-icons"; "build-favicon"; "minify-images"].

Close Scope string_scope.

Fixpoint lookup (registry : list (string * task)) (name : string) : option task :=
  match registry with
  | [] => None
  | (n, t) :: rest => if String.eqb n name then Some t else lookup rest name
  end.

(** [cb = e => e && console.log(e.message)]: the console after the call. *)
Definition cb (e : option string) (console : list string) : list string :=
  match e with
  | Some message => console ++ [message]
  | None => console
  end.

(** Modelled from the spec: [pump] is a dependency that is not part of the
    sources.  When a stream of the pipeline fails, [pump] destroys the
    streams and passes the error to the callback it was given, if any; the
    error goes nowhere else. *)
Definition on_pipeline_error (a : action) (message : string) (console : list string)
  : list string :=
  match a with
  | Pump true => cb (Some message) console
  | Pump false => console
  | Promise => console
  end.

(** ** The scheduler *)

Inductive event : Type :=
| Start (name : string)
| Finish (name : string)
| Fail (name : string).

Definition event_name (e : event) : string :=
  match e with
  | Start n | Finish n | Fail n => n
  end.

(** The interleavings of two traces. *)
Inductive interleave : list event -> list event -> list event -> Prop :=
| interleave_nil : interleave [] [] []
| interleave_left x a b c : interleave a b c -> interleave (x :: a) b (x :: c)
| interleave_right x a b c : interleave a b c -> interleave a (x :: b) (x :: c).

Definition end_event (name : string) (ok : bool) : event :=
  if ok then Finish name else Fail name.

(** Modelled from the spec: the scheduler ([gulp] and [gulp-sequence]) is
    not part of the sources.  Section 4.1: to run a task, its stages run
    strictly in order; the tasks of a stage run concurrently, each by this
    same algorithm, and all are awaited; a failed stage fails the task and
    no later stage starts; once every stage has succeeded the task's own
    action runs, and succeeds or fails.  [runs name trace ok] holds when
    [trace] is a possible sequence of events of running [name], with
    success [ok]. *)
Inductive runs : string -> list event -> bool -> Prop :=
| runs_done name t tr ok :
    lookup tasks name = Some t ->
    runs_stages (t_stages t) tr true ->
    (t_action t = None -> ok = true) ->
    runs name (Start name :: tr ++ [end_event name ok]) ok
| runs_failed name t tr :
    lookup tasks name = Some t ->
    runs_stages (t_stages t) tr false ->
    runs name (Start name :: tr ++ [Fail name]) false
with runs_stages : list (list string) -> list event -> bool -> Prop :=
| stages_nil : runs_stages [] [] true
| stages_next st rest t1 t2 ok :
    runs_stage st t1 true ->
    runs_stages rest t2 ok ->
    runs_stages (st :: rest) (t1 ++ t2) ok
| stages_stop st rest t1 :
    runs_stage st t1 false ->
    runs_stages (st :: rest) t1 false
with runs_stage : list string -> list event -> bool -> Prop :=
| stage_nil : runs_stage [] [] true
| stage_member n ns t1 t2 t ok1 ok2 :
    runs n t1 ok1 ->
    runs_stage ns t2 ok2 ->
    interleave t1 t2 t ->
    runs_stage (n :: ns) t (ok1 && ok2).

(** The traces one after the other, if all are there. *)
Fixpoint in_sequence (l : list (option (list event))) : option (list event) :=
  match l with
  | [] => Some []
  | o :: rest =>
      match o, in_sequence rest with
      | Some a, Some b => Some (a ++ b)
      | _, _ => None
      end
  end.

(** The run in which every task succeeds and the tasks of a stage run one
    after the other. *)
Fixpoint sequential_run (fuel : nat) (name : string) : option (list event) :=
  match fuel with
  | O => None
  | S fuel' =>
      match lookup tasks name with
      | None => None
      | Some t =>
          match in_sequence
                  (map (fun st => in_sequence (map (sequential_run fuel') st))
                     (t_stages t)) with
          | Some tr => Some (Start name :: tr ++ [Finish name])
          | None => None
          end
      end
  end.

Open Scope string_scope.

(** That run, for [build]. *)
Definition sequential_build : list event :=
  [Start "build"; Start "build-headers"; Finish "build-headers";
   Start "build-metadata"; Start "minify-json"; Finish "minify-json";
   Start "minify-xml"; Finish "minify-xml"; Finish "build-metadata";
   Start "build-redirects"; Finish "build-redirects";
   Start "build-css"; Start "minify-css"; Finish "minify-css"; Finish "build-css";
   Start "build-html"; Start "minify-html"; Finish "minify-html"; Finish "build-html";
   Start "build-images"; Start "build-app-icons"; Finish "build-app-icons";
   Start "build-favicon"; Finish "build-favicon";
   Start "minify-images"; Finish "minify-images"; Finish "build-images";
   Start "build-js"; Start "build-sw"; Finish "build-sw";
   Start "minify-js"; Finish "minify-js"; Start "minify-sw"; Finish "minify-sw";
   Finish "build-js"; Finish "build"].

Close Scope string_scope.

(** Every occurrence of [y] in the trace comes after an occurrence of [x]. *)
Definition happens_before (x y : event) (tr : list event) : Prop :=
  forall l1 l2, tr = l1 ++ y :: l2 -> In x l1.

(** A set of task names that holds the tasks of the stages of its members. *)
Definition closed (S : list string) : bool :=
  forallb (fun n =>
             match lookup tasks n with
             | Some t =>
                 forallb (fun m => existsb (String.eqb m) S) (concat (t_stages t))
             | None => true
             end) S.

(** * Auxiliary definitions

    Used by the statements and proofs below. *)

Unset Implicit Arguments.

(** What a code unit becomes when the units satisfying [P] are replaced by
    their expansion. *)
Definition replace_unit (P : char -> bool) (sub : char -> str) (x : char) : str :=
  if P x then sub x else [x].

Definition escape_unit (c : char) : str :=
  if is_syntax_char c then [ch "\"; c] else [c].

Definition slash_unit (c : char) : str := if is_slash c then js "\/" else [c].

Definition star_unit (c : char) : str :=
  if is_asterisk c then js "(.*)" else escape_unit c.

Definition template_replacer (tpl : str) (_ : unit) (m : match_info) : unit * str :=
  (tt, get_substitution (m_text m) (m_before m) (m_after m) tpl).

Definition trailing_template : str := js "(?:/.|/?$)".

(** What one code unit of [from] becomes in the pattern. *)
Definition pattern_unit (c : char) : str :=
  if is_asterisk c then js "(.*)"
  else if is_slash c then js "\/"
  else if is_syntax_char c then [ch "\"; c]
  else [c].

(** The alternation that stands for a trailing slash. *)
Definition trailing_alternation : str := js "(?:\/.|\/?$)".

(** The reader after the unit of one code unit of [from]. *)
Definition push_unit (st : reader) (c : char) : reader :=
  if is_asterisk c
  then {| p_alts := p_alts st;
          p_cur := RCap (p_next st) (RStar (RSet CDot)) :: p_cur st;
          p_stack := p_stack st; p_next := S (p_next st) |}
  else push_term (RChar c) st.

Definition accept : cont (caps * option char * str) :=
  fun p s cs => Some (cs, p, s).


(** The code unit before the position, after [m] has been consumed. *)
Definition prev_after (m : str) (prev : option char) : option char :=
  fold_left (fun _ c => Some c) m prev.

(** A greedy run over a class followed by [k]: the longest run first, then
    shorter ones. *)
Fixpoint greedy (A : Type) (cs : cset) (k : cont A) (prev : option char) (s : str)
    (c : caps) : option A :=
  match s with
  | x :: s' =>
      if in_cset cs x then
        match greedy A cs k (Some x) s' c with
        | Some r => Some r
        | None => k prev s c
        end
      else k prev s c
  | [] => k prev s c
  end.

(** The tails of [rule_re], from the optional status group outwards. *)
Definition status_re : regex :=
  ROpt (RGroup (RSeq (RPlus (RSet blank)) (RCap 3 (RPlus (RSet CNonSpace))))).
Definition to_re : regex := RSeq (RCap 2 (RPlus (RSet CNonSpace))) status_re.
Definition gap_re : regex := RSeq (RPlus (RSet blank)) to_re.
Definition from_re : regex := RSeq (RCap 1 (RPlus (RSet CNonSpace))) gap_re.
Definition lead_re : regex := RSeq (RStar (RSet blank)) from_re.

Definition match_result : Type := caps * option char * str.

(** What the optional status group yields: it never fails. *)
Definition scan_status (prev : option char) (s : str) (c : caps) : match_result :=
  match scan_run blank s with
  | Some (ws, s5) =>
      match scan_run CNonSpace s5 with
      | Some (st, s6) => (cap_set 3 st c, prev_after st (prev_after ws prev), s6)
      | None => (c, prev, s)
      end
  | None => (c, prev, s)
  end.

Definition scan_to (prev : option char) (s : str) (c : caps) : option match_result :=
  match scan_run CNonSpace s with
  | Some (to, s4) => Some (scan_status (prev_after to prev) s4 (cap_set 2 to c))
  | None => None
  end.

Definition scan_gap (prev : option char) (s : str) (c : caps) : option match_result :=
  match scan_run blank s with
  | Some (ws, s3) => scan_to (prev_after ws prev) s3 c
  | None => None
  end.

Definition scan_from (prev : option char) (s : str) (c : caps) : option match_result :=
  match scan_run CNonSpace s with
  | Some (from, s2) => scan_gap (prev_after from prev) s2 (cap_set 1 from c)
  | None => None
  end.

(** Is the position at the start of a line? *)
Definition at_line_start (prev : option char) : bool :=
  match prev with
  | None => true
  | Some p => is_line_terminator p
  end.

Definition rule_caps (r : rule) : caps :=
  match r_status r with
  | Some st => [(3, st); (2, r_to r); (1, r_from r)]
  | None => [(2, r_to r); (1, r_from r)]
  end.

Definition consumes (s rest : str) : Prop :=
  exists m, s = m ++ rest /\ no_line_terminator m = true.

(** The entries found from a position on: one per position at the start of
    a line where a rule is scanned. *)
Fixpoint entries_from (bol : bool) (s : str) : list str :=
  match s with
  | [] => []
  | x :: t =>
      (if bol then compile_line s else []) ++ entries_from (is_line_terminator x) t
  end.

(** A text that is empty or starts with a line terminator. *)
Definition line_break (rest : str) : bool :=
  match rest with
  | [] => true
  | x :: _ => is_line_terminator x
  end.

Definition with_rest {A : Type} (rest : str) (o : option (A * str)) : option (A * str) :=
  match o with
  | Some (a, r) => Some (a, r ++ rest)
  | None => None
  end.

Definition is_token (t : str) : Prop := t <> [] /\ all_in CNonSpace t = true.
Definition is_gap (g : str) : Prop := g <> [] /\ all_in blank g = true.

Scheme runs_min := Minimality for runs Sort Prop
  with runs_stages_min := Minimality for runs_stages Sort Prop
  with runs_stage_min := Minimality for runs_stage Sort Prop.

Combined Scheme runs_mutual from runs_min, runs_stages_min, runs_stage_min.

(** ** Executing a matcher *)



(** Is the text the body of a regular-expression literal without character
    class?  A backslash takes the next code unit with it; a bare slash would
    end the literal, a bracket would open a class, and a line terminator
    may not occur. *)
Fixpoint literal_body (s : str) : bool :=
  match s with
  | [] => true
  | c :: t =>
      if N.eqb c (ch "\") then
        match t with
        | d :: t' => negb (is_line_terminator d) && literal_body t'
        | [] => false
        end
      else if N.eqb c (ch "/") || N.eqb c (ch "[") || is_line_terminator c then false
      else literal_body t
  end.


(** ** The tasks under a task *)

Open Scope string_scope.

(** Every declared task but [build-config]. *)
Definition build_tasks : list string :=
  ["build"; "build-headers"; "build-metadata"; "minify-json"; "minify-xml";
   "build-redirects"; "build-css"; "minify-css"; "build-html"; "minify-html";
   "build-images"; "build-app-icons"; "build-favicon"; "minify-images";
   "build-js"; "build-sw"; "minify-js"; "minify-sw"].

Close Scope string_scope.

(** Is [m] the task [n] or a task of its stages, down to [fuel] levels? *)
Fixpoint reaches (fuel : nat) (n m : string) : bool :=
  String.eqb n m
  || match fuel with
     | O => false
     | S fuel' =>
         match lookup tasks n with
         | Some t => existsb (fun c => reaches fuel' c m) (concat (t_stages t))
         | None => false
         end
     end.


Open Scope string_scope.

(** The tasks under the members of the second stage other than
    [build-images]. *)
Definition beside_images : list string :=
  ["build-css"; "minify-css"; "build-html"; "minify-html";
   "build-js"; "build-sw"; "minify-js"; "minify-sw"].

(** The tasks under the second stage. *)
Definition under_second_stage : list string :=
  ["build-css"; "minify-css"; "build-html"; "minify-html"; "build-images";
   "build-app-icons"; "build-favicon"; "minify-images";
   "build-js"; "build-sw"; "minify-js"; "minify-sw"].

Close Scope string_scope.


(** ** [cleanSource] and [cleanFile] *)

(** [String.prototype.trim]: white space and line terminators are removed
    at both ends. *)
Definition trim_start (s : str) : str := drop_while is_space s.
Definition trim_end (s : str) : str := rev (drop_while is_space (rev s)).
Definition trim (s : str) : str := trim_end (trim_start s).

(** [a{2,}]: two iterations, then greedily more. *)
Definition at_least_two (a : regex) : regex := RSeq a (RPlus a).

(** The class [[-\w]]: the hyphen and the word characters. *)
Definition key_chars : cset :=
  COneOf (js "-abcdefghijklmnopqrstuvwxyzABCDEFGHIJKLMNOPQRSTUVWXYZ0123456789_").

(** [/^(?:\s*\n){2,}/gm] and [/ {2,}/g] *)
Definition blank_lines_re : regex :=
  RSeq RBol (at_least_two (RGroup (RSeq (RStar (RSet CSpace)) (RChar LF)))).
Definition spaces_re : regex := at_least_two (RChar SP).

(** [/^ (?=[-\w]+:)/gm]: the pattern before the lookahead, and the pattern
    looked ahead for. *)
Definition indent_re : regex := RSeq RBol (RChar SP).
Definition key_ahead_re : regex := RSeq (RPlus (RSet key_chars)) (RChar (ch ":")).

(** A match of [r(?=look)] at the current position: what follows [r] must
    match [look], which consumes nothing; when it does not, [r] is asked for
    another match. *)
Definition match_at_ahead (ml : bool) (r look : regex) (prev : option char) (s : str)
  : option (caps * option char * str) :=
  rmatch ml r prev s []
    (fun p s' cs =>
       match rmatch ml look p s' cs (fun _ _ cs' => Some cs') with
       | Some cs' => Some (cs', p, s')
       | None => None
       end).

Section ReplaceBy.
(** [replace_loop], for any way to find a match at a position. *)
Variable St : Type.
Variable g : bool.
Variable matcher : option char -> str -> option (caps * option char * str).
Variable replacer : St -> match_info -> St * str.

Fixpoint replace_loop_by (fuel : nat) (prev : option char) (before s : str) (st : St)
  : St * str :=
  match fuel with
  | O => (st, s)
  | S fuel' =>
      match matcher prev s with
      | Some (cs, p, rest) =>
          let matched := firstn (length s - length rest) s in
          let (st1, rep) :=
            replacer st {| m_text := matched; m_before := before;
                           m_after := rest; m_caps := cs |} in
          if g then
            match matched, s with
            | [], [] => (st1, rep)
            | [], x :: t =>
                let (st2, out) := replace_loop_by fuel' (Some x) (before ++ [x]) t st1 in
                (st2, rep ++ x :: out)
            | _ :: _, _ =>
                let (st2, out) := replace_loop_by fuel' p (before ++ matched) rest st1 in
                (st2, rep ++ out)
            end
          else (st1, rep ++ rest)
      | None =>
          match s with
          | [] => (st, [])
          | x :: t =>
              let (st1, out) := replace_loop_by fuel' (Some x) (before ++ [x]) t st in
              (st1, x :: out)
          end
      end
  end.
End ReplaceBy.

(** The text that replacing by a template gives. *)
Definition replace_plain (g : bool)
    (matcher : option char -> str -> option (caps * option char * str)) (tpl : str)
    (fuel : nat) (prev : option char) (before s : str) : str :=
  snd (replace_loop_by unit g matcher (template_replacer tpl) fuel prev before s tt).

(** [subject.replace(/r(?=look)/, template)]. *)
Definition replace_ahead (ml g : bool) (r look : regex) (tpl : str) (s : str) : str :=
  replace_plain g (match_at_ahead ml r look) tpl (S (length s)) None [] s.

(** [cleanSource]: trim, one newline for several, one space for several,
    two spaces before an indented key, and a final newline. *)
Definition cleanSource (source : str) : str :=
  replace_ahead true true indent_re key_ahead_re (js "  ")
    (replace_rx false true spaces_re (js " ")
       (replace_rx true true blank_lines_re [LF] (trim source)))
  ++ [LF].

(** [cleanFile]: the file is read, cleaned and written back. *)
Definition cleanFile (filePath : string) (fs : files) : outcome files :=
  match fs filePath with
  | Some source => Resolved (write_file filePath (cleanSource source) fs)
  | None => Rejected ("ENOENT: " ++ filePath)%string
  end.

(** The non-whitespace code units of a text, in order. *)
Definition ink (s : str) : str := filter (fun c => negb (is_space c)) s.

(** ** The texts of a pattern

    What a pattern can consume, whatever surrounds it (the assertions
    consume nothing). *)
Inductive derives : regex -> str -> Prop :=
| derives_char c : derives (RChar c) [c]
| derives_set cs x : in_cset cs x = true -> derives (RSet cs) [x]
| derives_bol : derives RBol []
| derives_eol : derives REol []
| derives_empty : derives REmpty []
| derives_seq a b m n : derives a m -> derives b n -> derives (RSeq a b) (m ++ n)
| derives_alt_left a b m : derives a m -> derives (RAlt a b) m
| derives_alt_right a b m : derives b m -> derives (RAlt a b) m
| derives_star_stop a : derives (RStar a) []
| derives_star_more a m n :
    derives a m -> derives (RStar a) n -> derives (RStar a) (m ++ n)
| derives_plus a m n : derives a m -> derives (RStar a) n -> derives (RPlus a) (m ++ n)
| derives_opt_none a : derives (ROpt a) []
| derives_opt_some a m : derives a m -> derives (ROpt a) m
| derives_cap i a m : derives a m -> derives (RCap i a) m
| derives_group a m : derives a m -> derives (RGroup a) m.

(** Patterns made of whitespace only, and patterns that consume at least
    one code unit. *)
Fixpoint space_only (r : regex) : bool :=
  match r with
  | RChar c => is_space c
  | RSet CSpace => true
  | RSet (COneOf l) => forallb is_space l
  | RSet _ => false
  | RBol | REol | REmpty => true
  | RSeq a b | RAlt a b => space_only a && space_only b
  | RStar a | RPlus a | ROpt a | RCap _ a | RGroup a => space_only a
  end.

Fixpoint consuming (r : regex) : bool :=
  match r with
  | RChar _ | RSet _ => true
  | RBol | REol | REmpty | RStar _ | ROpt _ => false
  | RSeq a b => consuming a || consuming b
  | RAlt a b => consuming a && consuming b
  | RPlus a | RCap _ a | RGroup a => consuming a
  end.

(** When the matcher succeeds, its continuation has succeeded on what is
    left after a text of the pattern. *)
Definition sound_for (A : Type) (ml : bool) (r : regex) : Prop :=
  forall (k : cont A) prev s cs x,
    rmatch ml r prev s cs k = Some x ->
    exists p s' cs' m, k p s' cs' = Some x /\ s = (m ++ s')%list /\ derives r m.

(** A way to find a match that consumes whitespace only, and never
    nothing. *)
Definition eats_space (matcher : option char -> str -> option (caps * option char * str))
  : Prop :=
  forall prev s cs p rest,
    matcher prev s = Some (cs, p, rest) ->
    exists m, s = m ++ rest /\ m <> [] /\ forallb is_space m = true.


(** ** Cleaning and compiling *)

(** Texts whose only white space is spaces, tabs and line terminators. *)
Definition plain_space (s : str) : bool :=
  forallb (fun c => negb (is_space c) || in_cset blank c || is_line_terminator c) s.

(** Texts made of spaces, tabs and line terminators. *)
Definition hollow (s : str) : bool :=
  forallb (fun c => in_cset blank c || is_line_terminator c) s.

(** Two texts that are the same but for a tab or space that stands
    before another one, or at the end. *)
Inductive alike : str -> str -> Prop :=
| alike_same s : alike s s
| alike_extra l1 b b' l2 :
    in_cset blank b = true -> in_cset blank b' = true ->
    alike (l1 ++ b :: b' :: l2)%list (l1 ++ b' :: l2)%list
| alike_trail s b : in_cset blank b = true -> alike (s ++ [b])%list s.

(** How the scans of a token, and of a gap, of two such texts compare. *)
Definition alike_token (a b : option (str * str)) : Prop :=
  match a, b with
  | Some (t, r), Some (t', r') => t = t' /\ alike r r'
  | None, None => True
  | _, _ => False
  end.

Definition alike_gap (a b : option (str * str)) : Prop :=
  match a, b with
  | Some (_, r), Some (_, r') => alike r r'
  | None, None => True
  | Some (_, r), None => r = []
  | None, Some _ => False
  end.


(** ** The [build-config] task *)

(** A pattern that is one text. *)
Definition literal (s : string) : regex := mk_seq (map RChar (js s)).

(** The pattern of [build-config], with the flags [gm]: at the start of a
    line, tabs or spaces, an optional hyphen followed by tabs or spaces,
    [href:], tabs or spaces, the group [(\S+)], a newline, tabs or spaces,
    [integrity:], tabs or spaces, the group [(\S+)]. *)
Definition config_re : regex :=
  mk_seq [RBol; RStar (RSet blank);
          ROpt (RGroup (RSeq (RChar (ch "-")) (RStar (RSet blank))));
          literal "href:"; RStar (RSet blank); RCap 1 (RPlus (RSet CNonSpace));
          RChar LF; RStar (RSet blank);
          literal "integrity:"; RStar (RSet blank); RCap 2 (RPlus (RSet CNonSpace))].

Record resource : Type := {
  href : str;
  integrity : str
}.

(** The decimal digits of a number, as [String] gives them. *)
Fixpoint digits (u : Decimal.uint) : str :=
  match u with
  | Decimal.Nil => []
  | Decimal.D0 v => ch "0" :: digits v
  | Decimal.D1 v => ch "1" :: digits v
  | Decimal.D2 v => ch "2" :: digits v
  | Decimal.D3 v => ch "3" :: digits v
  | Decimal.D4 v => ch "4" :: digits v
  | Decimal.D5 v => ch "5" :: digits v
  | Decimal.D6 v => ch "6" :: digits v
  | Decimal.D7 v => ch "7" :: digits v
  | Decimal.D8 v => ch "8" :: digits v
  | Decimal.D9 v => ch "9" :: digits v
  end.

(** The replacer of [build-config]: it pushes one resource and returns the
    new length of [entries].  (Both groups take part in every match.) *)
Definition push_resource (entries : list resource) (m : match_info)
  : list resource * str :=
  let cs := m_caps m in
  let entries' :=
    (entries ++ [{| href := interpolate (cap_get 1 cs);
                    integrity := interpolate (cap_get 2 cs) |}])%list in
  (entries', digits (Nat.to_uint (length entries'))).

(** The resources listed in the configuration. *)
Definition resources (config : str) : list resource :=
  fst (replace_with true true config_re push_resource config []).

Section BuildConfig.
(** What is out of the program: the body that a URL serves ([None] when the
    request fails), and the integrity value that [sri.generate] gives for a
    body with the algorithm [sha384]. *)
Variable fetch : str -> option str.
Variable generate : str -> str.

(** [Promise.all] of the requests: the bodies in order, unless one fails. *)
Fixpoint fetch_all (entries : list resource) : option (list str) :=
  match entries with
  | [] => Some []
  | e :: rest =>
      match fetch (href e), fetch_all rest with
      | Some body, Some bodies => Some (body :: bodies)
      | _, _ => None
      end
  end.

(** [bodies.reduce((config, body, index) =>
       config.replace(entries[index].integrity, sri.generate(..., body)), config)] *)
Definition update_integrity (entries : list resource) (bodies : list str) (config : str)
  : str :=
  fold_left
    (fun cfg (eb : resource * str) =>
       replace_str (integrity (fst eb)) (generate (snd eb)) cfg)
    (combine entries bodies) config.

Definition build_config_task (fs : files) : outcome files :=
  match fs "_config.yml"%string with
  | None => Rejected "ENOENT: _config.yml"
  | Some config =>
      match fetch_all (resources config) with
      | None => Rejected "request failed"
      | Some bodies =>
          Resolved (write_file "_config.yml"
                      (update_integrity (resources config) bodies config) fs)
      end
  end.
End BuildConfig.


(** What may follow a token on its line: nothing, or a whitespace
    character. *)
Definition token_end (tail : str) : bool :=
  match tail with
  | [] => true
  | w :: _ => is_space w
  end.


(** * Properties *)

Example match_at_demo :
  match_at false (RSeq (RCap 1 (RStar (RSet CDot))) (RChar (ch "c"))) None (js "abcbcd")
  = Some ([(1, js "abcb")], Some (ch "c"), js "d").
Proof. reflexivity. Qed.

Example compile_demo1 :
  compile (js "/a/* /b/$1") = [js "[/^\/a\/(.*)/,'/b/$1',undefined]"].
Proof. vm_compute. reflexivity. Qed.

(** ** Replacing single code units *)

Lemma firstn_consumed (x : char) (s : str) :
  firstn (length (x :: s) - length s) (x :: s) = [x].
Proof.
  replace (length (x :: s) - length s) with 1 by (cbn [length]; lia).
  reflexivity.
Qed.

Lemma firstn_consumed2 (x y : char) (s : str) :
  firstn (length (x :: y :: s) - length s) (x :: y :: s) = [x; y].
Proof.
  replace (length (x :: y :: s) - length s) with 2 by (cbn [length]; lia).
  reflexivity.
Qed.

Section ReplaceUnits.
(** A pattern that matches exactly the single code units satisfying [P],
    replaced everywhere by a template whose expansion [sub] depends on the
    matched unit only. *)
Variable re : regex.
Variable P : char -> bool.
Variable tpl : str.
Variable sub : char -> str.
Hypothesis match_cons : forall prev x s,
  match_at false re prev (x :: s) = if P x then Some ([], Some x, s) else None.
Hypothesis match_nil : forall prev, match_at false re prev [] = None.
Hypothesis expand : forall x b a, get_substitution [x] b a tpl = sub x.

Lemma replace_loop_units (s : str) : forall fuel prev before,
  length s < fuel ->
  replace_loop false true re
    (fun (_ : unit) m => (tt, get_substitution (m_text m) (m_before m) (m_after m) tpl))
    fuel prev before s tt
  = (tt, flat_map (replace_unit P sub) s).
Proof.
  induction s as [|x s IH]; intros fuel prev before Hf;
    (destruct fuel as [|fuel]; [simpl in Hf; lia|]).
  - simpl. rewrite match_nil. reflexivity.
  - cbn [replace_loop flat_map]. rewrite match_cons. unfold replace_unit at 1.
    destruct (P x).
    + rewrite firstn_consumed. cbn [m_text m_before m_after].
      rewrite expand. rewrite IH by (simpl in Hf; lia). reflexivity.
    + rewrite IH by (simpl in Hf; lia). reflexivity.
Qed.

Lemma replace_rx_units (s : str) :
  replace_rx false true re tpl s = flat_map (replace_unit P sub) s.
Proof.
  unfold replace_rx, replace_with. rewrite replace_loop_units by lia. reflexivity.
Qed.
End ReplaceUnits.

(** ** [_.escapeRegExp] *)

Lemma rx_search_none (s : str) : forall prev,
  rx_search false reRegExpChar prev s = false -> forallb (fun c => negb (is_syntax_char c)) s = true.
Proof.
  induction s as [|x s IH]; intros prev H; [reflexivity|].
  cbn [rx_search] in H. unfold match_at in H. cbn [rmatch reRegExpChar in_cset] in H.
  cbn [forallb]. unfold is_syntax_char at 1.
  destruct (char_in x (js "\^$.*+?()[]{}|")); [discriminate|].
  apply (IH (Some x)). exact H.
Qed.

Lemma flat_map_escape_plain (s : str) :
  forallb (fun c => negb (is_syntax_char c)) s = true -> flat_map escape_unit s = s.
Proof.
  induction s as [|x s IH]; intro H; [reflexivity|].
  cbn [forallb] in H. apply andb_true_iff in H. destruct H as [Hx Hs].
  cbn [flat_map]. unfold escape_unit at 1.
  apply negb_true_iff in Hx. rewrite Hx. rewrite IH by exact Hs. reflexivity.
Qed.

Lemma escapeRegExp_units (s : str) : escapeRegExp s = flat_map escape_unit s.
Proof.
  unfold escapeRegExp. destruct s as [|x s]; [reflexivity|].
  destruct (rx_test false reRegExpChar (x :: s)) eqn:E.
  - apply (@replace_rx_units reRegExpChar is_syntax_char (js "\$&")
             (fun c => [ch "\"; c])).
    + reflexivity.
    + reflexivity.
    + reflexivity.
  - symmetry. apply flat_map_escape_plain. apply (rx_search_none _ None). exact E.
Qed.

(** ** Escaping the slashes *)

Lemma escape_slashes_units (s : str) :
  replace_rx false true slash_re (js "\/") s = flat_map slash_unit s.
Proof.
  apply (@replace_rx_units slash_re is_slash (js "\/") (fun _ => js "\/")).
  - reflexivity.
  - reflexivity.
  - reflexivity.
Qed.

(** ** Escaped asterisks become capture groups *)

Lemma special_backslash : is_syntax_char (ch "\") = true.
Proof. reflexivity. Qed.

Lemma special_asterisk : is_syntax_char (ch "*") = true.
Proof. reflexivity. Qed.

Lemma plain_not (c d : char) :
  is_syntax_char c = false -> is_syntax_char d = true -> N.eqb c d = false.
Proof.
  intros Hc Hd. destruct (N.eqb_spec c d) as [->|]; [congruence|reflexivity].
Qed.

Lemma asterisk_hit prev (t : str) :
  match_at false escaped_asterisk_re prev (ch "\" :: ch "*" :: t)
  = Some ([], Some (ch "*"), t).
Proof. reflexivity. Qed.

Lemma asterisk_miss prev (c : char) (t : str) :
  N.eqb c (ch "*") = false ->
  match_at false escaped_asterisk_re prev (ch "\" :: c :: t) = None.
Proof.
  intro H. unfold match_at. cbn [escaped_asterisk_re rmatch].
  change (N.eqb (ch "\") (ch "\")) with true. cbv iota. rewrite H. reflexivity.
Qed.

(** No escaped text starts with a bare asterisk, so no match starts on the
    second unit of an escape. *)
Lemma asterisk_miss_inside prev (c : char) (t : str) :
  match_at false escaped_asterisk_re prev (c :: flat_map escape_unit t) = None.
Proof.
  unfold match_at. cbn [escaped_asterisk_re rmatch].
  destruct (N.eqb c (ch "\")); [|reflexivity].
  destruct t as [|d t]; [reflexivity|].
  cbn [flat_map]. unfold escape_unit at 1.
  destruct (is_syntax_char d) eqn:E; cbn [app].
  - reflexivity.
  - rewrite (@plain_not d (ch "*") E special_asterisk). reflexivity.
Qed.

Lemma replace_rx_unfold ml g re tpl s :
  replace_rx ml g re tpl s
  = snd (replace_loop ml g re (template_replacer tpl) (S (length s)) None [] s tt).
Proof. reflexivity. Qed.

Lemma replace_asterisks_loop (from : str) : forall fuel prev before,
  length (flat_map escape_unit from) < fuel ->
  replace_loop false true escaped_asterisk_re (template_replacer (js "(.*)"))
    fuel prev before (flat_map escape_unit from) tt
  = (tt, flat_map star_unit from).
Proof.
  induction from as [|c t IH]; intros fuel prev before Hf;
    (destruct fuel as [|fuel]; [cbn [length] in Hf; lia|]).
  - reflexivity.
  - cbn [flat_map] in *. unfold star_unit at 1, is_asterisk.
    unfold escape_unit at 1 3. unfold escape_unit at 1 in Hf.
    destruct (is_syntax_char c) eqn:E; cbn [app length] in Hf |- *.
    + destruct (N.eqb_spec c (ch "*")) as [->|Hne].
      * cbn [replace_loop]. rewrite asterisk_hit, firstn_consumed2.
        change (template_replacer (js "(.*)") tt ?m) with (tt, js "(.*)").
        cbv iota beta.
        rewrite IH by lia. reflexivity.
      * destruct fuel as [|fuel]; [lia|].
        apply N.eqb_neq in Hne.
        cbn [replace_loop]. rewrite (asterisk_miss _ _ _ Hne), asterisk_miss_inside.
        rewrite IH by lia. reflexivity.
    + cbn [replace_loop]. rewrite asterisk_miss_inside.
      rewrite IH by lia.
      rewrite (@plain_not c (ch "*") E special_asterisk). reflexivity.
Qed.

Lemma replace_asterisks_units (from : str) :
  replace_rx false true escaped_asterisk_re (js "(.*)") (flat_map escape_unit from)
  = flat_map star_unit from.
Proof.
  rewrite replace_rx_unfold, replace_asterisks_loop by lia. reflexivity.
Qed.

(** ** The optional trailing slash *)

Lemma trailing_hit prev (y : char) :
  match_at false trailing_slash_re prev [y]
  = if is_slash y then Some ([], Some y, []) else None.
Proof. reflexivity. Qed.

Lemma trailing_miss prev (x z : char) (t : str) :
  match_at false trailing_slash_re prev (x :: z :: t) = None.
Proof.
  unfold match_at. cbn [trailing_slash_re rmatch andb].
  destruct (N.eqb x (ch "/")); reflexivity.
Qed.

Lemma replace_loop_nil (St : Type) ml g re (f : St -> match_info -> St * str)
    fuel prev before st :
  match_at ml re prev [] = None ->
  replace_loop ml g re f fuel prev before [] st = (st, []).
Proof.
  intro H. destruct fuel; [reflexivity|]. cbn [replace_loop]. rewrite H. reflexivity.
Qed.

Lemma replace_trailing_loop (X : str) : forall y fuel prev before,
  length (X ++ [y]) < fuel ->
  replace_loop false false trailing_slash_re (template_replacer trailing_template)
    fuel prev before (X ++ [y]) tt
  = (tt, if is_slash y then X ++ trailing_template else X ++ [y]).
Proof.
  induction X as [|x X IH]; intros y fuel prev before Hf;
    (destruct fuel as [|fuel]; [cbn [length] in Hf; lia|]).
  - cbn [app replace_loop]. rewrite trailing_hit.
    destruct (is_slash y).
    + reflexivity.
    + rewrite replace_loop_nil by reflexivity. reflexivity.
  - assert (E : (x :: X) ++ [y] = x :: hd y X :: tl (X ++ [y]))
      by (destruct X; reflexivity).
    cbn [replace_loop]. rewrite E at 1. rewrite trailing_miss.
    cbn [app]. rewrite IH by (cbn [app length] in Hf; lia).
    destruct (is_slash y); reflexivity.
Qed.

Lemma replace_trailing_snoc (X : str) (y : char) :
  replace_rx false false trailing_slash_re trailing_template (X ++ [y])
  = if is_slash y then X ++ trailing_template else X ++ [y].
Proof.
  rewrite replace_rx_unfold, replace_trailing_loop by lia. reflexivity.
Qed.

(** ** The compiled [from], unit by unit *)

Lemma ends_with_slash_snoc (b : str) (c : char) :
  ends_with_slash (b ++ [c]) = is_slash c.
Proof. unfold ends_with_slash. rewrite rev_app_distr. reflexivity. Qed.

Lemma slash_star_unit (c : char) : flat_map slash_unit (star_unit c) = pattern_unit c.
Proof.
  unfold star_unit, pattern_unit, escape_unit.
  destruct (is_asterisk c); [reflexivity|].
  destruct (is_syntax_char c) eqn:E.
  - unfold is_slash. destruct (N.eqb_spec c (ch "/")) as [->|Hne].
    + discriminate E.
    + cbn [flat_map]. unfold slash_unit, is_slash.
      apply N.eqb_neq in Hne. rewrite Hne. reflexivity.
  - cbn [flat_map]. unfold slash_unit. destruct (is_slash c); reflexivity.
Qed.

Lemma slash_star_units (s : str) :
  flat_map slash_unit (flat_map star_unit s) = flat_map pattern_unit s.
Proof.
  induction s as [|c s IH]; [reflexivity|].
  cbn [flat_map]. rewrite flat_map_app, slash_star_unit, IH. reflexivity.
Qed.

(** Every unit ends with a code unit that is a slash only if the unit of
    [from] is. *)
Lemma star_unit_last (c : char) :
  exists W y, star_unit c = W ++ [y] /\ is_slash y = is_slash c.
Proof.
  unfold star_unit, escape_unit.
  destruct (is_asterisk c) eqn:Ea.
  - exists (js "(.*"), (ch ")"). split; [reflexivity|].
    unfold is_asterisk in Ea. apply N.eqb_eq in Ea. subst c. reflexivity.
  - destruct (is_syntax_char c).
    + exists [ch "\"], c. split; reflexivity.
    + exists [], c. split; reflexivity.
Qed.

Lemma compile_from_unfold (from : str) :
  compile_from from
  = flat_map slash_unit
      (replace_rx false false trailing_slash_re trailing_template
         (flat_map star_unit from)).
Proof.
  unfold compile_from.
  rewrite escapeRegExp_units, replace_asterisks_units, escape_slashes_units.
  reflexivity.
Qed.

Lemma compile_from_trailing_slash (body : str) :
  compile_from (body ++ [ch "/"])
  = flat_map pattern_unit body ++ trailing_alternation.
Proof.
  rewrite compile_from_unfold, flat_map_app.
  change (flat_map star_unit [ch "/"]) with [ch "/"].
  rewrite replace_trailing_snoc.
  change (is_slash (ch "/")) with true. cbv iota.
  rewrite flat_map_app, slash_star_units. reflexivity.
Qed.

Lemma compile_from_no_trailing_slash (from : str) :
  ends_with_slash from = false ->
  compile_from from = flat_map pattern_unit from.
Proof.
  intro H. rewrite compile_from_unfold.
  induction from as [|c body _] using rev_ind.
  { reflexivity. }
  rewrite ends_with_slash_snoc in H.
  rewrite flat_map_app. cbn [flat_map]. rewrite app_nil_r.
  destruct (star_unit_last c) as [W [y [EW Hy]]].
  rewrite EW, app_assoc, replace_trailing_snoc, Hy, H.
  rewrite <- app_assoc, <- EW.
  rewrite <- slash_star_units.
  rewrite (flat_map_app star_unit). cbn [flat_map].
  rewrite app_nil_r. reflexivity.
Qed.

(** ** Reading the compiled pattern *)

Lemma read_unit (c : char) (rest : str) (st : reader) :
  read_pattern (pattern_unit c ++ rest) st = read_pattern rest (push_unit st c).
Proof.
  unfold pattern_unit, push_unit.
  destruct (is_asterisk c) eqn:Ea.
  { destruct st; reflexivity. }
  destruct (is_slash c) eqn:Es.
  { unfold is_slash in Es. apply N.eqb_eq in Es. subst c. reflexivity. }
  destruct (is_syntax_char c) eqn:E.
  - cbn [app read_pattern]. change (N.eqb (ch "\") (ch "\")) with true.
    cbv iota. rewrite E. reflexivity.
  - cbn [app read_pattern].
    rewrite !(fun d => @plain_not c d E) by reflexivity.
    rewrite E. reflexivity.
Qed.

Lemma read_units (body : str) : forall (rest : str) (st : reader),
  read_pattern (flat_map pattern_unit body ++ rest) st
  = read_pattern rest (fold_left push_unit body st).
Proof.
  induction body as [|c body IH]; intros rest st; [reflexivity|].
  cbn [flat_map fold_left]. rewrite <- app_assoc, read_unit. apply IH.
Qed.

Lemma push_units_state (body : str) : forall st,
  fold_left push_unit body st
  = {| p_alts := p_alts st;
       p_cur := rev (from_terms (p_next st) body) ++ p_cur st;
       p_stack := p_stack st;
       p_next := p_next st + count_wildcards body |}.
Proof.
  unfold count_wildcards.
  induction body as [|c body IH]; intro st.
  - cbn. rewrite Nat.add_0_r. destruct st; reflexivity.
  - cbn [fold_left from_terms filter]. rewrite IH. unfold push_unit.
    destruct (is_asterisk c); cbn [p_alts p_cur p_stack p_next push_term rev length];
      rewrite <- app_assoc; cbn [app]; f_equal; lia.
Qed.

Lemma read_directory_alternation (rest : str) (st : reader) :
  read_pattern (trailing_alternation ++ rest) st
  = read_pattern rest (push_term directory_alternation st).
Proof. destruct st; reflexivity. Qed.

Lemma removelast_snoc (b : str) (c : char) : removelast (b ++ [c]) = b.
Proof. apply removelast_last. Qed.

Lemma read_bol (s : str) (st : reader) :
  read_pattern (ch "^" :: s) st = read_pattern s (push_term RBol st).
Proof. reflexivity. Qed.

Lemma parse_matcher_source (from : str) :
  parse_pattern (matcher_source from) = Some (pattern_of from).
Proof.
  unfold parse_pattern, matcher_source, pattern_of.
  rewrite read_bol.
  destruct (ends_with_slash from) eqn:E.
  - induction from as [|c body _] using rev_ind; [discriminate E|].
    rewrite ends_with_slash_snoc in E. unfold is_slash in E.
    apply N.eqb_eq in E. subst c.
    rewrite compile_from_trailing_slash, removelast_snoc.
    rewrite read_units, push_units_state.
    rewrite <- (app_nil_r trailing_alternation), read_directory_alternation.
    cbn. unfold disjunction. cbn. rewrite rev_app_distr, rev_involutive.
    reflexivity.
  - rewrite (compile_from_no_trailing_slash _ E).
    rewrite <- (app_nil_r (flat_map pattern_unit from)).
    rewrite read_units, push_units_state.
    cbn. unfold disjunction. cbn. rewrite rev_app_distr, rev_involutive.
    reflexivity.
Qed.

(** ** Capturing groups *)

Lemma capture_groups_mk_seq (l : list regex) :
  capture_groups (mk_seq l) = flat_map capture_groups l.
Proof.
  induction l as [|t ts IH]; [reflexivity|].
  destruct ts as [|u ts].
  - cbn. rewrite app_nil_r. reflexivity.
  - change (mk_seq (t :: u :: ts)) with (RSeq t (mk_seq (u :: ts))).
    cbn [capture_groups flat_map]. rewrite IH. reflexivity.
Qed.

Lemma capture_groups_from_terms (s : str) : forall i,
  flat_map capture_groups (from_terms i s) = seq i (count_wildcards s).
Proof.
  unfold count_wildcards.
  induction s as [|c s IH]; intro i; [reflexivity|].
  cbn [from_terms filter]. destruct (is_asterisk c); cbn; rewrite IH; reflexivity.
Qed.

Lemma count_wildcards_snoc_slash (b : str) :
  count_wildcards (b ++ [ch "/"]) = count_wildcards b.
Proof.
  unfold count_wildcards. rewrite filter_app. cbn. rewrite app_nil_r. reflexivity.
Qed.

Lemma capture_groups_pattern_of (from : str) :
  capture_groups (pattern_of from) = seq 1 (count_wildcards from).
Proof.
  unfold pattern_of. rewrite capture_groups_mk_seq. cbn [flat_map capture_groups app].
  destruct (ends_with_slash from) eqn:E.
  - induction from as [|c body _] using rev_ind; [discriminate E|].
    rewrite ends_with_slash_snoc in E. unfold is_slash in E.
    apply N.eqb_eq in E. subst c.
    rewrite removelast_snoc, flat_map_app, capture_groups_from_terms.
    rewrite count_wildcards_snoc_slash. cbn. rewrite app_nil_r. reflexivity.
  - apply capture_groups_from_terms.
Qed.

(** ** Matching with the compiled pattern *)








(** ** Greedy runs over a character class *)

Section Greedy.
Variable A : Type.
Variable ml : bool.
Variable cs : cset.
Variable k : cont A.

Lemma repeat_set (fuel : nat) : forall prev s c,
  length s < fuel ->
  repeat_match (rmatch ml (RSet cs)) k fuel prev s c = greedy A cs k prev s c.
Proof.
  induction fuel as [|fuel IH]; intros prev s c Hf; [lia|].
  destruct s as [|x s]; [reflexivity|].
  cbn [repeat_match rmatch greedy].
  destruct (in_cset cs x); [|reflexivity].
  replace (length s <? length (x :: s)) with true
    by (symmetry; apply Nat.ltb_lt; cbn [length]; lia).
  rewrite IH by (cbn [length] in Hf; lia). reflexivity.
Qed.

Lemma star_set prev s c :
  rmatch ml (RStar (RSet cs)) prev s c k = greedy A cs k prev s c.
Proof. cbn [rmatch]. apply repeat_set. lia. Qed.

Lemma plus_set prev s c :
  rmatch ml (RPlus (RSet cs)) prev s c k
  = match s with
    | x :: s' => if in_cset cs x then greedy A cs k (Some x) s' c else None
    | [] => None
    end.
Proof.
  cbn [rmatch]. destruct s as [|x s]; [reflexivity|].
  destruct (in_cset cs x); [|reflexivity]. apply repeat_set. lia.
Qed.

(** When what follows the run accepts after the longest run, that is the
    match. *)
Lemma greedy_accept (s : str) : forall prev c r,
  k (prev_after (take_while (in_cset cs) s) prev) (drop_while (in_cset cs) s) c = Some r ->
  greedy A cs k prev s c = Some r.
Proof.
  induction s as [|x s IH]; intros prev c r H; [exact H|].
  cbn [greedy take_while drop_while] in *.
  destruct (in_cset cs x); [|exact H].
  rewrite (IH (Some x) c r H). reflexivity.
Qed.

(** When what follows the run refuses every text that starts in the
    class, only the longest run is tried with success. *)
Hypothesis k_rejects : forall p x s c, in_cset cs x = true -> k p (x :: s) c = None.

Lemma greedy_longest (s : str) : forall prev c,
  greedy A cs k prev s c
  = k (prev_after (take_while (in_cset cs) s) prev) (drop_while (in_cset cs) s) c.
Proof.
  induction s as [|x s IH]; intros prev c; [reflexivity|].
  cbn [greedy take_while drop_while].
  destruct (in_cset cs x) eqn:E; [|reflexivity].
  rewrite IH. cbn [prev_after fold_left].
  fold (prev_after (take_while (in_cset cs) s) (Some x)).
  destruct (k (prev_after (take_while (in_cset cs) s) (Some x))
              (drop_while (in_cset cs) s) c) eqn:Ek; [reflexivity|].
  apply k_rejects. exact E.
Qed.
End Greedy.

Lemma take_drop_while (P : char -> bool) (s : str) :
  take_while P s ++ drop_while P s = s.
Proof.
  induction s as [|x s IH]; [reflexivity|].
  cbn. destruct (P x); [|reflexivity]. cbn. rewrite IH. reflexivity.
Qed.

Lemma take_while_all (P : char -> bool) (s : str) :
  forallb P (take_while P s) = true.
Proof.
  induction s as [|x s IH]; [reflexivity|].
  cbn. destruct (P x) eqn:E; [|reflexivity]. cbn. rewrite E, IH. reflexivity.
Qed.

Lemma length_drop_while (P : char -> bool) (s : str) :
  length (drop_while P s) <= length s.
Proof.
  induction s as [|x s IH]; [reflexivity|].
  cbn [drop_while]. destruct (P x); cbn [length]; lia.
Qed.

(** The text consumed up to the end of a run is the run. *)
Lemma firstn_run (P : char -> bool) (s : str) :
  firstn (length s - length (drop_while P s)) s = take_while P s.
Proof.
  rewrite <- (take_drop_while P s) at 1 3.
  rewrite length_app.
  replace (length (take_while P s) + length (drop_while P s) - length (drop_while P s))
    with (length (take_while P s) + 0) by lia.
  rewrite firstn_app_2. cbn. apply app_nil_r.
Qed.

Lemma blank_is_space (x : char) : in_cset blank x = true -> is_space x = true.
Proof.
  cbn. unfold char_in. cbn. rewrite orb_false_r. intro H.
  apply orb_true_iff in H. destruct H as [H|H]; apply N.eqb_eq in H; subst x;
    reflexivity.
Qed.

Lemma blank_not_line_terminator (x : char) :
  in_cset blank x = true -> is_line_terminator x = false.
Proof.
  cbn. unfold char_in. cbn. rewrite orb_false_r. intro H.
  apply orb_true_iff in H. destruct H as [H|H]; apply N.eqb_eq in H; subst x;
    reflexivity.
Qed.

Lemma blank_not_nonspace (x : char) :
  in_cset blank x = true -> in_cset CNonSpace x = false.
Proof. intro H. cbn [in_cset]. rewrite (blank_is_space _ H). reflexivity. Qed.

Lemma nonspace_not_blank (x : char) :
  in_cset CNonSpace x = true -> in_cset blank x = false.
Proof.
  intro H. destruct (in_cset blank x) eqn:E; [|reflexivity].
  rewrite (blank_not_nonspace _ E) in H. discriminate H.
Qed.

Lemma line_terminator_is_space (x : char) :
  is_line_terminator x = true -> is_space x = true.
Proof. intro H. unfold is_space. rewrite H. apply orb_true_r. Qed.

(** ** The rule pattern at one position *)

Lemma scan_run_cons (cs : cset) (x : char) (s : str) :
  scan_run cs (x :: s)
  = if in_cset cs x
    then Some (x :: take_while (in_cset cs) s, drop_while (in_cset cs) s)
    else None.
Proof. unfold scan_run. cbn. destruct (in_cset cs x); reflexivity. Qed.

Lemma scan_run_split (cs : cset) (s tok rest : str) :
  scan_run cs s = Some (tok, rest) ->
  s = tok ++ rest /\ tok <> [] /\ all_in cs tok = true
  /\ tok = take_while (in_cset cs) s /\ rest = drop_while (in_cset cs) s.
Proof.
  unfold scan_run. intro H.
  destruct (take_while (in_cset cs) s) as [|y m] eqn:E; [discriminate H|].
  injection H as <- <-.
  repeat split.
  - rewrite <- E. symmetry. apply take_drop_while.
  - discriminate.
  - unfold all_in. rewrite <- E. apply take_while_all.
Qed.

Lemma scan_run_shorter (cs : cset) (s tok rest : str) :
  scan_run cs s = Some (tok, rest) -> length rest < length s.
Proof.
  intro H. destruct (scan_run_split _ _ _ _ H) as [-> [Hne _]].
  rewrite length_app. destruct tok; [congruence|]. cbn [length]. lia.
Qed.

Lemma scan_run_consumed (cs : cset) (s tok rest : str) :
  scan_run cs s = Some (tok, rest) -> firstn (length s - length rest) s = tok.
Proof.
  intro H. destruct (scan_run_split _ _ _ _ H) as [_ [_ [_ [Ht Hr]]]].
  rewrite Hr, firstn_run. symmetry. exact Ht.
Qed.

Section Runs.
Variable A : Type.
Variable ml : bool.
Variable cs : cset.
Variable k : cont A.

Lemma plus_none prev s c :
  scan_run cs s = None -> rmatch ml (RPlus (RSet cs)) prev s c k = None.
Proof.
  rewrite plus_set. destruct s as [|x s]; [reflexivity|].
  rewrite scan_run_cons. destruct (in_cset cs x); [discriminate|reflexivity].
Qed.

Lemma plus_accept prev s c tok rest r :
  scan_run cs s = Some (tok, rest) ->
  k (prev_after tok prev) rest c = Some r ->
  rmatch ml (RPlus (RSet cs)) prev s c k = Some r.
Proof.
  rewrite plus_set. destruct s as [|x s]; [discriminate|].
  rewrite scan_run_cons. destruct (in_cset cs x); [|discriminate].
  intros H Hk. injection H as <- <-. apply greedy_accept. exact Hk.
Qed.

Lemma plus_longest prev s c :
  (forall p x s' c', in_cset cs x = true -> k p (x :: s') c' = None) ->
  rmatch ml (RPlus (RSet cs)) prev s c k
  = match scan_run cs s with
    | Some (tok, rest) => k (prev_after tok prev) rest c
    | None => None
    end.
Proof.
  intro Hk. rewrite plus_set. destruct s as [|x s]; [reflexivity|].
  rewrite scan_run_cons. destruct (in_cset cs x); [|reflexivity].
  apply greedy_longest. exact Hk.
Qed.
End Runs.

Lemma rmatch_seq (A : Type) ml a b prev s c (k : cont A) :
  rmatch ml (RSeq a b) prev s c k
  = rmatch ml a prev s c (fun p s' c' => rmatch ml b p s' c' k).
Proof. reflexivity. Qed.

Lemma rmatch_cap (A : Type) ml i a prev s c (k : cont A) :
  rmatch ml (RCap i a) prev s c k
  = rmatch ml a prev s c
      (fun p s' c' => k p s' (cap_set i (firstn (length s - length s') s) c')).
Proof. reflexivity. Qed.

Section CapturedRun.
Variable A : Type.
Variable ml : bool.
Variable cs : cset.
Variable i : nat.
Variable k : cont A.

Lemma cap_plus_none prev s c :
  scan_run cs s = None -> rmatch ml (RCap i (RPlus (RSet cs))) prev s c k = None.
Proof. intro H. rewrite rmatch_cap. apply plus_none. exact H. Qed.

Lemma cap_plus_accept prev s c tok rest r :
  scan_run cs s = Some (tok, rest) ->
  k (prev_after tok prev) rest (cap_set i tok c) = Some r ->
  rmatch ml (RCap i (RPlus (RSet cs))) prev s c k = Some r.
Proof.
  intros H Hk. rewrite rmatch_cap. apply (plus_accept _ _ _ _ _ _ _ tok rest); [exact H|].
  rewrite (scan_run_consumed _ _ _ _ H). exact Hk.
Qed.

Lemma cap_plus_longest prev s c :
  (forall p x s' c', in_cset cs x = true -> k p (x :: s') c' = None) ->
  rmatch ml (RCap i (RPlus (RSet cs))) prev s c k
  = match scan_run cs s with
    | Some (tok, rest) => k (prev_after tok prev) rest (cap_set i tok c)
    | None => None
    end.
Proof.
  intro Hk. rewrite rmatch_cap, plus_longest.
  - destruct (scan_run cs s) as [[tok rest]|] eqn:H; [|reflexivity].
    rewrite (scan_run_consumed _ _ _ _ H). reflexivity.
  - intros p x s' c' Hx. apply Hk. exact Hx.
Qed.
End CapturedRun.

Lemma rule_re_tails : rule_re = RSeq RBol lead_re.
Proof. reflexivity. Qed.

Lemma scan_run_blank_head (x : char) (s : str) :
  in_cset CNonSpace x = true -> scan_run blank (x :: s) = None.
Proof. intro H. rewrite scan_run_cons, (nonspace_not_blank _ H). reflexivity. Qed.

Lemma scan_run_nonspace_head (x : char) (s : str) :
  in_cset blank x = true -> scan_run CNonSpace (x :: s) = None.
Proof. intro H. rewrite scan_run_cons, (blank_not_nonspace _ H). reflexivity. Qed.

Lemma match_status prev s c :
  rmatch true status_re prev s c accept = Some (scan_status prev s c).
Proof.
  unfold status_re, scan_status.
  change (rmatch true (ROpt ?g) prev s c accept)
    with (match rmatch true g prev s c
                  (fun p s' c' => if length s' <? length s then accept p s' c' else None)
          with Some x => Some x | None => accept prev s c end).
  change (rmatch true (RGroup ?a) prev s c ?k) with (rmatch true a prev s c k).
  rewrite rmatch_seq, plus_longest.
  2:{ intros p x s' c' Hx. apply cap_plus_none. apply scan_run_nonspace_head. exact Hx. }
  destruct (scan_run blank s) as [[ws s5]|] eqn:Hws; [|reflexivity].
  destruct (scan_run CNonSpace s5) as [[st s6]|] eqn:Hst.
  - rewrite (cap_plus_accept _ _ _ _ _ _ _ _ st s6
               (cap_set 3 st c, prev_after st (prev_after ws prev), s6));
      [reflexivity|exact Hst|].
    pose proof (scan_run_shorter _ _ _ _ Hws).
    pose proof (scan_run_shorter _ _ _ _ Hst).
    replace (length s6 <? length s) with true
      by (symmetry; apply Nat.ltb_lt; lia).
    reflexivity.
  - rewrite cap_plus_none by exact Hst. reflexivity.
Qed.

Lemma match_to prev s c : rmatch true to_re prev s c accept = scan_to prev s c.
Proof.
  unfold to_re, scan_to. rewrite rmatch_seq.
  destruct (scan_run CNonSpace s) as [[to s4]|] eqn:H.
  - apply (cap_plus_accept _ _ _ _ _ _ _ _ to s4); [exact H|]. apply match_status.
  - apply cap_plus_none. exact H.
Qed.

Lemma match_gap prev s c : rmatch true gap_re prev s c accept = scan_gap prev s c.
Proof.
  unfold gap_re, scan_gap. rewrite rmatch_seq, plus_longest.
  - destruct (scan_run blank s) as [[ws s3]|]; [apply match_to|reflexivity].
  - intros p x s' c' Hx. rewrite match_to. unfold scan_to.
    rewrite (scan_run_nonspace_head _ _ Hx). reflexivity.
Qed.

Lemma match_from prev s c : rmatch true from_re prev s c accept = scan_from prev s c.
Proof.
  unfold from_re, scan_from. rewrite rmatch_seq, cap_plus_longest.
  - destruct (scan_run CNonSpace s) as [[from s2]|]; [apply match_gap|reflexivity].
  - intros p x s' c' Hx. rewrite match_gap. unfold scan_gap.
    rewrite (scan_run_blank_head _ _ Hx). reflexivity.
Qed.

Lemma match_lead prev s c :
  rmatch true lead_re prev s c accept
  = scan_from (prev_after (take_while (in_cset blank) s) prev)
      (drop_while (in_cset blank) s) c.
Proof.
  unfold lead_re. rewrite rmatch_seq, star_set, greedy_longest.
  - apply match_from.
  - intros p x s' c' Hx. rewrite match_from. unfold scan_from.
    rewrite (scan_run_nonspace_head _ _ Hx). reflexivity.
Qed.

Lemma match_rule prev s :
  match_at true rule_re prev s
  = if at_line_start prev
    then scan_from (prev_after (take_while (in_cset blank) s) prev)
           (drop_while (in_cset blank) s) []
    else None.
Proof.
  unfold match_at. fold accept. rewrite rule_re_tails, rmatch_seq.
  destruct prev as [p|]; cbn [rmatch at_line_start andb].
  - destruct (is_line_terminator p); [apply match_lead|reflexivity].
  - apply match_lead.
Qed.

(** ** A match of the rule pattern is a scanned rule *)

Lemma prev_after_snoc (m : str) (x : char) prev : prev_after (m ++ [x]) prev = Some x.
Proof. unfold prev_after. rewrite fold_left_app. reflexivity. Qed.

Lemma prev_after_run (cs : cset) (tok : str) prev :
  tok <> [] -> all_in cs tok = true ->
  exists p, prev_after tok prev = Some p /\ in_cset cs p = true.
Proof.
  intros Hne Hall. induction tok as [|x m _] using rev_ind; [congruence|].
  exists x. split; [apply prev_after_snoc|].
  unfold all_in in Hall. rewrite forallb_app in Hall.
  apply andb_true_iff in Hall. destruct Hall as [_ Hx]. cbn in Hx.
  rewrite andb_true_r in Hx. exact Hx.
Qed.

Lemma scan_run_prev (cs : cset) (s tok rest : str) prev :
  scan_run cs s = Some (tok, rest) ->
  exists p, prev_after tok prev = Some p /\ in_cset cs p = true.
Proof.
  intro H. destruct (scan_run_split _ _ _ _ H) as [_ [Hne [Hall _]]].
  apply prev_after_run; assumption.
Qed.

(** A successful match of the rule pattern at the start of a line: its
    captures are the scanned rule, and it ends after a code unit that is not
    whitespace. *)
Lemma match_rule_some prev s r rest :
  at_line_start prev = true ->
  scan_rule s = Some (r, rest) ->
  exists p, match_at true rule_re prev s = Some (rule_caps r, Some p, rest)
            /\ is_space p = false.
Proof.
  intros Hb H. rewrite match_rule, Hb. unfold scan_rule in H.
  unfold scan_from, scan_gap, scan_to, scan_status.
  destruct (scan_run CNonSpace (drop_while (in_cset blank) s)) as [[from s2]|];
    [|discriminate H].
  destruct (scan_run blank s2) as [[ws s3]|]; [|discriminate H].
  destruct (scan_run CNonSpace s3) as [[to s4]|] eqn:Hto; [|discriminate H].
  destruct (scan_run_prev _ _ _ _
              (prev_after ws (prev_after from
                 (prev_after (take_while (in_cset blank) s) prev))) Hto)
    as [pt [Ept Hpt]].
  destruct (scan_run blank s4) as [[ws' s5]|].
  - destruct (scan_run CNonSpace s5) as [[st s6]|] eqn:Hst.
    + injection H as <- <-.
      destruct (scan_run_prev _ _ _ _
                  (prev_after ws' (prev_after to (prev_after ws (prev_after from
                     (prev_after (take_while (in_cset blank) s) prev))))) Hst)
        as [ps [Eps Hps]].
      exists ps. rewrite Eps. split; [reflexivity|].
      cbn in Hps. apply negb_true_iff in Hps. exact Hps.
    + injection H as <- <-. exists pt. rewrite Ept. split; [reflexivity|].
      cbn in Hpt. apply negb_true_iff in Hpt. exact Hpt.
  - injection H as <- <-. exists pt. rewrite Ept. split; [reflexivity|].
    cbn in Hpt. apply negb_true_iff in Hpt. exact Hpt.
Qed.

Lemma match_rule_none prev s :
  scan_rule s = None -> match_at true rule_re prev s = None.
Proof.
  intro H. rewrite match_rule. destruct (at_line_start prev); [|reflexivity].
  unfold scan_rule in H. unfold scan_from, scan_gap, scan_to.
  destruct (scan_run CNonSpace (drop_while (in_cset blank) s)) as [[from s2]|];
    [|reflexivity].
  destruct (scan_run blank s2) as [[ws s3]|]; [|reflexivity].
  destruct (scan_run CNonSpace s3) as [[to s4]|]; [|reflexivity].
  destruct (scan_run blank s4) as [[ws' s5]|]; [|discriminate H].
  destruct (scan_run CNonSpace s5) as [[st s6]|]; discriminate H.
Qed.

Lemma match_rule_inside prev s :
  at_line_start prev = false -> match_at true rule_re prev s = None.
Proof. intro H. rewrite match_rule, H. reflexivity. Qed.

Lemma push_entry_rule (entries : list str) (r : rule) (m b a : str) :
  push_entry entries {| m_text := m; m_before := b; m_after := a; m_caps := rule_caps r |}
  = (entries ++ [rule_entry r], js "undefined").
Proof.
  unfold push_entry, rule_caps, rule_entry. cbn [m_caps].
  destruct (r_status r); reflexivity.
Qed.

(** ** A match stays within its line *)

Lemma consumes_trans (a b c : str) : consumes a b -> consumes b c -> consumes a c.
Proof.
  intros [m [-> Hm]] [n [-> Hn]]. exists (m ++ n). split.
  - apply app_assoc.
  - unfold no_line_terminator in *. rewrite forallb_app, Hm, Hn. reflexivity.
Qed.

Lemma class_no_line_terminator (cs : cset) (m : str) :
  cs = blank \/ cs = CNonSpace ->
  all_in cs m = true -> no_line_terminator m = true.
Proof.
  intros Hcs H. unfold all_in, no_line_terminator in *.
  rewrite forallb_forall in *. intros x Hx. specialize (H x Hx).
  apply negb_true_iff. destruct (is_line_terminator x) eqn:E; [|reflexivity].
  pose proof (line_terminator_is_space _ E) as Hs.
  destruct Hcs as [-> | ->].
  - rewrite (blank_not_line_terminator _ H) in E. discriminate E.
  - cbn in H. rewrite Hs in H. discriminate H.
Qed.

Lemma consumes_run (cs : cset) (s tok rest : str) :
  cs = blank \/ cs = CNonSpace ->
  scan_run cs s = Some (tok, rest) -> consumes s rest.
Proof.
  intros Hcs H. destruct (scan_run_split _ _ _ _ H) as [-> [_ [Hall _]]].
  exists tok. split; [reflexivity|]. exact (class_no_line_terminator _ _ Hcs Hall).
Qed.

Lemma consumes_lead (s : str) : consumes s (drop_while (in_cset blank) s).
Proof.
  exists (take_while (in_cset blank) s). split.
  - symmetry. apply take_drop_while.
  - apply (class_no_line_terminator blank); [left; reflexivity|].
    apply take_while_all.
Qed.

Lemma scan_rule_consumes (s : str) (r : rule) (rest : str) :
  scan_rule s = Some (r, rest) -> consumes s rest /\ length rest < length s.
Proof.
  unfold scan_rule. intro H.
  pose proof (consumes_lead s) as C0.
  pose proof (length_drop_while (in_cset blank) s) as L0.
  destruct (scan_run CNonSpace (drop_while (in_cset blank) s)) as [[from s2]|] eqn:H1;
    [|discriminate H].
  pose proof (consumes_run _ _ _ _ (or_intror eq_refl) H1) as C1.
  pose proof (scan_run_shorter _ _ _ _ H1) as L1.
  destruct (scan_run blank s2) as [[ws s3]|] eqn:H2; [|discriminate H].
  pose proof (consumes_run _ _ _ _ (or_introl eq_refl) H2) as C2.
  pose proof (scan_run_shorter _ _ _ _ H2) as L2.
  destruct (scan_run CNonSpace s3) as [[to s4]|] eqn:H3; [|discriminate H].
  pose proof (consumes_run _ _ _ _ (or_intror eq_refl) H3) as C3.
  pose proof (scan_run_shorter _ _ _ _ H3) as L3.
  assert (C : consumes s s4)
    by (eapply consumes_trans; [|exact C3]; eapply consumes_trans; [|exact C2];
        eapply consumes_trans; [exact C0|exact C1]).
  destruct (scan_run blank s4) as [[ws' s5]|] eqn:H4.
  - pose proof (consumes_run _ _ _ _ (or_introl eq_refl) H4) as C4.
    pose proof (scan_run_shorter _ _ _ _ H4) as L4.
    destruct (scan_run CNonSpace s5) as [[st s6]|] eqn:H5.
    + pose proof (consumes_run _ _ _ _ (or_intror eq_refl) H5) as C5.
      pose proof (scan_run_shorter _ _ _ _ H5) as L5.
      injection H as <- <-. split; [|lia].
      eapply consumes_trans; [|exact C5]. eapply consumes_trans; [exact C|exact C4].
    + injection H as <- <-. split; [exact C|lia].
  - injection H as <- <-. split; [exact C|lia].
Qed.

(** ** The search through the table *)

Lemma entries_from_skip (m : str) : forall rest,
  no_line_terminator m = true ->
  entries_from false (m ++ rest) = entries_from false rest.
Proof.
  induction m as [|x m IH]; intros rest H; [reflexivity|].
  cbn [no_line_terminator forallb] in H. apply andb_true_iff in H.
  destruct H as [Hx Hm]. apply negb_true_iff in Hx.
  cbn [app entries_from]. rewrite Hx. apply IH. exact Hm.
Qed.

Lemma entries_from_match (s : str) (r : rule) (rest : str) :
  scan_rule s = Some (r, rest) ->
  entries_from true s = rule_entry r :: entries_from false rest.
Proof.
  intro H. destruct (scan_rule_consumes _ _ _ H) as [[m [E Hm]] Hl].
  destruct m as [|x m].
  { subst s. cbn [app] in Hl. lia. }
  cbn [no_line_terminator forallb] in Hm. apply andb_true_iff in Hm.
  destruct Hm as [Hx Hm]. apply negb_true_iff in Hx.
  cbn [app] in E. rewrite E at 1. cbn [entries_from]. rewrite <- E.
  unfold compile_line at 1.
  rewrite H, Hx. cbn [app]. f_equal. apply entries_from_skip. exact Hm.
Qed.

Lemma firstn_consumed_app (m rest : str) :
  firstn (length (m ++ rest) - length rest) (m ++ rest) = m.
Proof.
  rewrite length_app.
  replace (length m + length rest - length rest) with (length m + 0) by lia.
  rewrite firstn_app_2. cbn. apply app_nil_r.
Qed.

Lemma compile_loop (fuel : nat) : forall prev before s st,
  length s < fuel ->
  fst (replace_loop true true rule_re push_entry fuel prev before s st)
  = st ++ entries_from (at_line_start prev) s.
Proof.
  induction fuel as [|fuel IH]; intros prev before s st Hf; [lia|].
  cbn [replace_loop].
  destruct (at_line_start prev) eqn:Hb.
  - destruct (scan_rule s) as [[r rest]|] eqn:Hs.
    + destruct (match_rule_some prev s r rest Hb Hs) as [p [-> Hp]].
      destruct (scan_rule_consumes _ _ _ Hs) as [[m [E Hm]] Hl].
      rewrite (entries_from_match _ _ _ Hs).
      assert (Ef : firstn (length s - length rest) s = m)
        by (rewrite E; apply firstn_consumed_app).
      rewrite Ef, push_entry_rule.
      destruct m as [|x m]; [subst s; cbn [app] in Hl; lia|].
      specialize (IH (Some p) (before ++ x :: m) rest (st ++ [rule_entry r])).
      destruct (replace_loop true true rule_re push_entry fuel (Some p)
                  (before ++ x :: m) rest (st ++ [rule_entry r])) as [st2 out].
      cbn [fst] in *. rewrite IH by lia. cbn [at_line_start].
      assert (Hlt : is_line_terminator p = false).
      { destruct (is_line_terminator p) eqn:El; [|reflexivity].
        rewrite (line_terminator_is_space _ El) in Hp. discriminate Hp. }
      rewrite Hlt, <- app_assoc. reflexivity.
    + rewrite (match_rule_none prev s Hs).
      destruct s as [|x t]; [cbn; symmetry; apply app_nil_r|].
      specialize (IH (Some x) (before ++ [x]) t st).
      destruct (replace_loop true true rule_re push_entry fuel (Some x)
                  (before ++ [x]) t st) as [st1 out].
      cbn [fst] in *. rewrite IH by (cbn [length] in Hf; lia).
      cbn [entries_from at_line_start]. unfold compile_line. rewrite Hs. reflexivity.
  - rewrite (match_rule_inside prev s Hb).
    destruct s as [|x t]; [cbn; symmetry; apply app_nil_r|].
    specialize (IH (Some x) (before ++ [x]) t st).
    destruct (replace_loop true true rule_re push_entry fuel (Some x)
                (before ++ [x]) t st) as [st1 out].
    cbn [fst] in *. rewrite IH by (cbn [length] in Hf; lia). reflexivity.
Qed.

Lemma compile_entries_from (table : str) : compile table = entries_from true table.
Proof.
  unfold compile, replace_with. rewrite compile_loop by lia. reflexivity.
Qed.

(** ** The table is compiled line by line *)

Section Stop.
Variable P : char -> bool.
Hypothesis P_stops : forall x, is_line_terminator x = true -> P x = false.

Lemma line_break_take (rest : str) : line_break rest = true -> take_while P rest = [].
Proof.
  destruct rest as [|x t]; [reflexivity|]. cbn. intro H.
  rewrite (P_stops _ H). reflexivity.
Qed.

Lemma line_break_drop (rest : str) : line_break rest = true -> drop_while P rest = rest.
Proof.
  destruct rest as [|x t]; [reflexivity|]. cbn. intro H.
  rewrite (P_stops _ H). reflexivity.
Qed.

Lemma take_while_stop (l rest : str) :
  line_break rest = true -> take_while P (l ++ rest) = take_while P l.
Proof.
  intro H. induction l as [|x l IH]; cbn.
  - apply line_break_take. exact H.
  - destruct (P x); [rewrite IH|]; reflexivity.
Qed.

Lemma drop_while_stop (l rest : str) :
  line_break rest = true -> drop_while P (l ++ rest) = drop_while P l ++ rest.
Proof.
  intro H. induction l as [|x l IH]; cbn.
  - apply line_break_drop. exact H.
  - destruct (P x); [exact IH|reflexivity].
Qed.
End Stop.

Lemma blank_stops (x : char) : is_line_terminator x = true -> in_cset blank x = false.
Proof.
  intro H. destruct (in_cset blank x) eqn:E; [|reflexivity].
  rewrite (blank_not_line_terminator _ E) in H. discriminate H.
Qed.

Lemma nonspace_stops (x : char) :
  is_line_terminator x = true -> in_cset CNonSpace x = false.
Proof. intro H. cbn. rewrite (line_terminator_is_space _ H). reflexivity. Qed.

Lemma scan_run_stop (cs : cset) (l rest : str) :
  (forall x, is_line_terminator x = true -> in_cset cs x = false) ->
  line_break rest = true ->
  scan_run cs (l ++ rest) = with_rest rest (scan_run cs l).
Proof.
  intros Hcs H. unfold scan_run.
  rewrite (take_while_stop _ Hcs _ _ H), (drop_while_stop _ Hcs _ _ H).
  destruct (take_while (in_cset cs) l); reflexivity.
Qed.

Lemma scan_rule_stop (l rest : str) :
  line_break rest = true ->
  scan_rule (l ++ rest) = with_rest rest (scan_rule l).
Proof.
  intro H. unfold scan_rule.
  rewrite (drop_while_stop _ blank_stops _ _ H).
  rewrite (scan_run_stop _ _ _ nonspace_stops H).
  destruct (scan_run CNonSpace (drop_while (in_cset blank) l)) as [[from s2]|];
    [|reflexivity].
  cbn [with_rest]. rewrite (scan_run_stop _ _ _ blank_stops H).
  destruct (scan_run blank s2) as [[ws s3]|]; [|reflexivity].
  cbn [with_rest]. rewrite (scan_run_stop _ _ _ nonspace_stops H).
  destruct (scan_run CNonSpace s3) as [[to s4]|]; [|reflexivity].
  cbn [with_rest]. rewrite (scan_run_stop _ _ _ blank_stops H).
  destruct (scan_run blank s4) as [[ws' s5]|]; [|reflexivity].
  cbn [with_rest]. rewrite (scan_run_stop _ _ _ nonspace_stops H).
  destruct (scan_run CNonSpace s5) as [[st s6]|]; reflexivity.
Qed.

Lemma compile_line_stop (l rest : str) :
  line_break rest = true -> compile_line (l ++ rest) = compile_line l.
Proof.
  intro H. unfold compile_line. rewrite (scan_rule_stop _ _ H).
  destruct (scan_rule l) as [[r r']|]; reflexivity.
Qed.

Lemma split_lines_head (t : str) :
  exists l ls rest, split_lines t = l :: ls /\ t = l ++ rest /\ line_break rest = true.
Proof.
  induction t as [|x t [l [ls [rest [E [Et Hr]]]]]].
  - exists [], [], []. repeat split.
  - cbn [split_lines]. destruct (is_line_terminator x) eqn:Ex.
    + exists [], (split_lines t), (x :: t). repeat split. exact Ex.
    + rewrite E. exists (x :: l), ls, rest. repeat split; [|exact Hr].
      cbn [app]. f_equal. exact Et.
Qed.

Lemma entries_from_lines (s : str) :
  entries_from true s = flat_map compile_line (split_lines s)
  /\ entries_from false s = flat_map compile_line (tl (split_lines s)).
Proof.
  induction s as [|x t [IHt IHf]]; [split; reflexivity|].
  cbn [entries_from split_lines].
  destruct (is_line_terminator x) eqn:Ex.
  - cbn [flat_map tl app]. rewrite IHt.
    assert (Hc : compile_line (x :: t) = []).
    { change (x :: t) with ([] ++ x :: t). rewrite compile_line_stop; [reflexivity|].
      exact Ex. }
    rewrite Hc. split; reflexivity.
  - destruct (split_lines_head t) as [l [ls [rest [E [Et Hr]]]]].
    rewrite IHf, E. cbn [flat_map tl app]. split; [|reflexivity].
    f_equal. rewrite Et at 1.
    change (x :: l ++ rest) with ((x :: l) ++ rest). apply compile_line_stop. exact Hr.
Qed.

(** The entries of a table are the entries of its lines, in order. *)
Lemma compile_by_lines (table : str) :
  compile table = flat_map compile_line (split_lines table).
Proof. rewrite compile_entries_from. apply entries_from_lines. Qed.

Lemma split_lines_app (a : str) (x : char) (b : str) :
  is_line_terminator x = true ->
  split_lines (a ++ x :: b) = split_lines a ++ split_lines b.
Proof.
  intro Hx. induction a as [|y a IH]; cbn [app split_lines].
  - rewrite Hx. reflexivity.
  - rewrite IH. destruct (is_line_terminator y); [reflexivity|].
    destruct (split_lines_head a) as [l [ls [rest [E _]]]]. rewrite E. reflexivity.
Qed.

(** Rules keep the order of the table. *)
Lemma compile_app (a : str) (x : char) (b : str) :
  is_line_terminator x = true ->
  compile (a ++ x :: b) = compile a ++ compile b.
Proof.
  intro Hx. rewrite !compile_by_lines, (split_lines_app _ _ _ Hx).
  apply flat_map_app.
Qed.

Lemma split_lines_single (l : str) :
  no_line_terminator l = true -> split_lines l = [l].
Proof.
  induction l as [|x l IH]; intro H; [reflexivity|].
  cbn [no_line_terminator forallb] in H. apply andb_true_iff in H.
  destruct H as [Hx Hl]. apply negb_true_iff in Hx.
  cbn [split_lines]. rewrite Hx, (IH Hl). reflexivity.
Qed.

Lemma compile_single_line (l : str) :
  no_line_terminator l = true -> compile l = compile_line l.
Proof.
  intro H. rewrite compile_by_lines, (split_lines_single _ H). cbn.
  apply app_nil_r.
Qed.

(** ** The scanned rules are the lines of the grammar *)

Lemma take_while_app_all (P : char -> bool) (a b : str) :
  forallb P a = true -> take_while P (a ++ b) = a ++ take_while P b.
Proof.
  induction a as [|x a IH]; intro H; [reflexivity|].
  cbn [forallb] in H. apply andb_true_iff in H. destruct H as [Hx Ha].
  cbn. rewrite Hx, (IH Ha). reflexivity.
Qed.

Lemma drop_while_app_all (P : char -> bool) (a b : str) :
  forallb P a = true -> drop_while P (a ++ b) = drop_while P b.
Proof.
  induction a as [|x a IH]; intro H; [reflexivity|].
  cbn [forallb] in H. apply andb_true_iff in H. destruct H as [Hx Ha].
  cbn. rewrite Hx. apply IH. exact Ha.
Qed.

Lemma scan_run_prefix (cs : cset) (tok X : str) :
  tok <> [] -> all_in cs tok = true ->
  scan_run cs (tok ++ X)
  = Some (tok ++ take_while (in_cset cs) X, drop_while (in_cset cs) X).
Proof.
  intros Hne Hall. unfold scan_run.
  rewrite (take_while_app_all _ _ _ Hall), (drop_while_app_all _ _ _ Hall).
  destruct tok; [congruence|reflexivity].
Qed.

(** The head of a non-empty run of one class stops a run of the other. *)
Lemma scan_run_exact (cs cs' : cset) (tok next X : str) :
  (forall x, in_cset cs' x = true -> in_cset cs x = false) ->
  tok <> [] -> all_in cs tok = true ->
  next <> [] -> all_in cs' next = true ->
  scan_run cs (tok ++ next ++ X) = Some (tok, next ++ X).
Proof.
  intros Hd Hne Hall Hn Hnall. rewrite (scan_run_prefix _ _ _ Hne Hall).
  destruct next as [|y next]; [congruence|].
  cbn [all_in forallb] in Hnall. apply andb_true_iff in Hnall.
  destruct Hnall as [Hy _]. cbn [app take_while drop_while].
  rewrite (Hd _ Hy), app_nil_r. reflexivity.
Qed.

Lemma grammar_scans (line : str) :
  matches_grammar line -> exists r rest, scan_rule line = Some (r, rest).
Proof.
  intros [lead [from [gap [to [rest [E [Hl [Hf [Hfa [Hg [Hga [Ht Hta]]]]]]]]]]]].
  subst line. unfold scan_rule.
  rewrite (drop_while_app_all _ _ _ Hl).
  assert (Ed : drop_while (in_cset blank) (from ++ gap ++ to ++ rest)
               = from ++ gap ++ to ++ rest).
  { destruct from as [|f from]; [congruence|].
    cbn [all_in forallb] in Hfa. apply andb_true_iff in Hfa. destruct Hfa as [Hx _].
    cbn [app drop_while]. rewrite (nonspace_not_blank _ Hx). reflexivity. }
  rewrite Ed, (scan_run_exact CNonSpace blank from gap _ blank_not_nonspace Hf Hfa Hg Hga).
  rewrite (scan_run_exact blank CNonSpace gap to _ nonspace_not_blank Hg Hga Ht Hta).
  rewrite (scan_run_prefix _ _ _ Ht Hta).
  destruct (scan_run blank (drop_while (in_cset CNonSpace) rest)) as [[ws' s5]|];
    [|eexists; eexists; reflexivity].
  destruct (scan_run CNonSpace s5) as [[st s6]|]; eexists; eexists; reflexivity.
Qed.

(** A scanned rule: the line matches the grammar, and [from] is the first
    run of non-whitespace after the leading tabs and spaces. *)
Lemma scans_grammar (line : str) (r : rule) (rest : str) :
  scan_rule line = Some (r, rest) ->
  matches_grammar line
  /\ r_from r = take_while (in_cset CNonSpace) (drop_while (in_cset blank) line).
Proof.
  unfold scan_rule. intro H.
  destruct (scan_run CNonSpace (drop_while (in_cset blank) line)) as [[from s2]|] eqn:H1;
    [|discriminate H].
  destruct (scan_run blank s2) as [[ws s3]|] eqn:H2; [|discriminate H].
  destruct (scan_run CNonSpace s3) as [[to s4]|] eqn:H3; [|discriminate H].
  destruct (scan_run_split _ _ _ _ H1) as [E1 [N1 [A1 [T1 _]]]].
  destruct (scan_run_split _ _ _ _ H2) as [E2 [N2 [A2 _]]].
  destruct (scan_run_split _ _ _ _ H3) as [E3 [N3 [A3 _]]].
  assert (G : matches_grammar line).
  { exists (take_while (in_cset blank) line), from, ws, to, s4.
    repeat split; try assumption.
    - rewrite <- E3, <- E2, <- E1. symmetry. apply take_drop_while.
    - apply take_while_all. }
  assert (F : forall st s', (r, rest) = ({| r_from := from; r_to := to; r_status := st |}, s') ->
              r_from r = take_while (in_cset CNonSpace) (drop_while (in_cset blank) line)).
  { intros st s' Er. injection Er as -> _. exact T1. }
  split; [exact G|].
  destruct (scan_run blank s4) as [[ws' s5]|].
  - destruct (scan_run CNonSpace s5) as [[st s6]|]; injection H as H;
      eapply F; rewrite <- H; f_equal.
  - injection H as H. eapply F; rewrite <- H; f_equal.
Qed.

Lemma compile_line_grammar (line : str) :
  (exists e, compile_line line = [e]) <-> matches_grammar line.
Proof.
  unfold compile_line. split.
  - intros [e H]. destruct (scan_rule line) as [[r rest]|] eqn:E; [|discriminate H].
    apply (scans_grammar _ _ _ E).
  - intro G. destruct (grammar_scans _ G) as [r [rest ->]]. eexists. reflexivity.
Qed.

Lemma compile_line_no_match (line : str) :
  ~ matches_grammar line -> compile_line line = [].
Proof.
  intro H. unfold compile_line.
  destruct (scan_rule line) as [[r rest]|] eqn:E; [|reflexivity].
  exfalso. apply H. apply (scans_grammar _ _ _ E).
Qed.

(** ** Replacing the placeholder *)

Lemma starts_with_split (pat s : str) :
  starts_with pat s = true -> s = pat ++ skipn (length pat) s.
Proof.
  revert s. induction pat as [|a pat IH]; intros s H; [reflexivity|].
  destruct s as [|b s]; [discriminate H|].
  cbn [starts_with] in H. apply andb_true_iff in H. destruct H as [Hab Hs].
  apply N.eqb_eq in Hab. subst b. cbn [length skipn app]. f_equal. apply IH. exact Hs.
Qed.

Lemma starts_with_app (pat post : str) : starts_with pat (pat ++ post) = true.
Proof.
  induction pat as [|a pat IH]; [reflexivity|].
  cbn. rewrite N.eqb_refl, IH. reflexivity.
Qed.

Lemma replace_str_from_index (pat tpl : str) (s : str) : forall b0,
  replace_str_from pat tpl b0 s
  = match index_of pat s with
    | None => b0 ++ s
    | Some i =>
        let pre := b0 ++ firstn i s in
        let post := skipn (i + length pat) s in
        pre ++ get_substitution pat pre post tpl ++ post
    end.
Proof.
  induction s as [|x s IH]; intros b0.
  - cbn [replace_str_from index_of]. destruct (starts_with pat []) eqn:E.
    + cbn. rewrite app_nil_r. reflexivity.
    + rewrite app_nil_r. reflexivity.
  - cbn [replace_str_from index_of]. destruct (starts_with pat (x :: s)) eqn:E.
    + cbn. rewrite app_nil_r. reflexivity.
    + rewrite IH. destruct (index_of pat s) as [i|]; cbn.
      * rewrite <- !app_assoc. reflexivity.
      * rewrite <- app_assoc. reflexivity.
Qed.

Lemma replace_str_index (pat tpl s : str) :
  replace_str pat tpl s
  = match index_of pat s with
    | None => s
    | Some i =>
        firstn i s
          ++ get_substitution pat (firstn i s) (skipn (i + length pat) s) tpl
          ++ skipn (i + length pat) s
    end.
Proof. unfold replace_str. rewrite replace_str_from_index. reflexivity. Qed.

(** A template without replacement pattern stands for itself. *)
Lemma get_substitution_plain (m b a tpl : str) :
  has_replacement_pattern tpl = false -> get_substitution m b a tpl = tpl.
Proof.
  induction tpl as [|c t IH]; intro H; [reflexivity|].
  cbn [has_replacement_pattern] in H. apply orb_false_iff in H. destruct H as [Hc Ht].
  cbn [get_substitution]. specialize (IH Ht).
  destruct (N.eqb c (ch "$")); [|rewrite IH; reflexivity].
  destruct t as [|d t']; [reflexivity|].
  cbn [andb] in Hc. unfold char_in in Hc. cbn [existsb js map list_ascii_of_string] in Hc.
  repeat (apply orb_false_iff in Hc; destruct Hc as [? Hc]).
  repeat match goal with
         | E : N.eqb d _ = false |- _ => rewrite E; clear E
         end.
  rewrite IH. reflexivity.
Qed.

Lemma index_of_occurrence (pat pre post : str) :
  exists i, index_of pat (pre ++ pat ++ post) = Some i /\ i <= length pre.
Proof.
  induction pre as [|x pre [i [E Hi]]].
  - exists 0. cbn [app]. split; [|lia].
    destruct (pat ++ post) as [|y s] eqn:Es; cbn [index_of];
      rewrite <- Es, starts_with_app; reflexivity.
  - cbn [app index_of]. destruct (starts_with pat (x :: pre ++ pat ++ post)).
    + exists 0. split; [reflexivity|lia].
    + rewrite E. exists (S i). split; [reflexivity|cbn [length]; lia].
Qed.

Lemma index_of_split (pat s : str) (i : nat) :
  index_of pat s = Some i -> s = firstn i s ++ pat ++ skipn (i + length pat) s.
Proof.
  revert i. induction s as [|x s IH]; intros i H.
  - cbn [index_of] in H. destruct (starts_with pat []) eqn:E; [|discriminate H].
    injection H as <-. apply (starts_with_split _ _ E).
  - cbn [index_of] in H. destruct (starts_with pat (x :: s)) eqn:E.
    + injection H as <-. apply (starts_with_split _ _ E).
    + destruct (index_of pat s) as [j|]; [|discriminate H].
      injection H as <-. cbn [firstn Nat.add skipn app]. f_equal. apply IH. reflexivity.
Qed.

(** * The claims *)

(** The compiled [from], unit by unit: a parenthesised dot-star for an
    asterisk, a backslash and the unit for a syntax character or a slash,
    the unit itself otherwise; a final slash becomes the alternation. *)
Lemma compile_from_units (from : str) :
  compile_from from
  = (if ends_with_slash from
     then flat_map pattern_unit (removelast from) ++ trailing_alternation
     else flat_map pattern_unit from).
Proof.
  destruct (ends_with_slash from) eqn:E.
  - induction from as [|c body _] using rev_ind; [discriminate E|].
    rewrite ends_with_slash_snoc in E. unfold is_slash in E.
    apply N.eqb_eq in E. subst c.
    rewrite removelast_snoc. apply compile_from_trailing_slash.
  - apply compile_from_no_trailing_slash. exact E.
Qed.




(** ** Lines that are skipped, lines that are rules *)

Lemma no_scan_no_grammar (line : str) :
  scan_rule line = None -> ~ matches_grammar line.
Proof.
  intros H G. destruct (grammar_scans _ G) as [r [rest E]]. congruence.
Qed.

Lemma line_terminator_LF : is_line_terminator LF = true.
Proof. reflexivity. Qed.

(** A line of the table contributes the entries it would yield alone. *)
Lemma compile_middle_line (a line b : str) :
  no_line_terminator line = true ->
  compile (a ++ LF :: line ++ LF :: b) = compile a ++ compile_line line ++ compile b.
Proof.
  intro H.
  rewrite (compile_app a LF _ line_terminator_LF).
  rewrite (compile_app line LF _ line_terminator_LF).
  rewrite (compile_single_line _ H). reflexivity.
Qed.

Lemma build_sw_task_resolves (fs : files) (redirects sw : str) :
  fs "_site/_redirects"%string = Some redirects ->
  fs "_site/sw.js"%string = Some sw ->
  build_sw_task fs
  = Resolved (write_file "_site/sw.js" (build_sw redirects sw) fs).
Proof. intros H1 H2. unfold build_sw_task. rewrite H1, H2. reflexivity. Qed.

Lemma drop_while_all (P : char -> bool) (s : str) :
  forallb P s = true -> drop_while P s = [].
Proof.
  intro H. rewrite <- (app_nil_r s), (drop_while_app_all _ _ _ H). reflexivity.
Qed.

(** Blank lines do not match the grammar. *)
Lemma blank_line_no_match (line : str) :
  all_in blank line = true -> ~ matches_grammar line.
Proof.
  intro H. apply no_scan_no_grammar. unfold scan_rule.
  rewrite (drop_while_all _ _ H). reflexivity.
Qed.

(** C3, as the code has it.  A line that does not match the rule grammar
    (a blank line, a line with a single token) yields no entry: the table
    compiles as if the line were absent; and whatever the table holds, the
    task resolves: there is no error for a malformed line.  (A comment line
    with two tokens or more does match the grammar.) *)
Theorem unmatched_lines_are_skipped (a line b : str) :
  no_line_terminator line = true ->
  ~ matches_grammar line ->
  compile (a ++ LF :: line ++ LF :: b) = compile (a ++ LF :: b)
  /\ (forall fs sw,
        fs "_site/_redirects"%string = Some (a ++ LF :: line ++ LF :: b) ->
        fs "_site/sw.js"%string = Some sw ->
        exists fs', build_sw_task fs = Resolved fs').
Proof.
  intros Hl Hg. split.
  - rewrite (compile_middle_line _ _ _ Hl), (compile_line_no_match _ Hg).
    rewrite (compile_app a LF _ line_terminator_LF). reflexivity.
  - intros fs sw H1 H2. eexists. apply (build_sw_task_resolves _ _ _ H1 H2).
Qed.

Lemma unmatched_lines_are_skipped_witness :
  no_line_terminator (js "#comment") = true
  /\ ~ matches_grammar (js "#comment")
  /\ compile (js "/a /b" ++ LF :: js "#comment" ++ LF :: js "/c /d")
     = compile (js "/a /b" ++ LF :: js "/c /d").
Proof.
  assert (G : ~ matches_grammar (js "#comment"))
    by (apply no_scan_no_grammar; reflexivity).
  split; [reflexivity|]. split; [exact G|].
  apply (unmatched_lines_are_skipped (js "/a /b") (js "#comment") (js "/c /d")).
  - reflexivity.
  - exact G.
Defined.

(** C3, as stated, fails: the comment line [# comment] has two tokens, so
    it matches the grammar and yields an entry. *)
Lemma comment_line_is_compiled :
  compile (js "# comment") = [js "[/^#/,'comment',undefined]"]
  /\ compile (js "# comment") <> [].
Proof. split; [vm_compute; reflexivity|vm_compute; discriminate]. Qed.

(** C4, as the code has it.  A line yields an entry if and only if it
    matches [^[\t ]*(\S+)[\t ]+(\S+)(?:[\t ]+(\S+))?]; it then yields exactly
    one, within the entries of the table at the place of the line, and its
    [from] is the first run of non-whitespace after the leading tabs and
    spaces: nothing else is skipped, a list marker is taken as [from]. *)
Theorem rule_lines_match_grammar (line : str) :
  no_line_terminator line = true ->
  ((exists e, compile line = [e]) <-> matches_grammar line)
  /\ (compile line = [] <-> ~ matches_grammar line)
  /\ (forall a b,
        compile (a ++ LF :: line ++ LF :: b) = compile a ++ compile line ++ compile b)
  /\ (forall e, compile line = [e] ->
        exists to status,
          e = entry (take_while (in_cset CNonSpace) (drop_while (in_cset blank) line))
                to status).
Proof.
  intro Hl. rewrite (compile_single_line _ Hl).
  split; [apply compile_line_grammar|].
  split; [|split].
  - split.
    + intros E G. apply compile_line_grammar in G. destruct G as [e He]. congruence.
    + apply compile_line_no_match.
  - intros a b. apply compile_middle_line. exact Hl.
  - intros e He. unfold compile_line in He.
    destruct (scan_rule line) as [[r rest]|] eqn:E; [|discriminate He].
    injection He as <-. destruct (scans_grammar _ _ _ E) as [_ Hf].
    exists (r_to r), (r_status r). unfold rule_entry. rewrite Hf. reflexivity.
Qed.

Lemma rule_lines_match_grammar_witness :
  no_line_terminator (js "  /a /b 301") = true
  /\ (forall e, compile (js "  /a /b 301") = [e] ->
        exists to status, e = entry (js "/a") to status).
Proof.
  split; [reflexivity|].
  exact (proj2 (proj2 (proj2 (rule_lines_match_grammar (js "  /a /b 301") eq_refl)))).
Defined.

(** C4, as stated, fails: a leading list marker is not ignored, it is the
    [from] of the rule; the entry is not the one of the rule that follows
    the marker. *)
Lemma list_marker_is_from :
  compile (js "- /a /b") = [entry (js "-") (js "/a") (Some (js "/b"))]
  /\ compile (js "- /a /b") <> [entry (js "/a") (js "/b") None].
Proof. split; [vm_compute; reflexivity|vm_compute; discriminate]. Qed.

(** ** The serialized entries *)

Lemma scan_run_last (cs : cset) (tok : str) :
  tok <> [] -> all_in cs tok = true -> scan_run cs tok = Some (tok, []).
Proof.
  intros Hne Hall. rewrite <- (app_nil_r tok) at 1.
  rewrite (scan_run_prefix _ _ _ Hne Hall). cbn. rewrite app_nil_r. reflexivity.
Qed.

Lemma scan_rule_two_tokens (lead from gap to : str) :
  all_in blank lead = true -> is_token from -> is_gap gap -> is_token to ->
  scan_rule (lead ++ from ++ gap ++ to)
  = Some ({| r_from := from; r_to := to; r_status := None |}, []).
Proof.
  intros Hl [Hf Hfa] [Hg Hga] [Ht Hta]. unfold scan_rule.
  rewrite (drop_while_app_all _ _ _ Hl).
  assert (Ed : drop_while (in_cset blank) (from ++ gap ++ to) = from ++ gap ++ to).
  { destruct from as [|f from]; [congruence|].
    cbn [all_in forallb] in Hfa. apply andb_true_iff in Hfa. destruct Hfa as [Hx _].
    cbn [app drop_while]. rewrite (nonspace_not_blank _ Hx). reflexivity. }
  rewrite Ed.
  rewrite (scan_run_exact CNonSpace blank from gap _ blank_not_nonspace Hf Hfa Hg Hga).
  rewrite (scan_run_prefix _ _ _ Hg Hga).
  assert (Et : drop_while (in_cset blank) to = to).
  { destruct to as [|t to]; [congruence|].
    cbn [all_in forallb] in Hta. apply andb_true_iff in Hta. destruct Hta as [Hx _].
    cbn [drop_while]. rewrite (nonspace_not_blank _ Hx). reflexivity. }
  rewrite Et, (scan_run_last _ _ Ht Hta). reflexivity.
Qed.

Lemma scan_rule_three_tokens (lead from gap to gap' st : str) :
  all_in blank lead = true -> is_token from -> is_gap gap -> is_token to ->
  is_gap gap' -> is_token st ->
  scan_rule (lead ++ from ++ gap ++ to ++ gap' ++ st)
  = Some ({| r_from := from; r_to := to; r_status := Some st |}, []).
Proof.
  intros Hl [Hf Hfa] [Hg Hga] [Ht Hta] [Hg' Hga'] [Hs Hsa]. unfold scan_rule.
  rewrite (drop_while_app_all _ _ _ Hl).
  assert (Ed : drop_while (in_cset blank) (from ++ gap ++ to ++ gap' ++ st)
               = from ++ gap ++ to ++ gap' ++ st).
  { destruct from as [|f from]; [congruence|].
    cbn [all_in forallb] in Hfa. apply andb_true_iff in Hfa. destruct Hfa as [Hx _].
    cbn [app drop_while]. rewrite (nonspace_not_blank _ Hx). reflexivity. }
  rewrite Ed.
  rewrite (scan_run_exact CNonSpace blank from gap _ blank_not_nonspace Hf Hfa Hg Hga).
  rewrite (scan_run_exact blank CNonSpace gap to _ nonspace_not_blank Hg Hga Ht Hta).
  rewrite (scan_run_exact CNonSpace blank to gap' _ blank_not_nonspace Ht Hta Hg' Hga').
  rewrite <- (app_nil_r st).
  rewrite (scan_run_exact blank CNonSpace gap' st _ nonspace_not_blank Hg' Hga' Hs Hsa).
  rewrite app_nil_r, (scan_run_last _ _ Hs Hsa). reflexivity.
Qed.

Lemma no_line_terminator_app (a b : str) :
  no_line_terminator (a ++ b) = no_line_terminator a && no_line_terminator b.
Proof. apply forallb_app. Qed.

Lemma token_no_line_terminator (t : str) : is_token t -> no_line_terminator t = true.
Proof.
  intros [_ H]. apply (class_no_line_terminator CNonSpace); [right; reflexivity|exact H].
Qed.

Lemma gap_no_line_terminator (g : str) : is_gap g -> no_line_terminator g = true.
Proof.
  intros [_ H]. apply (class_no_line_terminator blank); [left; reflexivity|exact H].
Qed.

Lemma entry_status_inj (from to : str) (s1 s2 : option str) :
  entry from to s1 = entry from to s2 -> interpolate s1 = interpolate s2.
Proof.
  unfold entry. intro E. do 5 apply app_inv_head in E.
  apply app_inv_tail in E. exact E.
Qed.

(** C6, as the code has it.  [to] and [status] reach the entry verbatim,
    between the quotes and after the last comma; an absent status is written
    [undefined], which differs from every written status but the token
    [undefined] itself. *)
Theorem to_and_status_verbatim (lead from gap to gap' st : str) :
  all_in blank lead = true -> is_token from -> is_gap gap -> is_token to ->
  is_gap gap' -> is_token st ->
  compile (lead ++ from ++ gap ++ to ++ gap' ++ st)
  = [js "[/" ++ matcher_source from ++ js "/,'" ++ to ++ js "'," ++ st ++ js "]"]
  /\ compile (lead ++ from ++ gap ++ to)
     = [js "[/" ++ matcher_source from ++ js "/,'" ++ to ++ js "',undefined]"]
  /\ (st <> js "undefined" ->
      compile (lead ++ from ++ gap ++ to ++ gap' ++ st)
      <> compile (lead ++ from ++ gap ++ to)).
Proof.
  intros Hl Hf Hg Ht Hg' Hs.
  assert (Ll : no_line_terminator lead = true)
    by (apply (class_no_line_terminator blank); [left; reflexivity|exact Hl]).
  pose proof (token_no_line_terminator _ Hf) as Lf.
  pose proof (gap_no_line_terminator _ Hg) as Lg.
  pose proof (token_no_line_terminator _ Ht) as Lt.
  pose proof (gap_no_line_terminator _ Hg') as Lg'.
  pose proof (token_no_line_terminator _ Hs) as Ls.
  assert (E3 : compile (lead ++ from ++ gap ++ to ++ gap' ++ st)
               = [entry from to (Some st)]).
  { rewrite compile_single_line
      by (rewrite !no_line_terminator_app, Ll, Lf, Lg, Lt, Lg', Ls; reflexivity).
    unfold compile_line.
    rewrite (scan_rule_three_tokens _ _ _ _ _ _ Hl Hf Hg Ht Hg' Hs). reflexivity. }
  assert (E2 : compile (lead ++ from ++ gap ++ to) = [entry from to None]).
  { rewrite compile_single_line
      by (rewrite !no_line_terminator_app, Ll, Lf, Lg, Lt; reflexivity).
    unfold compile_line.
    rewrite (scan_rule_two_tokens _ _ _ _ Hl Hf Hg Ht). reflexivity. }
  rewrite E3, E2.
  split; [reflexivity|]. split; [reflexivity|].
  intros Hne E. apply Hne.
  assert (E' : entry from to (Some st) = entry from to None) by congruence.
  apply (entry_status_inj _ _ _ _ E').
Qed.

Lemma to_and_status_verbatim_witness :
  compile (js "/a /b 0") = [js "[/^\/a/,'/b',0]"]
  /\ compile (js "/a /b") = [js "[/^\/a/,'/b',undefined]"]
  /\ compile (js "/a /b 0") <> compile (js "/a /b").
Proof.
  assert (T : forall t, t <> [] -> all_in CNonSpace t = true -> is_token t)
    by (intros t H1 H2; split; assumption).
  assert (G : is_gap (js " ")) by (split; [discriminate|reflexivity]).
  destruct (to_and_status_verbatim [] (js "/a") (js " ") (js "/b") (js " ") (js "0"))
    as [H1 [H2 H3]];
    try exact G; try reflexivity; try (apply T; [discriminate|reflexivity]).
  split; [exact H1|]. split; [exact H2|].
  apply H3. discriminate.
Defined.

(** C6, as stated, fails: a status written [undefined] is emitted like an
    absent status. *)
Lemma absent_status_is_undefined :
  compile (js "/a /b undefined") = compile (js "/a /b")
  /\ compile (js "/a /b") = [js "[/^\/a/,'/b',undefined]"].
Proof. split; vm_compute; reflexivity. Qed.

(** ** The matcher of a rule *)

Lemma token_end_take (tail : str) :
  token_end tail = true -> take_while (in_cset CNonSpace) tail = [].
Proof. destruct tail as [|w t]; [reflexivity|]. cbn. now intros ->. Qed.

Lemma token_end_drop (tail : str) :
  token_end tail = true -> drop_while (in_cset CNonSpace) tail = tail.
Proof. destruct tail as [|w t]; [reflexivity|]. cbn. now intros ->. Qed.

(** The entry that the compiler pushes for a rule line: leading tabs or
    spaces, [from], tabs or spaces, [to], and whatever follows [to] on the
    line.  The matcher of the entry is the compiled [from]. *)
Lemma rule_line_entry (lead from gap to tail : str) :
  all_in blank lead = true -> is_token from -> is_gap gap -> is_token to ->
  token_end tail = true -> no_line_terminator tail = true ->
  exists status,
    compile (lead ++ from ++ gap ++ to ++ tail)
    = [js "[/" ++ matcher_source from ++ js "/,'" ++ to ++ js "'," ++ status ++ js "]"].
Proof.
  intros Hl Hf Hg Ht He Ht'.
  assert (Ll : no_line_terminator lead = true)
    by (apply (class_no_line_terminator blank); [left; reflexivity|exact Hl]).
  pose proof (token_no_line_terminator _ Hf) as Lf.
  pose proof (gap_no_line_terminator _ Hg) as Lg.
  pose proof (token_no_line_terminator _ Ht) as Lt.
  rewrite compile_single_line
    by (rewrite !no_line_terminator_app, Ll, Lf, Lg, Lt, Ht'; reflexivity).
  destruct Hf as [Hf Hfa], Hg as [Hg Hga], Ht as [Ht Hta].
  unfold compile_line, scan_rule.
  rewrite (drop_while_app_all _ _ _ Hl).
  assert (Ed : drop_while (in_cset blank) (from ++ gap ++ to ++ tail)
               = from ++ gap ++ to ++ tail).
  { destruct from as [|f from]; [congruence|].
    cbn [all_in forallb] in Hfa. apply andb_true_iff in Hfa. destruct Hfa as [Hx _].
    cbn [app drop_while]. rewrite (nonspace_not_blank _ Hx). reflexivity. }
  rewrite Ed.
  rewrite (scan_run_exact CNonSpace blank from gap _ blank_not_nonspace Hf Hfa Hg Hga).
  rewrite (scan_run_exact blank CNonSpace gap to _ nonspace_not_blank Hg Hga Ht Hta).
  rewrite (scan_run_prefix _ _ _ Ht Hta), (token_end_take _ He), (token_end_drop _ He).
  rewrite app_nil_r.
  destruct (scan_run blank tail) as [[ws s5]|].
  - destruct (scan_run CNonSpace s5) as [[st s6]|].
    + exists st. reflexivity.
    + exists (js "undefined"). reflexivity.
  - exists (js "undefined"). reflexivity.
Qed.

(** C1, as the code has it.  For every rule line, the matcher of the entry
    that the compiler pushes is the compiled [from]: the start anchor, then,
    unit by unit, a parenthesised dot-star for an asterisk, a backslash and
    the unit for a syntax character or a slash, and the unit itself
    otherwise (a final slash apart, which becomes the alternation).  Read
    as a pattern, it is the start anchor followed by one term per unit: the
    unit as a literal, or, for each asterisk, a capturing group around a
    greedy repetition of the dot, which stands for any code unit other than
    a line terminator.  The capturing groups are numbered 1 to n from left
    to right, where n is the number of asterisks; none when there is no
    asterisk. *)
Theorem wildcards_become_capture_groups (lead from gap to tail : str) :
  all_in blank lead = true -> is_token from -> is_gap gap -> is_token to ->
  token_end tail = true -> no_line_terminator tail = true ->
  (exists status,
     compile (lead ++ from ++ gap ++ to ++ tail)
     = [js "[/" ++ matcher_source from ++ js "/,'" ++ to ++ js "'," ++ status
          ++ js "]"])
  /\ matcher_source from
     = ch "^" :: (if ends_with_slash from
                  then flat_map pattern_unit (removelast from) ++ trailing_alternation
                  else flat_map pattern_unit from)
  /\ parse_pattern (matcher_source from) = Some (pattern_of from)
  /\ capture_groups (pattern_of from) = seq 1 (count_wildcards from)
  /\ (forall c, in_cset CDot c = negb (is_line_terminator c)).
Proof.
  intros Hl Hf Hg Ht He Ht'.
  split; [apply (rule_line_entry _ _ _ _ _ Hl Hf Hg Ht He Ht')|].
  split; [unfold matcher_source; rewrite compile_from_units; reflexivity|].
  split; [apply parse_matcher_source|].
  split; [apply capture_groups_pattern_of|].
  reflexivity.
Qed.

Lemma wildcards_become_capture_groups_witness :
  compile (js "  /docs/*/x.*" ++ [TAB] ++ js "/new/:splat 301 !")
  = [js "[/^\/docs\/(.*)\/x\.(.*)/,'/new/:splat',301]"]
  /\ parse_pattern (js "^\/docs\/(.*)\/x\.(.*)") = Some (pattern_of (js "/docs/*/x.*"))
  /\ capture_groups (pattern_of (js "/docs/*/x.*")) = [1; 2].
Proof.
  assert (T : forall t, t <> [] -> all_in CNonSpace t = true -> is_token t)
    by (intros t H1 H2; split; assumption).
  assert (G : is_gap [TAB]) by (split; [discriminate|reflexivity]).
  destruct (wildcards_become_capture_groups (js "  ") (js "/docs/*/x.*") [TAB]
              (js "/new/:splat") (js " 301 !"))
    as [[status H1] [H2 [H3 [H4 _]]]];
    try exact G; try reflexivity; try (apply T; [discriminate|reflexivity]).
  split; [|split].
  - reflexivity.
  - rewrite <- H3. reflexivity.
  - rewrite H4. reflexivity.
Defined.

(** C1, as stated, fails: the group that stands for an asterisk does not
    match any character.  It stops at a line terminator, so the matcher of
    [/a*b] does not match the path made of [/a], a newline and [b]. *)
Lemma wildcard_stops_at_line_terminator :
  compile (js "/a*b /t") = [js "[/^\/a(.*)b/,'/t',undefined]"]
  /\ matcher_matches (js "/a*b") (js "/a-b") = true
  /\ matcher_matches (js "/a*b") (js "/a" ++ [LF] ++ js "b") = false.
Proof. repeat split; vm_compute; reflexivity. Qed.



(** ** The placeholder of the script *)

Lemma build_sw_index (redirects sw : str) :
  build_sw redirects sw
  = match index_of placeholder sw with
    | None => sw
    | Some i =>
        let pre := firstn i sw in
        let post := skipn (i + length placeholder) sw in
        pre ++ get_substitution placeholder pre post (join (js ",") (compile redirects))
            ++ post
    end.
Proof. unfold build_sw. apply replace_str_index. Qed.

(** The serialized output is the comma-separated list of the entries of
    the lines of the table, in the order of the lines; when the script
    holds the placeholder and the serialized output holds no replacement
    pattern, the output replaces the first occurrence of the placeholder
    and nothing else changes; a script without the placeholder is left as
    it is. *)
Lemma entries_replace_placeholder (redirects sw : str) :
  compile redirects = flat_map compile_line (split_lines redirects)
  /\ (forall a b, redirects = a ++ LF :: b -> compile redirects = compile a ++ compile b)
  /\ (index_of placeholder sw = None -> build_sw redirects sw = sw)
  /\ (forall i,
        index_of placeholder sw = Some i ->
        has_replacement_pattern (join (js ",") (compile redirects)) = false ->
        sw = firstn i sw ++ placeholder ++ skipn (i + length placeholder) sw
        /\ build_sw redirects sw
           = firstn i sw ++ join (js ",") (compile redirects)
               ++ skipn (i + length placeholder) sw).
Proof.
  split; [apply compile_by_lines|].
  split; [intros a b ->; apply (compile_app a LF b line_terminator_LF)|].
  split.
  - intro H. rewrite build_sw_index, H. reflexivity.
  - intros i Hi Hd. split; [apply (index_of_split _ _ _ Hi)|].
    rewrite build_sw_index, Hi. cbv zeta.
    rewrite (get_substitution_plain _ _ _ _ Hd). reflexivity.
Qed.

Lemma entries_replace_placeholder_witness :
  index_of placeholder (js "a(/*insert_redirect*/)b(/*insert_redirect*/)") = Some 2
  /\ has_replacement_pattern
       (join (js ",") (compile (js "/x /y$1 301" ++ LF :: js "/z/ /w"))) = false
  /\ build_sw (js "/x /y$1 301" ++ LF :: js "/z/ /w")
       (js "a(/*insert_redirect*/)b(/*insert_redirect*/)")
     = js "a(" ++ join (js ",") (compile (js "/x /y$1 301" ++ LF :: js "/z/ /w"))
         ++ js ")b(/*insert_redirect*/)".
Proof.
  split; [reflexivity|]. split; [vm_compute; reflexivity|].
  destruct (entries_replace_placeholder (js "/x /y$1 301" ++ LF :: js "/z/ /w")
              (js "a(/*insert_redirect*/)b(/*insert_redirect*/)"))
    as [_ [_ [_ H]]].
  destruct (H 2 eq_refl) as [_ H2]; [vm_compute; reflexivity|].
  rewrite H2. reflexivity.
Defined.

(** C5, at an input where the code departs from it: the triples are
    serialized in the order of the rules, but what replaces the placeholder
    is not their concatenation.  The script's [replace] reads the
    concatenation as a template; the dollar sign that ends [to] and the
    quote that closes it make the pattern for the text after the match, so
    the rest of the script is pasted into the first triple. *)
Theorem serialized_entries_are_expanded :
  compile (js "/a /b$ 301" ++ LF :: js "/c /d")
  = [js "[/^\/a/,'/b$',301]"; js "[/^\/c/,'/d',undefined]"]
  /\ index_of placeholder (js "x/*insert_redirect*/y") = Some 1
  /\ build_sw (js "/a /b$ 301" ++ LF :: js "/c /d") (js "x/*insert_redirect*/y")
     = js "x[/^\/a/,'/by,301],[/^\/c/,'/d',undefined]y"
  /\ build_sw (js "/a /b$ 301" ++ LF :: js "/c /d") (js "x/*insert_redirect*/y")
     <> js "x" ++ join (js ",") (compile (js "/a /b$ 301" ++ LF :: js "/c /d"))
          ++ js "y".
Proof. repeat split; vm_compute; (reflexivity || discriminate). Qed.

(** C10, at an input where the code departs from it: the entries hold the
    replacement pattern [$$], and what replaces the first placeholder is
    not the entries but their expansion, with a single dollar sign. *)
Theorem placeholder_replacement_expands_patterns :
  join (js ",") (compile (js "/a /b$$ 301")) = js "[/^\/a/,'/b$$',301]"
  /\ build_sw (js "/a /b$$ 301") (js "x/*insert_redirect*/y/*insert_redirect*/z")
     = js "x[/^\/a/,'/b$',301]y/*insert_redirect*/z".
Proof. split; vm_compute; reflexivity. Qed.

(** * The build graph *)

Lemma event_eq_dec (x y : event) : {x = y} + {x <> y}.
Proof. decide equality; apply string_dec. Qed.

Lemma interleave_in (a b c : list event) (e : event) :
  interleave a b c -> (In e c <-> In e a \/ In e b).
Proof.
  induction 1 as [|x a b c _ IH|x a b c _ IH]; cbn [In]; tauto.
Qed.

(** ** The events of a run belong to the tasks under it *)

Lemma closed_member (S : list string) (n m : string) (t : task) :
  closed S = true -> In n S -> lookup tasks n = Some t ->
  In m (concat (t_stages t)) -> In m S.
Proof.
  unfold closed. intros HS Hn Ht Hm.
  rewrite forallb_forall in HS. specialize (HS n Hn). rewrite Ht in HS.
  rewrite forallb_forall in HS. specialize (HS m Hm).
  apply existsb_exists in HS. destruct HS as [k [Hk E]].
  apply String.eqb_eq in E. subst k. exact Hk.
Qed.

Lemma events_within (S : list string) :
  closed S = true ->
  (forall n tr ok, runs n tr ok ->
     In n S -> forall e, In e tr -> In (event_name e) S)
  /\ (forall sts tr ok, runs_stages sts tr ok ->
        (forall m, In m (concat sts) -> In m S) ->
        forall e, In e tr -> In (event_name e) S)
  /\ (forall st tr ok, runs_stage st tr ok ->
        (forall m, In m st -> In m S) ->
        forall e, In e tr -> In (event_name e) S).
Proof.
  intro HS. apply runs_mutual.
  - intros name t tr ok Ht _ IH _ Hn e He.
    cbn [In] in He. rewrite in_app_iff in He. cbn [In] in He.
    destruct He as [<- | [He | [<- | []]]].
    + exact Hn.
    + apply IH; [|exact He]. intros m Hm. exact (closed_member _ _ _ _ HS Hn Ht Hm).
    + destruct ok; exact Hn.
  - intros name t tr Ht _ IH Hn e He.
    cbn [In] in He. rewrite in_app_iff in He. cbn [In] in He.
    destruct He as [<- | [He | [<- | []]]].
    + exact Hn.
    + apply IH; [|exact He]. intros m Hm. exact (closed_member _ _ _ _ HS Hn Ht Hm).
    + exact Hn.
  - intros _ e [].
  - intros st rest t1 t2 ok _ IH1 _ IH2 Hm e He.
    rewrite in_app_iff in He. destruct He as [He|He].
    + apply IH1; [|exact He]. intros m Hin. apply Hm. cbn [concat].
      apply in_or_app. left. exact Hin.
    + apply IH2; [|exact He]. intros m Hin. apply Hm. cbn [concat].
      apply in_or_app. right. exact Hin.
  - intros st rest t1 _ IH1 Hm e He.
    apply IH1; [|exact He]. intros m Hin. apply Hm. cbn [concat].
    apply in_or_app. left. exact Hin.
  - intros _ e [].
  - intros n ns t1 t2 t ok1 ok2 _ IH1 _ IH2 Hil Hm e He.
    apply (interleave_in _ _ _ e Hil) in He. destruct He as [He|He].
    + apply IH1; [|exact He]. apply Hm. left. reflexivity.
    + apply IH2; [|exact He]. intros m Hin. apply Hm. right. exact Hin.
Qed.

(** An event of a task outside the set does not occur. *)
Lemma absent_from_stage (S st : list string) (tr : list event) (ok : bool) (e : event) :
  closed S = true ->
  forallb (fun m => existsb (String.eqb m) S) st = true ->
  existsb (String.eqb (event_name e)) S = false ->
  runs_stage st tr ok -> ~ In e tr.
Proof.
  intros HS Hst He H Hin.
  destruct (events_within S HS) as [_ [_ W]].
  assert (Hn : In (event_name e) S).
  { apply (W _ _ _ H); [|exact Hin]. intros m Hm.
    rewrite forallb_forall in Hst. specialize (Hst m Hm).
    apply existsb_exists in Hst. destruct Hst as [k [Hk E]].
    apply String.eqb_eq in E. subst k. exact Hk. }
  assert (Ht : existsb (String.eqb (event_name e)) S = true).
  { apply existsb_exists. exists (event_name e). split; [exact Hn|].
    apply String.eqb_refl. }
  congruence.
Qed.

(** ** A successful stage has finished all its tasks *)

Lemma finished (n : string) (tr : list event) :
  runs n tr true -> In (Finish n) tr.
Proof.
  intro H. inversion H; subst. right. apply in_or_app. right. left. reflexivity.
Qed.

Lemma stage_finished (st : list string) (tr : list event) (ok : bool) :
  runs_stage st tr ok -> ok = true -> forall a, In a st -> In (Finish a) tr.
Proof.
  induction 1 as [|n ns t1 t2 t ok1 ok2 Hn Hns IH Hil]; intros Hok a Ha; [destruct Ha|].
  apply andb_true_iff in Hok. destruct Hok as [-> ->].
  apply (interleave_in _ _ _ (Finish a) Hil).
  destruct Ha as [<-|Ha].
  - left. apply finished. exact Hn.
  - right. apply IH; [reflexivity|exact Ha].
Qed.

Lemma absent_from_run (S : list string) (n : string) (tr : list event) (ok : bool)
    (e : event) :
  closed S = true ->
  existsb (String.eqb n) S = true ->
  existsb (String.eqb (event_name e)) S = false ->
  runs n tr ok -> ~ In e tr.
Proof.
  intros HS Hn He H Hin.
  destruct (events_within S HS) as [W _].
  assert (HnS : In n S).
  { apply existsb_exists in Hn. destruct Hn as [k [Hk E]].
    apply String.eqb_eq in E. subst k. exact Hk. }
  assert (Ht : existsb (String.eqb (event_name e)) S = true).
  { apply existsb_exists. exists (event_name e). split.
    - exact (W _ _ _ H HnS _ Hin).
    - apply String.eqb_refl. }
  congruence.
Qed.

(** ** Order of events *)

Lemma hb_absent (x y : event) (tr : list event) : ~ In y tr -> happens_before x y tr.
Proof.
  intros H l1 l2 E. exfalso. apply H. rewrite E. apply in_or_app. right. left.
  reflexivity.
Qed.

Lemma hb_app (x y : event) (A B : list event) :
  happens_before x y A -> happens_before x y B -> happens_before x y (A ++ B).
Proof.
  intros HA HB l1 l2 E. apply app_eq_app in E.
  destruct E as [l [[EA E]|[E1 EB]]].
  - destruct l as [|z l].
    + cbn [app] in E. subst B. destruct (HB [] l2 eq_refl).
    + cbn [app] in E. injection E as <- _. apply (HA l1 l). exact EA.
  - subst l1. apply in_or_app. right. apply (HB l l2). exact EB.
Qed.

Lemma hb_app_after (x y : event) (A B : list event) :
  In x A -> ~ In y A -> happens_before x y (A ++ B).
Proof.
  intros Hx Hy l1 l2 E. apply app_eq_app in E.
  destruct E as [l [[EA E]|[E1 _]]].
  - destruct l as [|z l].
    + rewrite app_nil_r in EA. subst l1. exact Hx.
    + cbn [app] in E. injection E as <- _. exfalso. apply Hy. rewrite EA.
      apply in_or_app. right. left. reflexivity.
  - subst l1. apply in_or_app. left. exact Hx.
Qed.

Lemma hb_cons (x y e : event) (tr : list event) :
  e <> y -> happens_before x y tr -> happens_before x y (e :: tr).
Proof.
  intros Hne H l1 l2 E. destruct l1 as [|z l1].
  - cbn [app] in E. injection E as E _. contradiction.
  - cbn [app] in E. injection E as <- E. right. apply (H l1 l2). exact E.
Qed.

Lemma hb_snoc (x y e : event) (tr : list event) :
  e <> y -> happens_before x y tr -> happens_before x y (tr ++ [e]).
Proof.
  intros Hne H. apply hb_app; [exact H|]. apply hb_absent.
  intros [E|[]]. contradiction.
Qed.

Lemma hb_tail (x y e : event) (tr : list event) :
  e <> x -> happens_before x y (e :: tr) -> happens_before x y tr.
Proof.
  intros Hne H l1 l2 E. destruct (H (e :: l1) l2) as [Hx|Hx].
  - cbn [app]. f_equal. exact E.
  - contradiction.
  - exact Hx.
Qed.

Lemma hb_interleave (x y : event) (a b c : list event) :
  interleave a b c ->
  happens_before x y a -> happens_before x y b -> happens_before x y c.
Proof.
  induction 1 as [|e a b c _ IH|e a b c _ IH]; intros Ha Hb l1 l2 E.
  - destruct l1; discriminate E.
  - destruct l1 as [|z l1].
    + cbn [app] in E. injection E as -> _. destruct (Ha [] a eq_refl).
    + cbn [app] in E. injection E as <- E.
      destruct (event_eq_dec e x) as [->|Hne]; [left; reflexivity|].
      right. apply (IH (hb_tail _ _ _ _ Hne Ha) Hb l1 l2). exact E.
  - destruct l1 as [|z l1].
    + cbn [app] in E. injection E as -> _. destruct (Hb [] b eq_refl).
    + cbn [app] in E. injection E as <- E.
      destruct (event_eq_dec e x) as [->|Hne]; [left; reflexivity|].
      right. apply (IH Ha (hb_tail _ _ _ _ Hne Hb) l1 l2). exact E.
Qed.

Lemma stage_hb (x y : event) (st : list string) (tr : list event) (ok : bool) :
  runs_stage st tr ok ->
  (forall n tn okn, In n st -> runs n tn okn -> happens_before x y tn) ->
  happens_before x y tr.
Proof.
  induction 1 as [|n ns t1 t2 t ok1 ok2 Hn Hns IH Hil]; intro H.
  - apply hb_absent. intros [].
  - apply (hb_interleave _ _ _ _ _ Hil).
    + apply (H n t1 ok1); [left; reflexivity|exact Hn].
    + apply IH. intros m tm okm Hm. apply H. right. exact Hm.
Qed.

(** ** The stages of [build] and of [build-js] *)

Open Scope string_scope.

Ltac task_of H :=
  vm_compute in H; injection H as <-; cbn [t_stages t_action group leaf] in *.

Lemma stages_single (st : list string) (tr : list event) (ok : bool) :
  runs_stages [st] tr ok -> runs_stage st tr ok.
Proof.
  intro H. inversion H as [|st' rest t1 t2 ok' H1 H2|st' rest t1 H1]; subst.
  - inversion H2; subst. rewrite app_nil_r. exact H1.
  - exact H1.
Qed.

Lemma start_neq (n b : string) : n <> b -> Start n <> Start b.
Proof. intros H E. injection E as E. contradiction. Qed.

Lemma build_js_order (tr : list event) (ok : bool) (b : string) :
  runs "build-js" tr ok ->
  In b ["minify-js"; "minify-sw"] ->
  happens_before (Finish "build-sw") (Start b) tr.
Proof.
  intros H Hb.
  assert (Hy : existsb (String.eqb (event_name (Start b))) ["build-sw"] = false)
    by (destruct Hb as [<-|[<-|[]]]; reflexivity).
  assert (Hne : Start "build-js" <> Start b)
    by (apply start_neq; destruct Hb as [<-|[<-|[]]]; discriminate).
  assert (Absent : forall t1 ok1, runs_stage ["build-sw"] t1 ok1 -> ~ In (Start b) t1)
    by (intros t1 ok1; apply (absent_from_stage ["build-sw"]);
        [reflexivity|reflexivity|exact Hy]).
  inversion H as [name t tr' ok' Ht Hs Ha|name t tr' Ht Hs]; subst; task_of Ht.
  - apply hb_cons; [exact Hne|].
    inversion Hs as [|st rest t1 t2 ok1 H1 H2|]; subst.
    rewrite <- app_assoc. apply hb_app_after.
    + apply (stage_finished _ _ _ H1 eq_refl). left. reflexivity.
    + exact (Absent _ _ H1).
  - apply hb_cons; [exact Hne|]. apply hb_snoc; [discriminate|].
    inversion Hs as [|st rest t1 t2 ok1 H1 H2|st rest t1 H1]; subst.
    + apply hb_app_after.
      * apply (stage_finished _ _ _ H1 eq_refl). left. reflexivity.
      * exact (Absent _ _ H1).
    + apply hb_absent. exact (Absent _ _ H1).
Qed.

Lemma second_stage_order (tr : list event) (ok : bool) (b : string) :
  runs_stage second_stage tr ok ->
  In b ["minify-js"; "minify-sw"] ->
  happens_before (Finish "build-sw") (Start b) tr.
Proof.
  intros H Hb. apply (stage_hb _ _ _ _ _ H). intros n tn okn Hn Hr.
  assert (Hy : existsb (String.eqb (event_name (Start b))) under_other_members = false)
    by (destruct Hb as [<-|[<-|[]]]; reflexivity).
  destruct Hn as [<-|[<-|[<-|[<-|[]]]]].
  - apply hb_absent.
    apply (absent_from_run under_other_members "build-css" _ _ _ eq_refl eq_refl Hy Hr).
  - apply hb_absent.
    apply (absent_from_run under_other_members "build-html" _ _ _ eq_refl eq_refl Hy Hr).
  - apply hb_absent.
    apply (absent_from_run under_other_members "build-images" _ _ _ eq_refl eq_refl Hy Hr).
  - apply (build_js_order _ _ _ Hr Hb).
Qed.

(** C8.  In every run of [build], successful or not, whatever the
    interleaving of the concurrent tasks: a task of the second stage starts
    only after every task of the first stage has finished, and [minify-js]
    and [minify-sw] start only after [build-sw] has finished. *)
Theorem build_stages_in_order (tr : list event) (ok : bool) :
  runs "build" tr ok ->
  (forall a b, In a first_stage -> In b second_stage ->
     happens_before (Finish a) (Start b) tr)
  /\ (forall b, In b ["minify-js"; "minify-sw"] ->
        happens_before (Finish "build-sw") (Start b) tr).
Proof.
  intro H.
  assert (Absent1 : forall e t1 ok1,
            existsb (String.eqb (event_name e)) under_first_stage = false ->
            runs_stage first_stage t1 ok1 -> ~ In e t1).
  { intros e t1 ok1 He.
    apply (absent_from_stage under_first_stage); [reflexivity|reflexivity|exact He]. }
  assert (Out2 : forall b, In b second_stage ->
            existsb (String.eqb (event_name (Start b))) under_first_stage = false
            /\ Start "build" <> Start b).
  { intros b Hb. split; [|apply start_neq];
      destruct Hb as [<-|[<-|[<-|[<-|[]]]]]; (reflexivity || discriminate). }
  assert (OutM : forall b, In b ["minify-js"; "minify-sw"] ->
            existsb (String.eqb (event_name (Start b))) under_first_stage = false
            /\ Start "build" <> Start b).
  { intros b Hb. split; [|apply start_neq];
      destruct Hb as [<-|[<-|[]]]; (reflexivity || discriminate). }
  inversion H as [name t tr' ok' Ht Hs Ha|name t tr' Ht Hs]; subst; task_of Ht;
    fold first_stage in Hs; fold second_stage in Hs;
    (inversion Hs as [|st rest t1 t2 ok1 H1 H2|st rest t1 H1]; subst);
    try (apply stages_single in H2).
  - split.
    + intros a b Ha' Hb. destruct (Out2 b Hb) as [Hy Hne].
      apply hb_cons; [exact Hne|].
      rewrite <- app_assoc. apply hb_app_after.
      * apply (stage_finished _ _ _ H1 eq_refl _ Ha').
      * apply (Absent1 _ _ _ Hy H1).
    + intros b Hb. destruct (OutM b Hb) as [Hy Hne].
      apply hb_cons; [exact Hne|].
      apply hb_snoc; [destruct ok; discriminate|]. apply hb_app.
      * apply hb_absent. apply (Absent1 _ _ _ Hy H1).
      * apply (second_stage_order _ _ _ H2 Hb).
  - split.
    + intros a b Ha' Hb. destruct (Out2 b Hb) as [Hy Hne].
      apply hb_cons; [exact Hne|].
      rewrite <- app_assoc. apply hb_app_after.
      * apply (stage_finished _ _ _ H1 eq_refl _ Ha').
      * apply (Absent1 _ _ _ Hy H1).
    + intros b Hb. destruct (OutM b Hb) as [Hy Hne].
      apply hb_cons; [exact Hne|].
      apply hb_snoc; [discriminate|]. apply hb_app.
      * apply hb_absent. apply (Absent1 _ _ _ Hy H1).
      * apply (second_stage_order _ _ _ H2 Hb).
  - split.
    + intros a b Ha' Hb. destruct (Out2 b Hb) as [Hy Hne].
      apply hb_cons; [exact Hne|]. apply hb_snoc; [discriminate|].
      apply hb_absent. apply (Absent1 _ _ _ Hy H1).
    + intros b Hb. destruct (OutM b Hb) as [Hy Hne].
      apply hb_cons; [exact Hne|]. apply hb_snoc; [discriminate|].
      apply hb_absent. apply (Absent1 _ _ _ Hy H1).
Qed.

Close Scope string_scope.

(** ** A run exists *)

Lemma interleave_app (a b : list event) : interleave a b (a ++ b).
Proof.
  induction a as [|x a IH]; cbn [app].
  - induction b as [|y b IH]; [constructor|]. apply interleave_right. exact IH.
  - apply interleave_left. exact IH.
Qed.

Lemma sequential_run_runs (fuel : nat) : forall name tr,
  sequential_run fuel name = Some tr -> runs name tr true.
Proof.
  induction fuel as [|fuel IH]; intros name tr H; [discriminate H|].
  cbn [sequential_run] in H.
  destruct (lookup tasks name) as [t|] eqn:Ht; [|discriminate H].
  assert (Stage : forall st u,
            in_sequence (map (sequential_run fuel) st) = Some u -> runs_stage st u true).
  { induction st as [|n ns IHs]; intros u Hu; cbn [map in_sequence] in Hu.
    - injection Hu as <-. constructor.
    - destruct (sequential_run fuel n) as [a|] eqn:Ea; [|discriminate Hu].
      destruct (in_sequence (map (sequential_run fuel) ns)) as [b|]; [|discriminate Hu].
      injection Hu as <-.
      apply (@stage_member n ns a b (a ++ b) true true).
      + apply IH. exact Ea.
      + apply IHs. reflexivity.
      + apply interleave_app. }
  assert (Stages : forall sts u,
            in_sequence (map (fun st => in_sequence (map (sequential_run fuel) st)) sts)
            = Some u -> runs_stages sts u true).
  { induction sts as [|st rest IHs]; intros u Hu; cbn [map in_sequence] in Hu.
    - injection Hu as <-. constructor.
    - destruct (in_sequence (map (sequential_run fuel) st)) as [a|] eqn:Ea;
        [|discriminate Hu].
      destruct (in_sequence
                  (map (fun st => in_sequence (map (sequential_run fuel) st)) rest))
        as [b|]; [|discriminate Hu].
      injection Hu as <-. apply stages_next.
      + apply Stage. exact Ea.
      + apply IHs. reflexivity. }
  destruct (in_sequence
              (map (fun st => in_sequence (map (sequential_run fuel) st)) (t_stages t)))
    as [u|] eqn:Eu; [|discriminate H].
  injection H as <-.
  apply (@runs_done name t u true Ht).
  - apply Stages. exact Eu.
  - reflexivity.
Qed.

Open Scope string_scope.

Lemma build_stages_in_order_witness :
  runs "build" sequential_build true
  /\ happens_before (Finish "build-redirects") (Start "build-js") sequential_build
  /\ happens_before (Finish "build-sw") (Start "minify-sw") sequential_build.
Proof.
  assert (R : runs "build" sequential_build true)
    by (apply (sequential_run_runs 4); vm_compute; reflexivity).
  split; [exact R|].
  destruct (build_stages_in_order sequential_build true R) as [H1 H2].
  split.
  - apply H1; cbn; tauto.
  - apply H2; cbn; tauto.
Defined.

(** The tasks of a stage do run concurrently, and a failure is awaited:
    [minify-xml] fails while [minify-json] is still running. *)
Example interleaved_failing_run :
  runs "build-metadata"
    [Start "build-metadata"; Start "minify-json"; Start "minify-xml";
     Fail "minify-xml"; Finish "minify-json"; Fail "build-metadata"] false.
Proof.
  apply (@runs_failed "build-metadata"
           (group [["minify-json"; "minify-xml"]])
           [Start "minify-json"; Start "minify-xml"; Fail "minify-xml";
            Finish "minify-json"]); [reflexivity|].
  apply stages_stop.
  apply (@stage_member "minify-json" ["minify-xml"]
           [Start "minify-json"; Finish "minify-json"]
           [Start "minify-xml"; Fail "minify-xml"] _ true (false && true)).
  - apply (@runs_done "minify-json" (leaf (Pump true)) [] true);
      [reflexivity|constructor|reflexivity].
  - apply (@stage_member "minify-xml" [] [Start "minify-xml"; Fail "minify-xml"] [] _
             false true).
    + apply (@runs_done "minify-xml" (leaf (Pump true)) [] false);
        [reflexivity|constructor|discriminate].
    + constructor.
    + repeat constructor.
  - apply interleave_left. apply interleave_right. apply interleave_right.
    apply interleave_left. constructor.
Qed.

(** ** Errors in the pipelines *)

(** C9, at the task where the code departs from it: an error in the
    pipeline of [minify-css] is not passed to the shared callback, [pump] is
    given none there, and nothing is logged; the other minification tasks
    pass [cb], which logs the message. *)
Theorem minify_css_error_not_logged (message : string) (console : list string) :
  lookup tasks "minify-css" = Some (leaf (Pump false))
  /\ on_pipeline_error (Pump false) message console = console
  /\ (forall name,
        In name ["minify-html"; "minify-images"; "minify-js"; "minify-json";
                 "minify-sw"; "minify-xml"] ->
        lookup tasks name = Some (leaf (Pump true)))
  /\ on_pipeline_error (Pump true) message console = (console ++ [message])%list.
Proof.
  split; [reflexivity|]. split; [reflexivity|]. split; [|reflexivity].
  intros name H.
  repeat (destruct H as [<-|H]; [reflexivity|]). destruct H.
Qed.

Close Scope string_scope.

(** * Further properties of the redirect compiler *)

(** X1.  Every line terminator separates rules: a carriage return, a line
    feed, the two together, a line or a paragraph separator.  The entries
    of the text before it come first, then those of the text after it. *)
Theorem line_terminators_separate_rules (a b : str) (x : char) :
  is_line_terminator x = true ->
  compile (a ++ x :: b) = compile a ++ compile b
  /\ compile (a ++ CR :: LF :: b) = compile a ++ compile b.
Proof.
  intro Hx. split; [apply (compile_app _ _ _ Hx)|].
  rewrite (compile_app a CR (LF :: b) eq_refl).
  change (LF :: b) with ([] ++ LF :: b).
  rewrite (compile_app [] LF b eq_refl). reflexivity.
Qed.

Lemma line_terminators_separate_rules_witness :
  is_line_terminator CR = true
  /\ compile (js "/a /b" ++ CR :: js "/c /d") = compile (js "/a /b") ++ compile (js "/c /d")
  /\ compile (js "/a /b" ++ CR :: LF :: js "/c /d")
     = compile (js "/a /b") ++ compile (js "/c /d").
Proof.
  split; [reflexivity|].
  exact (line_terminators_separate_rules (js "/a /b") (js "/c /d") CR eq_refl).
Defined.

Lemma scan_run_until (cs : cset) (tok : str) (w : char) (rest : str) :
  tok <> [] -> all_in cs tok = true -> in_cset cs w = false ->
  scan_run cs (tok ++ w :: rest) = Some (tok, w :: rest).
Proof.
  intros Hne Hall Hw. rewrite (scan_run_prefix _ _ _ Hne Hall).
  cbn [take_while drop_while]. rewrite Hw, app_nil_r. reflexivity.
Qed.

(** X2.  What follows the status on the line is ignored: after three tokens,
    any text that starts with whitespace changes nothing to the entry. *)
Theorem text_after_status_is_ignored (lead from gap to gap' st : str) (w : char)
    (rest : str) :
  all_in blank lead = true -> is_token from -> is_gap gap -> is_token to ->
  is_gap gap' -> is_token st ->
  is_space w = true -> no_line_terminator (w :: rest) = true ->
  compile (lead ++ from ++ gap ++ to ++ gap' ++ st ++ w :: rest)
  = [entry from to (Some st)].
Proof.
  intros Hl Hf Hg Ht Hg' Hs Hw Hr.
  assert (Ll : no_line_terminator lead = true)
    by (apply (class_no_line_terminator blank); [left; reflexivity|exact Hl]).
  pose proof (token_no_line_terminator _ Hf) as Lf.
  pose proof (gap_no_line_terminator _ Hg) as Lg.
  pose proof (token_no_line_terminator _ Ht) as Lt.
  pose proof (gap_no_line_terminator _ Hg') as Lg'.
  pose proof (token_no_line_terminator _ Hs) as Ls.
  rewrite compile_single_line
    by (rewrite !no_line_terminator_app, Ll, Lf, Lg, Lt, Lg', Ls, Hr; reflexivity).
  destruct Hf as [Hf Hfa], Hg as [Hg Hga], Ht as [Ht Hta], Hg' as [Hg' Hga'],
    Hs as [Hs Hsa].
  unfold compile_line, scan_rule.
  rewrite (drop_while_app_all _ _ _ Hl).
  assert (Ed : drop_while (in_cset blank) (from ++ gap ++ to ++ gap' ++ st ++ w :: rest)
               = from ++ gap ++ to ++ gap' ++ st ++ w :: rest).
  { destruct from as [|f from]; [congruence|].
    cbn [all_in forallb] in Hfa. apply andb_true_iff in Hfa. destruct Hfa as [Hx _].
    cbn [app drop_while]. rewrite (nonspace_not_blank _ Hx). reflexivity. }
  rewrite Ed.
  rewrite (scan_run_exact CNonSpace blank from gap _ blank_not_nonspace Hf Hfa Hg Hga).
  rewrite (scan_run_exact blank CNonSpace gap to _ nonspace_not_blank Hg Hga Ht Hta).
  rewrite (scan_run_exact CNonSpace blank to gap' _ blank_not_nonspace Ht Hta Hg' Hga').
  rewrite (scan_run_exact blank CNonSpace gap' st _ nonspace_not_blank Hg' Hga' Hs Hsa).
  rewrite (scan_run_until CNonSpace st w rest Hs Hsa)
    by (cbn [in_cset]; rewrite Hw; reflexivity).
  reflexivity.
Qed.

Lemma text_after_status_is_ignored_witness :
  compile (js "/a /b 301 # moved in 2016") = [js "[/^\/a/,'/b',301]"].
Proof.
  assert (T : forall t, t <> [] -> all_in CNonSpace t = true -> is_token t)
    by (intros t H1 H2; split; assumption).
  assert (G : is_gap (js " ")) by (split; [discriminate|reflexivity]).
  apply (text_after_status_is_ignored [] (js "/a") (js " ") (js "/b") (js " ")
           (js "301") SP (js "# moved in 2016"));
    try exact G; try reflexivity; apply T; (discriminate || reflexivity).
Defined.

(** ** A rule that ends with the wildcard *)








(** ** The emitted literal *)

Lemma literal_body_unit (c : char) (rest : str) :
  is_line_terminator c = false ->
  literal_body (pattern_unit c ++ rest) = literal_body rest.
Proof.
  intro Hc. unfold pattern_unit.
  destruct (is_asterisk c) eqn:Ea; [reflexivity|].
  destruct (is_slash c) eqn:Es; [reflexivity|].
  destruct (is_syntax_char c) eqn:E.
  - cbn [app literal_body]. change (N.eqb (ch "\") (ch "\")) with true. cbv iota.
    rewrite Hc. reflexivity.
  - cbn [app literal_body].
    rewrite (@plain_not c (ch "\") E eq_refl), (@plain_not c (ch "[") E eq_refl).
    unfold is_slash in Es. rewrite Es, Hc. reflexivity.
Qed.

Lemma literal_body_units (body rest : str) :
  no_line_terminator body = true ->
  literal_body (flat_map pattern_unit body ++ rest) = literal_body rest.
Proof.
  induction body as [|c body IH]; intro H; [reflexivity|].
  cbn [no_line_terminator forallb] in H. apply andb_true_iff in H.
  destruct H as [Hc Hb]. apply negb_true_iff in Hc.
  cbn [flat_map]. rewrite <- app_assoc, (literal_body_unit _ _ Hc). apply IH. exact Hb.
Qed.

Lemma matcher_source_literal_body (from : str) :
  no_line_terminator from = true ->
  literal_body (matcher_source from) = true.
Proof.
  intro H. unfold matcher_source.
  change (literal_body (ch "^" :: compile_from from))
    with (literal_body (compile_from from)).
  destruct (ends_with_slash from) eqn:E.
  - induction from as [|c body _] using rev_ind; [discriminate E|].
    rewrite ends_with_slash_snoc in E. unfold is_slash in E.
    apply N.eqb_eq in E. subst c.
    rewrite no_line_terminator_app in H. apply andb_true_iff in H. destruct H as [Hb _].
    rewrite compile_from_trailing_slash, (literal_body_units _ _ Hb). reflexivity.
  - rewrite (compile_from_no_trailing_slash _ E).
    rewrite <- (app_nil_r (flat_map pattern_unit from)).
    rewrite (literal_body_units _ _ H). reflexivity.
Qed.

(** X4.  In the entry that the compiler pushes for a rule line, what stands
    between the opening slash and the slash before the comma is a
    well-formed body of a regular-expression literal: whatever [from]
    holds, every slash of it is escaped, no character class is opened and
    no escape is left unfinished, so nothing in [from] ends the literal
    early within the entry. *)
Theorem matcher_is_a_literal_body (lead from gap to tail : str) :
  all_in blank lead = true -> is_token from -> is_gap gap -> is_token to ->
  token_end tail = true -> no_line_terminator tail = true ->
  exists body status,
    compile (lead ++ from ++ gap ++ to ++ tail)
    = [js "[/" ++ body ++ js "/,'" ++ to ++ js "'," ++ status ++ js "]"]
    /\ literal_body body = true.
Proof.
  intros Hl Hf Hg Ht He Ht'.
  destruct (rule_line_entry _ _ _ _ _ Hl Hf Hg Ht He Ht') as [status H].
  exists (matcher_source from), status. split; [exact H|].
  apply matcher_source_literal_body. now apply token_no_line_terminator.
Qed.

Lemma matcher_is_a_literal_body_witness :
  exists body status,
    compile (js "/a/[b]\/*/ /t")
    = [js "[/" ++ body ++ js "/,'/t'," ++ status ++ js "]"]
    /\ literal_body body = true.
Proof.
  assert (T : forall t, t <> [] -> all_in CNonSpace t = true -> is_token t)
    by (intros t H1 H2; split; assumption).
  assert (G : is_gap (js " ")) by (split; [discriminate|reflexivity]).
  apply (matcher_is_a_literal_body [] (js "/a/[b]\/*/") (js " ") (js "/t") []);
    try exact G; try reflexivity; apply T; (discriminate || reflexivity).
Defined.

(** * Further properties of the build graph *)

(** ** What runs under [build] *)

Lemma interleave_incl_left (a b c : list event) :
  interleave a b c -> incl a c.
Proof. intros H e He. apply (interleave_in _ _ _ e H). left. exact He. Qed.

Lemma interleave_incl_right (a b c : list event) :
  interleave a b c -> incl b c.
Proof. intros H e He. apply (interleave_in _ _ _ e H). right. exact He. Qed.

(** In a successful stage every member has run with success, and its
    events are among those of the stage. *)
Lemma stage_member_run (st : list string) (tr : list event) (ok : bool) :
  runs_stage st tr ok -> ok = true ->
  forall m, In m st -> exists tm, runs m tm true /\ incl tm tr.
Proof.
  induction 1 as [|n ns t1 t2 t ok1 ok2 Hn Hns IH Hil]; intros Hok m Hm; [destruct Hm|].
  apply andb_true_iff in Hok. destruct Hok as [-> ->].
  destruct Hm as [<-|Hm].
  - exists t1. split; [exact Hn|]. apply (interleave_incl_left _ _ _ Hil).
  - destruct (IH eq_refl m Hm) as [tm [Hr Hi]]. exists tm. split; [exact Hr|].
    intros e He. apply (interleave_incl_right _ _ _ Hil). apply Hi. exact He.
Qed.

Lemma stages_member_run (sts : list (list string)) (tr : list event) (ok : bool) :
  runs_stages sts tr ok -> ok = true ->
  forall m, In m (concat sts) -> exists tm, runs m tm true /\ incl tm tr.
Proof.
  induction 1 as [|st rest t1 t2 ok H1 H2 IH|st rest t1 H1]; intros Hok m Hm.
  - destruct Hm.
  - cbn [concat] in Hm. apply in_app_or in Hm. destruct Hm as [Hm|Hm].
    + destruct (stage_member_run _ _ _ H1 eq_refl m Hm) as [tm [Hr Hi]].
      exists tm. split; [exact Hr|]. intros e He. apply in_or_app. left. apply Hi. exact He.
    + destruct (IH Hok m Hm) as [tm [Hr Hi]].
      exists tm. split; [exact Hr|]. intros e He. apply in_or_app. right. apply Hi. exact He.
  - discriminate Hok.
Qed.

(** A successful run has started and finished every task under it. *)
Lemma reached_tasks_finish (fuel : nat) : forall n m tr,
  reaches fuel n m = true -> runs n tr true ->
  In (Start m) tr /\ In (Finish m) tr.
Proof.
  induction fuel as [|fuel IH]; intros n m tr Hr H; cbn [reaches] in Hr;
    apply orb_true_iff in Hr.
  - destruct Hr as [E|E]; [|discriminate E]. apply String.eqb_eq in E. subst m.
    split; [inversion H; subst; left; reflexivity|apply finished; exact H].
  - destruct Hr as [E|Hr].
    + apply String.eqb_eq in E. subst m.
      split; [inversion H; subst; left; reflexivity|apply finished; exact H].
    + inversion H as [name t tr' ok' Ht Hs Ha|]; subst.
      rewrite Ht in Hr. apply existsb_exists in Hr. destruct Hr as [c [Hc Hcm]].
      destruct (stages_member_run _ _ _ Hs eq_refl c Hc) as [tc [Hrc Hi]].
      destruct (IH c m tc Hcm Hrc) as [HS HF].
      split; right; apply in_or_app; left; apply Hi; assumption.
Qed.

Open Scope string_scope.

(** X5.  A run of [build] involves the eighteen tasks of its graph and no
    other: [build-config] never starts under it; and when the run succeeds,
    every one of the eighteen has started and finished. *)
Theorem build_runs_its_tasks (tr : list event) (ok : bool) :
  runs "build" tr ok ->
  (forall e, In e tr -> In (event_name e) build_tasks)
  /\ ~ In (Start "build-config") tr
  /\ (ok = true ->
      forall m, In m build_tasks -> In (Start m) tr /\ In (Finish m) tr).
Proof.
  intro H.
  assert (W : forall e, In e tr -> In (event_name e) build_tasks).
  { destruct (events_within build_tasks eq_refl) as [W _].
    apply (W _ _ _ H). left. reflexivity. }
  split; [exact W|]. split.
  - intro Hin. specialize (W _ Hin). cbn in W.
    repeat (destruct W as [W|W]; [discriminate W|]). destruct W.
  - intros -> m Hm. apply (reached_tasks_finish 3 "build" m tr); [|exact H].
    cbn in Hm. repeat (destruct Hm as [<-|Hm]; [reflexivity|]). destruct Hm.
Qed.

Lemma build_runs_its_tasks_witness :
  runs "build" sequential_build true
  /\ In (Finish "minify-images") sequential_build
  /\ ~ In (Start "build-config") sequential_build.
Proof.
  assert (R : runs "build" sequential_build true)
    by (apply (sequential_run_runs 4); vm_compute; reflexivity).
  destruct (build_runs_its_tasks sequential_build true R) as [_ [H2 H3]].
  split; [exact R|]. split; [|exact H2].
  apply (H3 eq_refl). cbn. tauto.
Defined.

Close Scope string_scope.

(** ** Stages behind a first stage *)

Lemma names_in (S st : list string) :
  forallb (fun m => existsb (String.eqb m) S) st = true ->
  forall m, In m st -> In m S.
Proof.
  intros H m Hm. rewrite forallb_forall in H. specialize (H m Hm).
  apply existsb_exists in H. destruct H as [k [Hk E]].
  apply String.eqb_eq in E. subst k. exact Hk.
Qed.

(** What finishes in the first of several stages comes before any event of
    a task outside it. *)
Lemma head_stage_before (S st : list string) (rest : list (list string))
    (tr : list event) (ok : bool) (a : string) (y : event) :
  closed S = true ->
  forallb (fun m => existsb (String.eqb m) S) st = true ->
  existsb (String.eqb (event_name y)) S = false ->
  In a st ->
  runs_stages (st :: rest) tr ok ->
  happens_before (Finish a) y tr.
Proof.
  intros HS Hst Hy Ha H.
  inversion H as [|st' rest' t1 t2 ok' H1 H2|st' rest' t1 H1]; subst.
  - apply hb_app_after.
    + apply (stage_finished _ _ _ H1 eq_refl _ Ha).
    + apply (absent_from_stage S _ _ _ _ HS Hst Hy H1).
  - apply hb_absent. apply (absent_from_stage S _ _ _ _ HS Hst Hy H1).
Qed.

(** An order that holds in the later stages holds in all, when the first
    stage holds no occurrence of the later event. *)
Lemma later_stages_before (S st : list string) (rest : list (list string))
    (tr : list event) (ok : bool) (x y : event) :
  closed S = true ->
  forallb (fun m => existsb (String.eqb m) S) st = true ->
  existsb (String.eqb (event_name y)) S = false ->
  (forall t2 ok2, runs_stages rest t2 ok2 -> happens_before x y t2) ->
  runs_stages (st :: rest) tr ok ->
  happens_before x y tr.
Proof.
  intros HS Hst Hy Hrest H.
  inversion H as [|st' rest' t1 t2 ok' H1 H2|st' rest' t1 H1]; subst.
  - apply hb_app.
    + apply hb_absent. apply (absent_from_stage S _ _ _ _ HS Hst Hy H1).
    + apply (Hrest _ _ H2).
  - apply hb_absent. apply (absent_from_stage S _ _ _ _ HS Hst Hy H1).
Qed.

(** An order that holds among the stages of a task holds in its run. *)
Lemma task_before (n : string) (t : task) (tr : list event) (ok : bool) (x y : event) :
  lookup tasks n = Some t ->
  event_name y <> n ->
  (forall tr' ok', runs_stages (t_stages t) tr' ok' -> happens_before x y tr') ->
  runs n tr ok ->
  happens_before x y tr.
Proof.
  intros Ht Hn Hs H.
  assert (Hne : forall e, event_name e = n -> e <> y)
    by (intros e He E; subst e; contradiction).
  inversion H as [name t' tr' ok' Ht' Hs' Ha|name t' tr' Ht' Hs']; subst;
    rewrite Ht in Ht'; injection Ht' as <-.
  - apply hb_cons; [apply Hne; reflexivity|].
    apply hb_snoc; [apply Hne; destruct ok; reflexivity|]. apply (Hs _ _ Hs').
  - apply hb_cons; [apply Hne; reflexivity|].
    apply hb_snoc; [apply Hne; reflexivity|]. apply (Hs _ _ Hs').
Qed.

Open Scope string_scope.

Lemma build_images_order (tr : list event) (ok : bool) :
  runs "build-images" tr ok ->
  happens_before (Finish "build-app-icons") (Start "build-favicon") tr
  /\ happens_before (Finish "build-favicon") (Start "minify-images") tr.
Proof.
  intro H. split.
  - refine (task_before "build-images" _ tr ok _ _ eq_refl _ _ H); [discriminate|].
    intros tr' ok'. cbn [t_stages group].
    apply (head_stage_before ["build-app-icons"]); try reflexivity. left. reflexivity.
  - refine (task_before "build-images" _ tr ok _ _ eq_refl _ _ H); [discriminate|].
    intros tr' ok'. cbn [t_stages group].
    apply (later_stages_before ["build-app-icons"]); try reflexivity.
    intros t2 ok2.
    apply (head_stage_before ["build-favicon"]); try reflexivity. left. reflexivity.
Qed.

(** X6.  The three steps of [build-images] run one after the other, also
    within [build] where the other tasks of the stage run beside them: the
    favicon is built only after the application icons have been generated,
    and the images are minified only after the favicon is built. *)
Theorem images_are_built_in_sequence (tr : list event) (ok : bool) :
  runs "build" tr ok \/ runs "build-images" tr ok ->
  happens_before (Finish "build-app-icons") (Start "build-favicon") tr
  /\ happens_before (Finish "build-favicon") (Start "minify-images") tr.
Proof.
  intros [H|H]; [|apply (build_images_order _ _ H)].
  assert (Lift : forall x y,
            In (event_name y) ["build-favicon"; "minify-images"] ->
            (forall t o, runs "build-images" t o -> happens_before x y t) ->
            happens_before x y tr).
  { intros x y Hy Himg.
    refine (task_before "build" _ tr ok x y eq_refl _ _ H);
      [destruct Hy as [<-|[<-|[]]]; discriminate|].
    intros tr' ok'. cbn [t_stages group].
    apply (later_stages_before under_first_stage);
      [reflexivity|reflexivity|destruct Hy as [<-|[<-|[]]]; reflexivity|].
    intros t2 ok2 H2. apply stages_single in H2.
    apply (stage_hb _ _ _ _ _ H2). intros n tn okn Hn Hr.
    assert (Out : existsb (String.eqb (event_name y)) beside_images = false)
      by (destruct Hy as [<-|[<-|[]]]; reflexivity).
    destruct Hn as [<-|[<-|[<-|[<-|[]]]]].
    - apply hb_absent.
      apply (absent_from_run beside_images "build-css" _ _ _ eq_refl eq_refl Out Hr).
    - apply hb_absent.
      apply (absent_from_run beside_images "build-html" _ _ _ eq_refl eq_refl Out Hr).
    - apply (Himg _ _ Hr).
    - apply hb_absent.
      apply (absent_from_run beside_images "build-js" _ _ _ eq_refl eq_refl Out Hr). }
  split.
  - apply Lift; [left; reflexivity|]. intros t o Hr. apply (build_images_order _ _ Hr).
  - apply Lift; [right; left; reflexivity|]. intros t o Hr.
    apply (build_images_order _ _ Hr).
Qed.

Lemma images_are_built_in_sequence_witness :
  runs "build" sequential_build true
  /\ happens_before (Finish "build-app-icons") (Start "build-favicon") sequential_build
  /\ happens_before (Finish "build-favicon") (Start "minify-images") sequential_build.
Proof.
  assert (R : runs "build" sequential_build true)
    by (apply (sequential_run_runs 4); vm_compute; reflexivity).
  split; [exact R|].
  apply (images_are_built_in_sequence sequential_build true). left. exact R.
Defined.

Close Scope string_scope.

(** ** Failures *)

(** A successful run holds no failure, at any depth. *)
Lemma success_without_failure :
  (forall n tr ok, runs n tr ok -> ok = true -> forall m, ~ In (Fail m) tr)
  /\ (forall sts tr ok, runs_stages sts tr ok -> ok = true -> forall m, ~ In (Fail m) tr)
  /\ (forall st tr ok, runs_stage st tr ok -> ok = true -> forall m, ~ In (Fail m) tr).
Proof.
  apply runs_mutual.
  - intros name t tr ok _ _ IH _ -> m [E|Hin]; [discriminate E|].
    apply in_app_or in Hin. destruct Hin as [Hin|[E|[]]]; [|discriminate E].
    apply (IH eq_refl m Hin).
  - intros; discriminate.
  - intros _ m [].
  - intros st rest t1 t2 ok _ IH1 _ IH2 Hok m Hin.
    apply in_app_or in Hin. destruct Hin as [Hin|Hin].
    + apply (IH1 eq_refl m Hin).
    + apply (IH2 Hok m Hin).
  - intros; discriminate.
  - intros _ m [].
  - intros n ns t1 t2 t ok1 ok2 _ IH1 _ IH2 Hil Hok m Hin.
    apply andb_true_iff in Hok. destruct Hok as [H1 H2].
    apply (interleave_in _ _ _ (Fail m) Hil) in Hin. destruct Hin as [Hin|Hin].
    + apply (IH1 H1 m Hin).
    + apply (IH2 H2 m Hin).
Qed.

Open Scope string_scope.

(** X7.  When a task under the first stage of [build] fails, the run of
    [build] fails and no task of the second stage, nor any task under it,
    ever starts: the trace holds no event of theirs. *)
Theorem first_stage_failure_stops_build (tr : list event) (ok : bool) (a : string) :
  runs "build" tr ok ->
  In a under_first_stage ->
  In (Fail a) tr ->
  ok = false
  /\ (forall e, In e tr -> ~ In (event_name e) under_second_stage).
Proof.
  intros H Ha Hf.
  destruct success_without_failure as [NoFail [_ NoFailStage]].
  assert (Hok : ok = false).
  { destruct ok; [|reflexivity]. exfalso. apply (NoFail _ _ _ H eq_refl a Hf). }
  split; [exact Hok|]. subst ok.
  assert (Disjoint : forall n, In n under_first_stage -> ~ In n under_second_stage).
  { intros n Hn Hn2. cbn in Hn.
    repeat (destruct Hn as [<-|Hn];
            [cbn in Hn2; repeat (destruct Hn2 as [E|Hn2]; [discriminate E|]);
             destruct Hn2|]).
    destruct Hn. }
  assert (NotBuild : ~ In "build" under_second_stage).
  { intro Hb. cbn in Hb. repeat (destruct Hb as [E|Hb]; [discriminate E|]). destruct Hb. }
  destruct (events_within under_first_stage eq_refl) as [_ [_ W1]].
  destruct (events_within under_second_stage eq_refl) as [_ [W2 _]].
  inversion H as [name t tr' ok' Ht Hs Hact|name t tr' Ht Hs]; subst; task_of Ht.
  - discriminate (Hact eq_refl).
  - fold first_stage in Hs. fold second_stage in Hs.
    inversion Hs as [|st rest t1 t2 ok1 H1 H2|st rest t1 H1]; subst.
    + exfalso. destruct Hf as [E|Hf]; [discriminate E|].
      rewrite <- app_assoc in Hf. apply in_app_or in Hf. destruct Hf as [Hf|Hf].
      * apply (NoFailStage _ _ _ H1 eq_refl a Hf).
      * apply in_app_or in Hf. destruct Hf as [Hf|[E|[]]].
        -- apply (Disjoint a Ha).
           apply (W2 _ _ _ H2
                    (names_in under_second_stage (concat [second_stage]) eq_refl) _ Hf).
        -- injection E as <-. cbn in Ha.
           repeat (destruct Ha as [E|Ha]; [discriminate E|]). destruct Ha.
    + intros e [<-|He]; [exact NotBuild|].
      apply in_app_or in He. destruct He as [He|[<-|[]]]; [|exact NotBuild].
      apply Disjoint.
      apply (W1 _ _ _ H1 (names_in under_first_stage first_stage eq_refl) _ He).
Qed.

Lemma first_stage_failure_stops_build_witness :
  runs "build"
    [Start "build"; Start "build-headers"; Start "build-metadata";
     Start "minify-json"; Start "build-redirects"; Finish "build-redirects";
     Start "minify-xml"; Fail "minify-xml"; Finish "build-headers";
     Finish "minify-json"; Fail "build-metadata"; Fail "build"] false
  /\ ~ In (Start "build-js")
       [Start "build"; Start "build-headers"; Start "build-metadata";
        Start "minify-json"; Start "build-redirects"; Finish "build-redirects";
        Start "minify-xml"; Fail "minify-xml"; Finish "build-headers";
        Finish "minify-json"; Fail "build-metadata"; Fail "build"].
Proof.
  assert (Leaf : forall n a ok,
            lookup tasks n = Some (leaf a) -> runs n [Start n; end_event n ok] ok).
  { intros n a ok Hn. apply (@runs_done n (leaf a) [] ok Hn); [constructor|discriminate]. }
  assert (R : runs "build"
                [Start "build"; Start "build-headers"; Start "build-metadata";
                 Start "minify-json"; Start "build-redirects"; Finish "build-redirects";
                 Start "minify-xml"; Fail "minify-xml"; Finish "build-headers";
                 Finish "minify-json"; Fail "build-metadata"; Fail "build"] false).
  { apply (@runs_failed "build"
             (group [first_stage; second_stage])
             [Start "build-headers"; Start "build-metadata";
              Start "minify-json"; Start "build-redirects"; Finish "build-redirects";
              Start "minify-xml"; Fail "minify-xml"; Finish "build-headers";
              Finish "minify-json"; Fail "build-metadata"] eq_refl).
    apply stages_stop.
    apply (@stage_member "build-headers" _
             [Start "build-headers"; Finish "build-headers"]
             [Start "build-metadata"; Start "minify-json"; Start "build-redirects";
              Finish "build-redirects"; Start "minify-xml"; Fail "minify-xml";
              Finish "minify-json"; Fail "build-metadata"] _ true false).
    - apply (Leaf "build-headers" Promise true eq_refl).
    - apply (@stage_member "build-metadata" _
               [Start "build-metadata"; Start "minify-json"; Start "minify-xml";
                Fail "minify-xml"; Finish "minify-json"; Fail "build-metadata"]
               [Start "build-redirects"; Finish "build-redirects"] _ false (true && true)).
      + apply interleaved_failing_run.
      + apply (@stage_member "build-redirects" _
                 [Start "build-redirects"; Finish "build-redirects"] [] _ true true).
        * apply (Leaf "build-redirects" Promise true eq_refl).
        * constructor.
        * repeat constructor.
      + apply interleave_left. apply interleave_left. apply interleave_right.
        apply interleave_right. repeat constructor.
    - apply interleave_left. apply interleave_right. apply interleave_right.
      apply interleave_right. apply interleave_right. apply interleave_right.
      apply interleave_right. apply interleave_left. repeat constructor. }
  split; [exact R|].
  destruct (first_stage_failure_stops_build _ false "minify-xml" R) as [_ N].
  - cbn. tauto.
  - cbn. tauto.
  - intro Hin. apply (N _ Hin). cbn. tauto.
Defined.

(** * Further properties: the cleaning of sources *)

Open Scope list_scope.

(** ** The matcher consumes a text of the pattern *)

Section Soundness.
Variable A : Type.
Variable ml : bool.

Lemma repeat_match_sound (a : regex) (k : cont A) :
  sound_for A ml a ->
  forall fuel prev s cs x,
    repeat_match (rmatch ml a) k fuel prev s cs = Some x ->
    exists p s' cs' m, k p s' cs' = Some x /\ s = m ++ s' /\ derives (RStar a) m.
Proof.
  intros Ha. induction fuel as [|fuel IH]; intros prev s cs x H.
  - exists prev, s, cs, []. repeat split; [exact H | constructor].
  - cbn [repeat_match] in H.
    destruct (rmatch ml a prev s cs _) as [r|] eqn:E.
    + injection H as ->.
      destruct (Ha _ _ _ _ _ E) as (p1 & s1 & cs1 & m1 & K & -> & D1).
      destruct (Nat.ltb _ _); [|discriminate].
      destruct (IH _ _ _ _ K) as (p2 & s2 & cs2 & m2 & K2 & -> & D2).
      exists p2, s2, cs2, (m1 ++ m2). repeat split.
      * exact K2.
      * now rewrite app_assoc.
      * now constructor.
    + exists prev, s, cs, []. repeat split; [exact H | constructor].
Qed.

Lemma rmatch_sound (r : regex) : sound_for A ml r.
Proof.
  induction r as [c|st| | | |a IHa b IHb|a IHa b IHb|a IHa|a IHa|a IHa|i a IHa|a IHa];
    intros k prev s cs x H; cbn [rmatch] in H.
  - destruct s as [|y s']; [discriminate|].
    destruct (N.eqb y c) eqn:E; [|discriminate].
    apply N.eqb_eq in E. subst y.
    exists (Some c), s', cs, [c]. repeat split; [exact H | constructor].
  - destruct s as [|y s']; [discriminate|].
    destruct (in_cset st y) eqn:E; [|discriminate].
    exists (Some y), s', cs, [y]. repeat split; [exact H | now constructor].
  - exists prev, s, cs, []. repeat split; [|constructor].
    destruct prev as [p|]; [|exact H].
    destruct (ml && is_line_terminator p); [exact H | discriminate].
  - exists prev, s, cs, []. repeat split; [|constructor].
    destruct s as [|y s']; [exact H|].
    destruct (ml && is_line_terminator y); [exact H | discriminate].
  - exists prev, s, cs, []. repeat split; [exact H | constructor].
  - destruct (IHa _ _ _ _ _ H) as (p1 & s1 & cs1 & m1 & K & -> & D1).
    destruct (IHb _ _ _ _ _ K) as (p2 & s2 & cs2 & m2 & K2 & -> & D2).
    exists p2, s2, cs2, (m1 ++ m2). repeat split;
      [exact K2 | now rewrite app_assoc | now constructor].
  - destruct (rmatch ml a prev s cs k) as [r|] eqn:E.
    + injection H as ->.
      destruct (IHa _ _ _ _ _ E) as (p1 & s1 & cs1 & m1 & K & -> & D1).
      exists p1, s1, cs1, m1. repeat split; [exact K | now apply derives_alt_left].
    + destruct (IHb _ _ _ _ _ H) as (p1 & s1 & cs1 & m1 & K & -> & D1).
      exists p1, s1, cs1, m1. repeat split; [exact K | now apply derives_alt_right].
  - exact (repeat_match_sound a k IHa _ _ _ _ _ H).
  - destruct (IHa _ _ _ _ _ H) as (p1 & s1 & cs1 & m1 & K & -> & D1).
    destruct (repeat_match_sound a k IHa _ _ _ _ _ K)
      as (p2 & s2 & cs2 & m2 & K2 & -> & D2).
    exists p2, s2, cs2, (m1 ++ m2). repeat split;
      [exact K2 | now rewrite app_assoc | now constructor].
  - destruct (rmatch ml a prev s cs _) as [r|] eqn:E.
    + injection H as ->.
      destruct (IHa _ _ _ _ _ E) as (p1 & s1 & cs1 & m1 & K & -> & D1).
      destruct (Nat.ltb _ _); [|discriminate].
      exists p1, s1, cs1, m1. repeat split; [exact K | now apply derives_opt_some].
    + exists prev, s, cs, []. repeat split; [exact H | constructor].
  - destruct (IHa _ _ _ _ _ H) as (p1 & s1 & cs1 & m1 & K & -> & D1).
    eexists p1, s1, _, m1. repeat split; [exact K | now constructor].
  - destruct (IHa _ _ _ _ _ H) as (p1 & s1 & cs1 & m1 & K & -> & D1).
    exists p1, s1, cs1, m1. repeat split; [exact K | now constructor].
Qed.
End Soundness.

Lemma match_at_sound ml r prev s cs p rest :
  match_at ml r prev s = Some (cs, p, rest) ->
  exists m, s = m ++ rest /\ derives r m.
Proof.
  intro H. unfold match_at in H.
  destruct (rmatch_sound _ ml r _ _ _ _ _ H) as (p1 & s1 & cs1 & m & K & -> & D).
  injection K as _ _ <-. now exists m.
Qed.

Lemma match_at_ahead_sound ml r look prev s cs p rest :
  match_at_ahead ml r look prev s = Some (cs, p, rest) ->
  exists m n tail, s = m ++ rest /\ derives r m /\ rest = n ++ tail /\ derives look n.
Proof.
  intro H. unfold match_at_ahead in H.
  destruct (rmatch_sound _ ml r _ _ _ _ _ H) as (p1 & s1 & cs1 & m & K & -> & D).
  destruct (rmatch ml look p1 s1 cs1 _) as [cs'|] eqn:E; [|discriminate].
  injection K as _ _ <-.
  destruct (rmatch_sound _ ml look _ _ _ _ _ E) as (p2 & s2 & cs2 & n & _ & -> & D2).
  now exists m, n, s2.
Qed.

Lemma derives_space_only r m :
  derives r m -> space_only r = true -> forallb is_space m = true.
Proof.
  induction 1; cbn [space_only]; intro S; try reflexivity.
  - cbn. now rewrite S.
  - cbn. destruct cs as [| | |l]; try discriminate.
    + cbn in H. now rewrite H.
    + cbn in H. rewrite forallb_forall in S. rewrite (S x); [reflexivity|].
      revert H. clear. induction l as [|y l IH]; cbn; [discriminate|].
      destruct (N.eqb x y) eqn:E.
      * apply N.eqb_eq in E. now left.
      * intro H. right. now apply IH.
  - apply andb_true_iff in S as [Sa Sb]. rewrite forallb_app, IHderives1, IHderives2; auto.
  - apply andb_true_iff in S as [Sa Sb]. auto.
  - apply andb_true_iff in S as [Sa Sb]. auto.
  - rewrite forallb_app, IHderives1, IHderives2; auto.
  - rewrite forallb_app, IHderives1, IHderives2; auto.
  - auto.
  - auto.
  - auto.
Qed.

Lemma derives_consuming r m : derives r m -> consuming r = true -> m <> [].
Proof.
  induction 1; cbn [consuming]; intro S; try discriminate.
  - apply orb_true_iff in S as [S|S]; intro E; apply app_eq_nil in E as [E1 E2];
      [exact (IHderives1 S E1) | exact (IHderives2 S E2)].
  - apply andb_true_iff in S as [Sa Sb]. exact (IHderives Sa).
  - apply andb_true_iff in S as [Sa Sb]. exact (IHderives Sb).
  - intro E. apply app_eq_nil in E as [E1 E2]. exact (IHderives1 S E1).
  - exact (IHderives S).
  - exact (IHderives S).
Qed.

Lemma match_at_eats_space ml r :
  space_only r = true -> consuming r = true -> eats_space (match_at ml r).
Proof.
  intros S C prev s cs p rest H.
  destruct (match_at_sound _ _ _ _ _ _ _ H) as (m & -> & D).
  exists m. repeat split; [now apply (derives_consuming r) | now apply (derives_space_only r)].
Qed.

Lemma match_at_ahead_eats_space ml r look :
  space_only r = true -> consuming r = true -> eats_space (match_at_ahead ml r look).
Proof.
  intros S C prev s cs p rest H.
  destruct (match_at_ahead_sound _ _ _ _ _ _ _ _ H) as (m & n & tl & -> & D & _).
  exists m. repeat split; [now apply (derives_consuming r) | now apply (derives_space_only r)].
Qed.


(** ** Replacing whitespace by whitespace *)

Lemma replace_loop_by_match_at (St : Type) ml g re
    (replacer : St -> match_info -> St * str) :
  forall fuel prev before s st,
    replace_loop ml g re replacer fuel prev before s st
    = replace_loop_by St g (match_at ml re) replacer fuel prev before s st.
Proof.
  induction fuel as [|fuel IH]; intros; [reflexivity|].
  cbn [replace_loop replace_loop_by].
  destruct (match_at ml re prev s) as [[[cs p] rest]|].
  - destruct (replacer _ _) as [st1 rep]. destruct g; [|reflexivity].
    destruct (firstn _ s); [destruct s|]; rewrite ?IH; reflexivity.
  - destruct s; [reflexivity|]. rewrite IH. reflexivity.
Qed.

Lemma replace_rx_by ml g re tpl s :
  replace_rx ml g re tpl s
  = replace_plain g (match_at ml re) tpl (S (length s)) None [] s.
Proof.
  rewrite replace_rx_unfold. unfold replace_plain. now rewrite replace_loop_by_match_at.
Qed.

Section Whitespace.
Variable g : bool.
Variable matcher : option char -> str -> option (caps * option char * str).
Variable tpl : str.
Hypothesis eats : eats_space matcher.
Hypothesis plain : has_replacement_pattern tpl = false.

Lemma loop_step fuel prev before s :
  replace_plain g matcher tpl (S fuel) prev before s
  = match matcher prev s with
    | Some (_, p, rest) =>
        if g
        then tpl ++ replace_plain g matcher tpl fuel p (before ++ firstn (length s - length rest) s) rest
        else tpl ++ rest
    | None =>
        match s with
        | [] => []
        | x :: t => x :: replace_plain g matcher tpl fuel (Some x) (before ++ [x]) t
        end
    end.
Proof.
  unfold replace_plain. cbn [replace_loop_by].
  destruct (matcher prev s) as [[[cs p] rest]|] eqn:E.
  - destruct (eats _ _ _ _ _ E) as (m & -> & Hm & _).
    unfold template_replacer at 1. cbn [m_text m_before m_after].
    rewrite (get_substitution_plain _ _ _ _ plain).
    rewrite firstn_consumed_app.
    destruct g; [|reflexivity].
    destruct m as [|y m]; [contradiction|].
    destruct (replace_loop_by _ _ _ _ _ _ _ _ _) as [[] out]. reflexivity.
  - destruct s as [|x t]; [reflexivity|].
    destruct (replace_loop_by _ _ _ _ _ _ _ _ _) as [[] out]. reflexivity.
Qed.

Lemma loop_nil fuel prev before : replace_plain g matcher tpl fuel prev before [] = [].
Proof.
  destruct fuel as [|fuel]; [reflexivity|].
  rewrite loop_step.
  destruct (matcher prev []) as [[[cs p] rest]|] eqn:E; [|reflexivity].
  destruct (eats _ _ _ _ _ E) as (m & Hs & Hm & _).
  symmetry in Hs. apply app_eq_nil in Hs as [-> _]. contradiction.
Qed.

Lemma loop_keeps_first fuel prev before c s :
  is_space c = false -> exists o, replace_plain g matcher tpl fuel prev before (c :: s) = c :: o.
Proof.
  intro Hc. destruct fuel as [|fuel]; [now exists s|].
  rewrite loop_step.
  destruct (matcher prev (c :: s)) as [[[cs p] rest]|] eqn:E.
  - destruct (eats _ _ _ _ _ E) as (m & Hs & Hm & Sm).
    destruct m as [|y m]; [contradiction|].
    injection Hs as <- _. cbn in Sm. rewrite Hc in Sm. discriminate.
  - eexists. reflexivity.
Qed.

Lemma loop_keeps_last d :
  is_space d = false ->
  forall fuel prev before s, exists o, replace_plain g matcher tpl fuel prev before (s ++ [d]) = o ++ [d].
Proof.
  intro Hd. induction fuel as [|fuel IH]; intros prev before s; [now exists s|].
  rewrite loop_step.
  destruct (matcher prev (s ++ [d])) as [[[cs p] rest]|] eqn:E.
  - destruct (eats _ _ _ _ _ E) as (m & Hs & Hm & Sm).
    assert (R : exists r, rest = r ++ [d]).
    { destruct rest as [|e rest'] using rev_ind.
      - rewrite app_nil_r in Hs. subst m.
        rewrite forallb_app in Sm. cbn in Sm. rewrite Hd in Sm.
        rewrite andb_false_r in Sm. discriminate.
      - rewrite app_assoc in Hs. apply app_inj_tail in Hs as [_ <-]. now exists rest'. }
    destruct R as (r & ->).
    destruct g.
    + destruct (IH p (before ++ firstn (length (s ++ [d]) - length (r ++ [d])) (s ++ [d])) r)
        as (o & ->).
      exists (tpl ++ o). now rewrite app_assoc.
    + exists (tpl ++ r). now rewrite app_assoc.
  - destruct s as [|x s]; cbn [app].
    + rewrite loop_nil. now exists [].
    + destruct (IH (Some x) (before ++ [x]) s) as (o & ->). now exists (x :: o).
Qed.

Hypothesis blank_template : forallb is_space tpl = true.

Lemma loop_keeps_ink : forall fuel prev before s, ink (replace_plain g matcher tpl fuel prev before s) = ink s.
Proof.
  assert (Z : forall m, forallb is_space m = true -> ink m = []).
  { induction m as [|y m IH]; [reflexivity|]. cbn. intro H.
    apply andb_true_iff in H as [Hy Hm]. rewrite Hy. cbn. now apply IH. }
  induction fuel as [|fuel IH]; intros prev before s; [reflexivity|].
  rewrite loop_step.
  destruct (matcher prev s) as [[[cs p] rest]|] eqn:E.
  - destruct (eats _ _ _ _ _ E) as (m & -> & Hm & Sm).
    unfold ink in *. rewrite (filter_app _ m), (Z m Sm).
    destruct g; rewrite filter_app, (Z tpl blank_template); [apply IH | reflexivity].
  - destruct s as [|x t]; [reflexivity|].
    unfold ink in *. cbn [filter]. now rewrite IH.
Qed.
End Whitespace.

(** ** Trimming *)

Lemma ink_drop_while s : ink (drop_while is_space s) = ink s.
Proof.
  induction s as [|x s IH]; [reflexivity|].
  cbn. destruct (is_space x) eqn:E; cbn; [exact IH | now rewrite E].
Qed.

Lemma ink_rev s : ink (rev s) = rev (ink s).
Proof.
  induction s as [|x s IH]; [reflexivity|].
  unfold ink in *. cbn [rev filter]. rewrite filter_app, IH. cbn [filter].
  destruct (negb (is_space x)); [reflexivity | now rewrite app_nil_r].
Qed.

Lemma ink_trim s : ink (trim s) = ink s.
Proof.
  unfold trim, trim_end, trim_start.
  now rewrite ink_rev, ink_drop_while, ink_rev, rev_involutive, ink_drop_while.
Qed.

Lemma ink_nil s : ink s = [] -> forallb is_space s = true.
Proof.
  induction s as [|x s IH]; [reflexivity|].
  cbn. destruct (is_space x); cbn; [exact IH | discriminate].
Qed.

Lemma drop_while_head (P : char -> bool) s :
  drop_while P s = [] \/ exists c t, drop_while P s = c :: t /\ P c = false.
Proof.
  induction s as [|x s IH]; [now left|].
  cbn. destruct (P x) eqn:E; [exact IH|]. right. now exists x, s.
Qed.

Lemma drop_while_last (P : char -> bool) s c :
  P c = false -> drop_while P (s ++ [c]) = drop_while P s ++ [c].
Proof.
  intro Hc. induction s as [|x s IH]; cbn; [now rewrite Hc|].
  destruct (P x); [exact IH | reflexivity].
Qed.

Lemma trim_shape s :
  trim s = [] \/
  exists c t u d, trim s = c :: t /\ trim s = u ++ [d]
                  /\ is_space c = false /\ is_space d = false.
Proof.
  unfold trim, trim_start.
  destruct (drop_while_head is_space s) as [->|(c & t & -> & Hc)]; [now left|].
  right. unfold trim_end.
  assert (F : exists t', rev (drop_while is_space (rev (c :: t))) = c :: t').
  { cbn [rev]. rewrite (drop_while_last _ _ _ Hc), rev_app_distr. cbn. eauto. }
  destruct F as (t' & F).
  destruct (drop_while_head is_space (rev (c :: t))) as [E|(d & w & E & Hd)].
  - rewrite E in F. discriminate.
  - exists c, t', (rev w), d. rewrite F. repeat split; try assumption.
    rewrite <- F, E. reflexivity.
Qed.

Lemma trim_fixed c t u d :
  c :: t = u ++ [d] -> is_space c = false -> is_space d = false ->
  trim (c :: t) = c :: t.
Proof.
  intros E Hc Hd. unfold trim, trim_start. cbn [drop_while]. rewrite Hc.
  unfold trim_end. rewrite E, rev_app_distr. cbn [rev app drop_while]. rewrite Hd.
  change (d :: rev u) with (rev [d] ++ rev u).
  now rewrite <- rev_app_distr, rev_involutive.
Qed.

(** ** [cleanSource] *)

Lemma blank_lines_eat : eats_space (match_at true blank_lines_re).
Proof. now apply match_at_eats_space. Qed.

Lemma spaces_eat : eats_space (match_at false spaces_re).
Proof. now apply match_at_eats_space. Qed.

Lemma indent_eats : eats_space (match_at_ahead true indent_re key_ahead_re).
Proof. now apply match_at_ahead_eats_space. Qed.

Lemma ink_cleanSource s : ink (cleanSource s) = ink s.
Proof.
  unfold cleanSource, replace_ahead. rewrite !replace_rx_by.
  unfold ink at 1. rewrite filter_app. cbn [filter]. change (is_space LF) with true.
  cbn [negb]. rewrite app_nil_r. fold (ink).
  rewrite (loop_keeps_ink true _ _ indent_eats); [|reflexivity..].
  rewrite (loop_keeps_ink true _ _ spaces_eat); [|reflexivity..].
  rewrite (loop_keeps_ink true _ _ blank_lines_eat); [|reflexivity..].
  apply ink_trim.
Qed.


Lemma replace_keeps_edges g matcher tpl fuel prev before x c t u d :
  eats_space matcher -> has_replacement_pattern tpl = false ->
  is_space c = false -> is_space d = false ->
  x = c :: t -> x = u ++ [d] ->
  exists t' u',
    replace_plain g matcher tpl fuel prev before x = c :: t'
    /\ replace_plain g matcher tpl fuel prev before x = u' ++ [d].
Proof.
  intros E P Hc Hd Hx Hy.
  destruct (loop_keeps_first g matcher tpl E P fuel prev before c t Hc) as (t' & F).
  destruct (loop_keeps_last g matcher tpl E P d Hd fuel prev before u) as (u' & L).
  exists t', u'. split; [now rewrite Hx | now rewrite Hy].
Qed.

Lemma replace_rx_edges ml re tpl x c t u d :
  eats_space (match_at ml re) -> has_replacement_pattern tpl = false ->
  is_space c = false -> is_space d = false ->
  x = c :: t -> x = u ++ [d] ->
  exists t' u',
    replace_rx ml true re tpl x = c :: t' /\ replace_rx ml true re tpl x = u' ++ [d].
Proof. rewrite replace_rx_by. apply replace_keeps_edges. Qed.

Lemma replace_ahead_edges ml r look tpl x c t u d :
  eats_space (match_at_ahead ml r look) -> has_replacement_pattern tpl = false ->
  is_space c = false -> is_space d = false ->
  x = c :: t -> x = u ++ [d] ->
  exists t' u',
    replace_ahead ml true r look tpl x = c :: t'
    /\ replace_ahead ml true r look tpl x = u' ++ [d].
Proof. apply replace_keeps_edges. Qed.

(** X8. [cleanFile] changes nothing but white space: when it resolves, the
    file was there and every file holds the code units other than white
    space and line terminators that it held, in the same order; it
    rejects, writing nothing, exactly when the file is missing. *)
Theorem clean_file_changes_whitespace_only (filePath : string) (fs : files) :
  match cleanFile filePath fs with
  | Resolved fs' =>
      fs filePath <> None
      /\ forall q, option_map ink (fs' q) = option_map ink (fs q)
  | Rejected _ => fs filePath = None
  end.
Proof.
  unfold cleanFile. destruct (fs filePath) as [source|] eqn:E; [|reflexivity].
  split; [discriminate|].
  intro q. unfold write_file. destruct (String.eqb q filePath) eqn:Q; [|reflexivity].
  apply String.eqb_eq in Q. subst q. rewrite E. cbn [option_map].
  now rewrite ink_cleanSource.
Qed.

(** X9. What [cleanSource] returns is a text that trimming leaves as it
    is, followed by one newline; that text is empty exactly when the
    source holds nothing but white space and line terminators. *)
Theorem clean_source_is_trimmed (source : str) :
  exists body,
    cleanSource source = body ++ [LF]
    /\ trim body = body
    /\ (body = [] <-> forallb is_space source = true).
Proof.
  unfold cleanSource. eexists. split; [reflexivity|].
  assert (N : trim source = [] ->
              replace_ahead true true indent_re key_ahead_re (js "  ")
                (replace_rx false true spaces_re (js " ")
                   (replace_rx true true blank_lines_re [LF] (trim source))) = []).
  { intros ->. reflexivity. }
  split.
  - destruct (trim_shape source) as [E|(c & t & u & d & Hx & Hy & Hc & Hd)].
    + now rewrite (N E).
    + destruct (replace_rx_edges true blank_lines_re [LF] _ c t u d
                  blank_lines_eat eq_refl Hc Hd Hx Hy) as (t1 & u1 & X1 & Y1).
      destruct (replace_rx_edges false spaces_re (js " ") _ c t1 u1 d
                  spaces_eat eq_refl Hc Hd X1 Y1) as (t2 & u2 & X2 & Y2).
      destruct (replace_ahead_edges true indent_re key_ahead_re (js "  ") _ c t2 u2 d
                  indent_eats eq_refl Hc Hd X2 Y2) as (t3 & u3 & X3 & Y3).
      rewrite X3. rewrite X3 in Y3. now apply (trim_fixed c t3 u3 d).
  - split.
    + intro B. apply ink_nil. rewrite <- ink_cleanSource. unfold cleanSource.
      rewrite B. reflexivity.
    + intro W. apply N. unfold trim, trim_start. now rewrite (drop_while_all _ _ W).
Qed.


(** ** A tab or space more or less *)

Lemma take_while_app_some (P : char -> bool) (a X : str) :
  forallb P a = false -> take_while P (a ++ X) = take_while P a.
Proof.
  induction a as [|x a IH]; cbn; [discriminate|].
  destruct (P x); cbn; [|reflexivity]. intro H. now rewrite IH.
Qed.

Lemma drop_while_app_some (P : char -> bool) (a X : str) :
  forallb P a = false -> drop_while P (a ++ X) = drop_while P a ++ X.
Proof.
  induction a as [|x a IH]; cbn; [discriminate|].
  destruct (P x); cbn; [|reflexivity]. intro H. now rewrite IH.
Qed.

Lemma take_while_whole (P : char -> bool) (s : str) :
  forallb P s = true -> take_while P s = s.
Proof.
  intro H. rewrite <- (app_nil_r s) at 1. rewrite (take_while_app_all _ _ _ H).
  cbn. apply app_nil_r.
Qed.

Lemma alike_drop s s' :
  alike s s' ->
  alike (drop_while (in_cset blank) s) (drop_while (in_cset blank) s').
Proof.
  destruct 1 as [s|l1 b b' l2 Hb Hb'|s b Hb].
  - constructor.
  - destruct (forallb (in_cset blank) l1) eqn:F.
    + rewrite !(drop_while_app_all _ _ _ F). cbn [drop_while]. rewrite Hb, Hb'.
      constructor.
    + rewrite !(drop_while_app_some _ _ _ F). now constructor.
  - destruct (forallb (in_cset blank) s) eqn:F.
    + rewrite (drop_while_app_all _ _ _ F), (drop_while_all _ _ F).
      cbn [drop_while]. rewrite Hb. constructor.
    + rewrite (drop_while_app_some _ _ _ F). now constructor.
Qed.

Lemma alike_scan_token s s' :
  alike s s' -> alike_token (scan_run CNonSpace s) (scan_run CNonSpace s').
Proof.
  unfold scan_run. destruct 1 as [s|l1 b b' l2 Hb Hb'|s b Hb].
  - destruct (take_while _ s); cbn; [exact I | split; [reflexivity | constructor]].
  - pose proof (blank_not_nonspace _ Hb) as Nb.
    pose proof (blank_not_nonspace _ Hb') as Nb'.
    destruct (forallb (in_cset CNonSpace) l1) eqn:F.
    + rewrite !(take_while_app_all _ _ _ F), !(drop_while_app_all _ _ _ F).
      cbn [take_while drop_while]. rewrite Nb, Nb', app_nil_r.
      destruct l1 as [|c l1]; cbn; [exact I|].
      split; [reflexivity | now apply (alike_extra [])].
    + rewrite !(take_while_app_some _ _ _ F), !(drop_while_app_some _ _ _ F).
      destruct (take_while _ l1); cbn; [exact I|].
      split; [reflexivity | now constructor].
  - pose proof (blank_not_nonspace _ Hb) as Nb.
    destruct (forallb (in_cset CNonSpace) s) eqn:F.
    + rewrite (take_while_app_all _ _ _ F), (drop_while_app_all _ _ _ F).
      rewrite (take_while_whole _ _ F), (drop_while_all _ _ F).
      cbn [take_while drop_while]. rewrite Nb, app_nil_r.
      destruct s as [|c s]; cbn; [exact I|].
      split; [reflexivity | now apply (alike_trail [])].
    + rewrite (take_while_app_some _ _ _ F), (drop_while_app_some _ _ _ F).
      destruct (take_while _ s); cbn; [exact I|].
      split; [reflexivity | now constructor].
Qed.

Lemma alike_scan_gap s s' :
  alike s s' -> alike_gap (scan_run blank s) (scan_run blank s').
Proof.
  unfold scan_run. destruct 1 as [s|l1 b b' l2 Hb Hb'|s b Hb].
  - destruct (take_while _ s); cbn; [exact I | constructor].
  - destruct (forallb (in_cset blank) l1) eqn:F.
    + rewrite !(take_while_app_all _ _ _ F), !(drop_while_app_all _ _ _ F).
      cbn [take_while drop_while]. rewrite Hb, Hb'.
      destruct l1 as [|c l1]; cbn; constructor.
    + rewrite !(take_while_app_some _ _ _ F), !(drop_while_app_some _ _ _ F).
      destruct (take_while _ l1); cbn; [exact I | now constructor].
  - destruct (forallb (in_cset blank) s) eqn:F.
    + rewrite (take_while_app_all _ _ _ F), (drop_while_app_all _ _ _ F).
      rewrite (take_while_whole _ _ F), (drop_while_all _ _ F).
      cbn [take_while drop_while]. rewrite Hb.
      destruct s as [|c s]; cbn; [reflexivity | constructor].
    + rewrite (take_while_app_some _ _ _ F), (drop_while_app_some _ _ _ F).
      destruct (take_while _ s); cbn; [exact I | now constructor].
Qed.

Lemma alike_scan_rule s s' :
  alike s s' -> option_map fst (scan_rule s) = option_map fst (scan_rule s').
Proof.
  intro H. unfold scan_rule.
  pose proof (alike_scan_token _ _ (alike_drop _ _ H)) as H1.
  destruct (scan_run CNonSpace (drop_while (in_cset blank) s)) as [[from s2]|],
           (scan_run CNonSpace (drop_while (in_cset blank) s')) as [[from' s2']|];
    cbn in H1; try contradiction; [|reflexivity].
  destruct H1 as [<- H2].
  pose proof (alike_scan_gap _ _ H2) as G2.
  destruct (scan_run blank s2) as [[g s3]|], (scan_run blank s2') as [[g' s3']|];
    cbn in G2; try contradiction; [| subst s3; reflexivity | reflexivity].
  pose proof (alike_scan_token _ _ G2) as H3.
  destruct (scan_run CNonSpace s3) as [[to s4]|], (scan_run CNonSpace s3') as [[to' s4']|];
    cbn in H3; try contradiction; [|reflexivity].
  destruct H3 as [<- H4].
  pose proof (alike_scan_gap _ _ H4) as G4.
  destruct (scan_run blank s4) as [[h s5]|], (scan_run blank s4') as [[h' s5']|];
    cbn in G4; try contradiction; [| subst s5; reflexivity | reflexivity].
  pose proof (alike_scan_token _ _ G4) as H5.
  destruct (scan_run CNonSpace s5) as [[st s6]|], (scan_run CNonSpace s5') as [[st' s6']|];
    cbn in H5; try contradiction; [|reflexivity].
  destruct H5 as [<- _]. reflexivity.
Qed.

Lemma alike_compile_line s s' : alike s s' -> compile_line s = compile_line s'.
Proof.
  intro H. apply alike_scan_rule in H. unfold compile_line.
  destruct (scan_rule s) as [[r rest]|], (scan_rule s') as [[r' rest']|];
    cbn in H; try discriminate; [|reflexivity].
  now injection H as ->.
Qed.


(** ** From a line to the table *)

Lemma split_lines_within (A y l : str) (ls : list str) :
  no_line_terminator A = true -> split_lines y = l :: ls ->
  split_lines (A ++ y) = (A ++ l) :: ls.
Proof.
  intros HA Hy. induction A as [|c A IH]; [exact Hy|].
  cbn [no_line_terminator forallb] in HA. apply andb_true_iff in HA as [Hc HA].
  apply negb_true_iff in Hc. cbn [app split_lines]. now rewrite Hc, (IH HA).
Qed.

Lemma compile_within (A B y l : str) (ls : list str) :
  no_line_terminator A = true -> no_line_terminator B = true ->
  split_lines y = l :: ls ->
  (forall pre, compile_line (pre ++ A ++ l) = compile_line (pre ++ B ++ l)) ->
  forall x, compile (x ++ A ++ y) = compile (x ++ B ++ y).
Proof.
  intros HA HB Hy H x. rewrite !compile_by_lines.
  assert (G : exists hA hB tA tB,
             split_lines (x ++ A ++ y) = hA :: tA
             /\ split_lines (x ++ B ++ y) = hB :: tB
             /\ (forall pre, compile_line (pre ++ hA) = compile_line (pre ++ hB))
             /\ flat_map compile_line tA = flat_map compile_line tB).
  { induction x as [|c x (hA & hB & tA & tB & EA & EB & Hh & Ht)].
    - exists (A ++ l), (B ++ l), ls, ls. cbn [app].
      rewrite (split_lines_within _ _ _ _ HA Hy), (split_lines_within _ _ _ _ HB Hy).
      repeat split. exact H.
    - cbn [app split_lines]. rewrite EA, EB.
      destruct (is_line_terminator c).
      + exists [], [], (hA :: tA), (hB :: tB). repeat split.
        cbn [flat_map]. now rewrite (Hh [] : compile_line hA = compile_line hB), Ht.
      + exists (c :: hA), (c :: hB), tA, tB. repeat split; [|exact Ht].
        intro pre. change (pre ++ c :: hA) with (pre ++ [c] ++ hA).
        change (pre ++ c :: hB) with (pre ++ [c] ++ hB).
        rewrite !app_assoc. apply Hh. }
  destruct G as (hA & hB & tA & tB & -> & -> & Hh & Ht).
  cbn [flat_map]. now rewrite (Hh [] : compile_line hA = compile_line hB), Ht.
Qed.

Lemma blank_no_line_terminator (b : char) :
  in_cset blank b = true -> no_line_terminator [b] = true.
Proof.
  intro H. unfold no_line_terminator. cbn [forallb].
  now rewrite (blank_not_line_terminator _ H).
Qed.

(** A tab or space before another one can go. *)
Lemma compile_extra_blank (x y : str) (b b' : char) :
  in_cset blank b = true -> in_cset blank b' = true ->
  compile (x ++ b :: b' :: y) = compile (x ++ b' :: y).
Proof.
  intros Hb Hb'.
  destruct (split_lines_head y) as (l & ls & rest & E & _).
  apply (compile_within [b; b'] [b'] y l ls); trivial.
  - unfold no_line_terminator. cbn [forallb].
    now rewrite (blank_not_line_terminator _ Hb), (blank_not_line_terminator _ Hb').
  - now apply blank_no_line_terminator.
  - intro pre. apply alike_compile_line. now constructor.
Qed.

Lemma compile_squeeze (bs : str) (b : char) :
  all_in blank bs = true -> in_cset blank b = true ->
  forall x y, compile (x ++ bs ++ b :: y) = compile (x ++ b :: y).
Proof.
  intros Hbs Hb x y. induction bs as [|c bs IH]; [reflexivity|].
  cbn [all_in forallb] in Hbs. apply andb_true_iff in Hbs as [Hc Hbs].
  rewrite <- (IH Hbs). cbn [app].
  destruct bs as [|c' bs]; cbn [app].
  - now apply compile_extra_blank.
  - cbn [all_in forallb] in Hbs. apply andb_true_iff in Hbs as [Hc' _].
    now apply compile_extra_blank.
Qed.

(** A tab or space at the end can go, and so can one at the start. *)
Lemma compile_trailing_blank (x : str) (b : char) :
  in_cset blank b = true -> compile (x ++ [b]) = compile x.
Proof.
  intro Hb.
  pose proof (compile_within [b] [] [] [] [] (blank_no_line_terminator _ Hb) eq_refl
                eq_refl) as H.
  cbn [app] in H. rewrite <- (app_nil_r x) at 2. apply H.
  intro pre. rewrite app_nil_r. apply alike_compile_line. now constructor.
Qed.

Lemma compile_leading_blank (y : str) (b : char) :
  in_cset blank b = true -> compile (b :: y) = compile y.
Proof.
  intro Hb. rewrite !compile_by_lines.
  destruct (split_lines_head y) as (l & ls & rest & E & _).
  change (b :: y) with ([b] ++ y).
  rewrite (split_lines_within _ _ _ _ (blank_no_line_terminator _ Hb) E), E.
  cbn [flat_map app]. f_equal.
  unfold compile_line, scan_rule. cbn [drop_while]. now rewrite Hb.
Qed.

(** Tabs, spaces and line terminators at either end hold no rule. *)
Lemma compile_leading_hollow (w y : str) :
  hollow w = true -> compile (w ++ y) = compile y.
Proof.
  induction w as [|c w IH]; intro H; [reflexivity|].
  cbn [hollow forallb] in H. apply andb_true_iff in H as [Hc Hw].
  cbn [app]. apply orb_true_iff in Hc as [Hc|Hc].
  - rewrite (compile_leading_blank _ _ Hc). now apply IH.
  - change (c :: w ++ y) with ([] ++ c :: w ++ y).
    rewrite (compile_app [] c _ Hc). cbn [app]. now apply IH.
Qed.

Lemma compile_trailing_hollow (w : str) :
  hollow w = true -> forall x, compile (x ++ w) = compile x.
Proof.
  induction w as [|c w IH]; intros H x; [now rewrite app_nil_r|].
  cbn [hollow forallb] in H. apply andb_true_iff in H as [Hc Hw].
  apply orb_true_iff in Hc as [Hc|Hc].
  - change (x ++ c :: w) with (x ++ [c] ++ w). rewrite app_assoc, (IH Hw).
    now apply compile_trailing_blank.
  - rewrite (compile_app _ _ _ Hc).
    rewrite <- (app_nil_r w), (compile_leading_hollow _ _ Hw).
    change (compile []) with (@nil str). apply app_nil_r.
Qed.

(** Tabs, spaces and line terminators with a line terminator among them
    do what one newline does. *)
Lemma compile_hollow_lines (m : str) :
  hollow m = true -> In LF m ->
  forall x y, compile (x ++ m ++ y) = compile (x ++ LF :: y).
Proof.
  intros H I x y. apply in_split in I as (u & v & ->).
  unfold hollow in H. rewrite forallb_app in H. apply andb_true_iff in H as [Hu Hv].
  cbn [forallb] in Hv. apply andb_true_iff in Hv as [_ Hv].
  rewrite <- app_assoc. cbn [app]. rewrite app_assoc.
  rewrite !(compile_app _ LF _ eq_refl).
  now rewrite (compile_trailing_hollow _ Hu), (compile_leading_hollow _ _ Hv).
Qed.

(** Spaces do what one space does. *)
Lemma compile_spaces (m : str) :
  m <> [] -> forallb (N.eqb SP) m = true ->
  forall x y, compile (x ++ m ++ y) = compile (x ++ SP :: y).
Proof.
  intros Hm H x y.
  destruct (exists_last Hm) as (bs & b & ->).
  rewrite forallb_app in H. apply andb_true_iff in H as [Hbs Hb].
  cbn [forallb] in Hb. rewrite andb_true_r in Hb. apply N.eqb_eq in Hb. subst b.
  rewrite <- app_assoc. cbn [app]. apply compile_squeeze; [|reflexivity].
  unfold all_in. rewrite forallb_forall in *. intros c Hc.
  specialize (Hbs c Hc). apply N.eqb_eq in Hbs. now subst c.
Qed.


(** ** What the patterns of [cleanSource] consume *)

Lemma star_of_char (c : char) (m : str) :
  derives (RStar (RChar c)) m -> forallb (N.eqb c) m = true.
Proof.
  remember (RStar (RChar c)) as r eqn:E. intro H.
  induction H; inversion E; subst; [reflexivity|].
  inversion H; subst. cbn [app forallb]. rewrite N.eqb_refl. now apply IHderives2.
Qed.

Lemma spaces_text (m : str) :
  derives spaces_re m -> m <> [] /\ forallb (N.eqb SP) m = true.
Proof.
  unfold spaces_re, at_least_two. intro H.
  inversion H as [| | | | |a b m1 m2 H1 H2| | | | | | | | |]; subst.
  inversion H1; subst.
  inversion H2 as [| | | | | | | | | |a m3 m4 H3 H4| | | |]; subst.
  inversion H3; subst.
  split; [discriminate|]. cbn [app forallb]. rewrite N.eqb_refl.
  now apply star_of_char.
Qed.

Lemma indent_text (m : str) : derives indent_re m -> m = [SP].
Proof.
  unfold indent_re. intro H.
  inversion H as [| | | | |a b m1 m2 H1 H2| | | | | | | | |]; subst.
  inversion H1; subst. inversion H2; subst. reflexivity.
Qed.

Lemma blank_lines_text (m : str) : derives blank_lines_re m -> In LF m.
Proof.
  unfold blank_lines_re, at_least_two. intro H.
  inversion H as [| | | | |a b m1 m2 H1 H2| | | | | | | | |]; subst.
  inversion H2 as [| | | | |a b m3 m4 H3 H4| | | | | | | | |]; subst.
  inversion H3 as [| | | | | | | | | | | | | |a m5 H5]; subst.
  inversion H5 as [| | | | |a b m6 m7 H6 H7| | | | | | | | |]; subst.
  inversion H7; subst.
  apply in_or_app. right. apply in_or_app. left. apply in_or_app. right. now left.
Qed.

Lemma hollow_of (m : str) :
  plain_space m = true -> forallb is_space m = true -> hollow m = true.
Proof.
  unfold plain_space, hollow.
  induction m as [|c m IH]; [reflexivity|].
  cbn [forallb]. intros P S.
  apply andb_true_iff in P as [Pc P]. apply andb_true_iff in S as [Sc S].
  rewrite (IH P S), andb_true_r. rewrite Sc in Pc. exact Pc.
Qed.

(** ** Replacing without changing the rules *)

Section Harmless.
Variable g : bool.
Variable matcher : option char -> str -> option (caps * option char * str).
Variable tpl : str.
Hypothesis eats : eats_space matcher.
Hypothesis plain : has_replacement_pattern tpl = false.
Hypothesis plain_template : plain_space tpl = true.
Hypothesis harmless :
  forall prev m rest cs p,
    matcher prev (m ++ rest) = Some (cs, p, rest) -> plain_space m = true ->
    forall x y, compile (x ++ m ++ y) = compile (x ++ tpl ++ y).

Lemma loop_keeps_plain_space : forall fuel prev before s,
  plain_space s = true ->
  plain_space (replace_plain g matcher tpl fuel prev before s) = true.
Proof.
  induction fuel as [|fuel IH]; intros prev before s Hs; [exact Hs|].
  rewrite (loop_step g matcher tpl eats plain).
  destruct (matcher prev s) as [[[cs p] rest]|] eqn:E.
  - destruct (eats _ _ _ _ _ E) as (m & -> & _ & _).
    unfold plain_space in *. rewrite forallb_app in Hs. apply andb_true_iff in Hs as [_ Hr].
    destruct g; rewrite forallb_app, plain_template; [now apply IH | exact Hr].
  - destruct s as [|x t]; [reflexivity|].
    unfold plain_space in *. cbn [forallb] in *. apply andb_true_iff in Hs as [Hx Ht].
    rewrite Hx. now apply IH.
Qed.

Lemma loop_keeps_rules : forall fuel prev before s,
  plain_space s = true ->
  forall pre,
    compile (pre ++ replace_plain g matcher tpl fuel prev before s) = compile (pre ++ s).
Proof.
  induction fuel as [|fuel IH]; intros prev before s Hs pre; [reflexivity|].
  rewrite (loop_step g matcher tpl eats plain).
  destruct (matcher prev s) as [[[cs p] rest]|] eqn:E.
  - destruct (eats _ _ _ _ _ E) as (m & -> & _ & _).
    unfold plain_space in Hs. rewrite forallb_app in Hs. apply andb_true_iff in Hs as [Hm Hr].
    rewrite (harmless _ _ _ _ _ E Hm).
    destruct g; [|reflexivity].
    rewrite !(app_assoc pre). now apply IH.
  - destruct s as [|x t]; [reflexivity|].
    unfold plain_space in Hs. cbn [forallb] in Hs. apply andb_true_iff in Hs as [_ Ht].
    change (pre ++ x :: ?z) with (pre ++ [x] ++ z).
    rewrite !(app_assoc pre). now apply IH.
Qed.

Lemma replace_keeps_rules fuel prev before s :
  plain_space s = true ->
  compile (replace_plain g matcher tpl fuel prev before s) = compile s.
Proof. intro P. exact (loop_keeps_rules fuel prev before s P []). Qed.
End Harmless.

Lemma blank_lines_harmless prev m rest cs p :
  match_at true blank_lines_re prev (m ++ rest) = Some (cs, p, rest) ->
  plain_space m = true ->
  forall x y, compile (x ++ m ++ y) = compile (x ++ [LF] ++ y).
Proof.
  intros E P x y.
  destruct (match_at_sound _ _ _ _ _ _ _ E) as (m' & Em & D).
  apply app_inv_tail in Em. subst m'.
  apply compile_hollow_lines; [|now apply blank_lines_text].
  apply hollow_of; [exact P|]. now apply (derives_space_only blank_lines_re).
Qed.

Lemma spaces_harmless prev m rest cs p :
  match_at false spaces_re prev (m ++ rest) = Some (cs, p, rest) ->
  plain_space m = true ->
  forall x y, compile (x ++ m ++ y) = compile (x ++ js " " ++ y).
Proof.
  intros E _ x y.
  destruct (match_at_sound _ _ _ _ _ _ _ E) as (m' & Em & D).
  apply app_inv_tail in Em. subst m'.
  destruct (spaces_text _ D) as [N A]. now apply compile_spaces.
Qed.

Lemma indent_harmless prev m rest cs p :
  match_at_ahead true indent_re key_ahead_re prev (m ++ rest) = Some (cs, p, rest) ->
  plain_space m = true ->
  forall x y, compile (x ++ m ++ y) = compile (x ++ js "  " ++ y).
Proof.
  intros E _ x y.
  destruct (match_at_ahead_sound _ _ _ _ _ _ _ _ E) as (m' & n & tl & Em & D & _).
  apply app_inv_tail in Em. subst m'.
  rewrite (indent_text _ D).
  rewrite (compile_spaces [SP] ltac:(discriminate) eq_refl).
  change (js "  ") with [SP; SP].
  now rewrite (compile_spaces [SP; SP] ltac:(discriminate) eq_refl).
Qed.

(** ** Trimming a table *)

Lemma trim_split (s : str) :
  exists w1 w2,
    s = w1 ++ trim s ++ w2
    /\ forallb is_space w1 = true /\ forallb is_space w2 = true.
Proof.
  exists (take_while is_space s), (rev (take_while is_space (rev (trim_start s)))).
  repeat split.
  - unfold trim, trim_end. rewrite <- rev_app_distr, take_drop_while, rev_involutive.
    symmetry. apply take_drop_while.
  - apply take_while_all.
  - rewrite forallb_forall. intros c Hc. apply in_rev in Hc.
    pose proof (take_while_all is_space (rev (trim_start s))) as A.
    rewrite forallb_forall in A. now apply A.
Qed.

Lemma compile_trim (s : str) : plain_space s = true -> compile (trim s) = compile s.
Proof.
  intro P. destruct (trim_split s) as (w1 & w2 & E & S1 & S2).
  rewrite E in P. unfold plain_space in P.
  rewrite !forallb_app in P. apply andb_true_iff in P as [P1 P].
  apply andb_true_iff in P as [_ P2].
  rewrite E at 2.
  rewrite (compile_leading_hollow _ _ (hollow_of _ P1 S1)).
  now rewrite (compile_trailing_hollow _ (hollow_of _ P2 S2)).
Qed.

Lemma plain_space_trim (s : str) : plain_space s = true -> plain_space (trim s) = true.
Proof.
  intro P. destruct (trim_split s) as (w1 & w2 & E & _).
  rewrite E in P. unfold plain_space in *.
  rewrite !forallb_app in P. apply andb_true_iff in P as [_ P].
  now apply andb_true_iff in P as [P _].
Qed.

(** X10. Cleaning the redirect table does not change the rules compiled
    from it, when the only white space of the table is spaces, tabs and
    line terminators: [build-sw], which runs after [build-redirects],
    pushes the entries of the table as it was. *)
Theorem cleaning_keeps_rules (redirects : str) :
  plain_space redirects = true ->
  compile (cleanSource redirects) = compile redirects.
Proof.
  intro P. unfold cleanSource.
  rewrite (compile_app _ LF [] eq_refl). change (compile []) with (@nil str).
  rewrite app_nil_r. unfold replace_ahead. rewrite !replace_rx_by.
  pose proof (plain_space_trim _ P) as P0.
  pose proof (loop_keeps_plain_space true _ [LF] blank_lines_eat eq_refl eq_refl
                (S (length (trim redirects))) None [] _ P0) as P1.
  pose proof (loop_keeps_plain_space true _ (js " ") spaces_eat eq_refl eq_refl
                (S (length (replace_plain true (match_at true blank_lines_re) [LF]
                              (S (length (trim redirects))) None [] (trim redirects))))
                None [] _ P1) as P2.
  rewrite (replace_keeps_rules true _ (js "  ") indent_eats eq_refl indent_harmless
             _ None [] _ P2).
  rewrite (replace_keeps_rules true _ (js " ") spaces_eat eq_refl spaces_harmless
             _ None [] _ P1).
  rewrite (replace_keeps_rules true _ [LF] blank_lines_eat eq_refl blank_lines_harmless
             _ None [] _ P0).
  now apply compile_trim.
Qed.


Lemma cleaning_keeps_rules_witness :
  let redirects :=
    js "  /docs/*   /new/:splat  301" ++ [LF; LF; LF] ++ js " /a  /b  " ++ [LF] in
  plain_space redirects = true
  /\ compile (cleanSource redirects) = compile redirects.
Proof.
  intro redirects. split; [reflexivity|].
  apply (cleaning_keeps_rules redirects). reflexivity.
Defined.


(** * Further properties: the integrity values of the configuration *)

Lemma replace_str_same (pat s : str) :
  has_replacement_pattern pat = false -> replace_str pat pat s = s.
Proof.
  intro P. rewrite replace_str_index.
  destruct (index_of pat s) as [i|] eqn:E; [|reflexivity].
  rewrite (get_substitution_plain _ _ _ _ P). symmetry. now apply index_of_split.
Qed.

Lemma write_back (path : string) (content : str) (fs : files) :
  fs path = Some content -> forall p, write_file path content fs p = fs p.
Proof.
  intros H p. unfold write_file. destruct (String.eqb p path) eqn:E; [|reflexivity].
  apply String.eqb_eq in E. now subst p.
Qed.

Lemma current_resources fetch generate (entries : list resource) (config : str) :
  (forall e, In e entries ->
     exists body, fetch (href e) = Some body /\ generate body = integrity e
                  /\ has_replacement_pattern (integrity e) = false) ->
  exists bodies,
    fetch_all fetch entries = Some bodies
    /\ update_integrity generate entries bodies config = config.
Proof.
  intro H. induction entries as [|e entries IH]; [now exists []|].
  destruct (H e (or_introl eq_refl)) as (body & F & G & P).
  destruct IH as (bodies & Fs & U); [intros e' He'; apply H; now right|].
  exists (body :: bodies). cbn [fetch_all]. rewrite F, Fs. split; [reflexivity|].
  unfold update_integrity in *. cbn [combine fold_left fst snd].
  now rewrite G, (replace_str_same _ _ P).
Qed.

Lemma derives_mk_seq (l : list regex) : forall m,
  derives (mk_seq l) m -> exists parts, m = concat parts /\ Forall2 derives l parts.
Proof.
  induction l as [|t l IH]; intros m H.
  - inversion H; subst. now exists [].
  - destruct l as [|t' ts].
    + exists [m]. cbn. rewrite app_nil_r. split; [reflexivity|]. now repeat constructor.
    + change (mk_seq (t :: t' :: ts)) with (RSeq t (mk_seq (t' :: ts))) in H.
      inversion H as [| | | | |a b m1 m2 H1 H2| | | | | | | | |]; subst.
      destruct (IH _ H2) as (parts & -> & F).
      exists (m1 :: parts). split; [reflexivity|]. now constructor.
Qed.

Lemma derives_literal (s : string) (m : str) : derives (literal s) m -> m = js s.
Proof.
  unfold literal. intro H. apply derives_mk_seq in H as (parts & -> & F).
  generalize dependent parts. induction (js s) as [|c l IH]; intros parts F.
  - inversion F; subst. reflexivity.
  - inversion F as [|a p l' ps Hc Hl]; subst. inversion Hc; subst.
    cbn [concat app]. f_equal. now apply IH.
Qed.

Lemma config_text (m : str) :
  derives config_re m -> exists u v, m = u ++ js "href:" ++ v.
Proof.
  intro H. apply derives_mk_seq in H as (parts & -> & F).
  inversion F as [|r0 p0 l0 q0 _ F0]; subst.
  inversion F0 as [|r1 p1 l1 q1 _ F1]; subst.
  inversion F1 as [|r2 p2 l2 q2 _ F2]; subst.
  inversion F2 as [|r3 p3 l3 q3 D F3]; subst.
  apply derives_literal in D. subst p3.
  exists (p0 ++ p1 ++ p2), (concat q3). cbn [concat]. now rewrite <- !app_assoc.
Qed.

Lemma replace_loop_no_match (St : Type) ml g re
    (replacer : St -> match_info -> St * str) :
  forall fuel prev before s st,
    (forall prev' a b, s = a ++ b -> match_at ml re prev' b = None) ->
    replace_loop ml g re replacer fuel prev before s st = (st, s).
Proof.
  induction fuel as [|fuel IH]; intros prev before s st H; [reflexivity|].
  cbn [replace_loop]. rewrite (H prev [] s eq_refl).
  destruct s as [|x t]; [reflexivity|].
  rewrite IH; [reflexivity|].
  intros prev' a b E. apply (H prev' (x :: a) b). now rewrite E.
Qed.

Lemma no_href_no_resource (config : str) :
  index_of (js "href:") config = None -> resources config = [].
Proof.
  intro N. unfold resources, replace_with.
  rewrite replace_loop_no_match; [reflexivity|].
  intros prev a b E.
  destruct (match_at true config_re prev b) as [[[cs p] rest]|] eqn:M; [|reflexivity].
  destruct (match_at_sound _ _ _ _ _ _ _ M) as (m & -> & D).
  destruct (config_text _ D) as (u & v & ->).
  destruct (index_of_occurrence (js "href:") (a ++ u) (v ++ rest)) as (i & I & _).
  rewrite E in N. rewrite <- !app_assoc in I. rewrite <- !app_assoc in N.
  rewrite I in N. discriminate.
Qed.

(** X11. When every integrity value listed in the configuration is
    already what [sri.generate] gives for the body its [href] serves (and
    holds no replacement pattern), [build-config] leaves every file as it
    was. *)
Theorem current_integrities_are_kept (fetch : str -> option str)
    (generate : str -> str) (fs : files) (config : str) :
  fs "_config.yml"%string = Some config ->
  (forall e, In e (resources config) ->
     exists body, fetch (href e) = Some body /\ generate body = integrity e
                  /\ has_replacement_pattern (integrity e) = false) ->
  exists fs',
    build_config_task fetch generate fs = Resolved fs' /\ forall p, fs' p = fs p.
Proof.
  intros F H. unfold build_config_task. rewrite F.
  destruct (current_resources fetch generate _ config H) as (bodies & -> & ->).
  eexists. split; [reflexivity|]. now apply write_back.
Qed.

Lemma current_integrities_are_kept_witness :
  let config := js "- href: https://cdn/x.js" ++ [LF] ++ js "  integrity: sha384-abc" in
  let fs := write_file "_config.yml" config (fun _ => None) in
  fs "_config.yml"%string = Some config
  /\ exists fs',
       build_config_task (fun _ => Some (js "body")) (fun _ => js "sha384-abc") fs
       = Resolved fs'
       /\ forall p, fs' p = fs p.
Proof.
  intros config fs. split; [reflexivity|].
  apply (current_integrities_are_kept _ _ fs config); [reflexivity|].
  intros e He. vm_compute in He. destruct He as [<-|[]].
  exists (js "body"). repeat split.
Defined.

(** X12. A configuration that holds no [href:] lists no resource:
    [build-config] requests nothing and leaves every file as it was,
    whatever the network would answer. *)
Theorem config_without_href_is_kept (fetch : str -> option str)
    (generate : str -> str) (fs : files) (config : str) :
  fs "_config.yml"%string = Some config ->
  index_of (js "href:") config = None ->
  resources config = []
  /\ exists fs',
       build_config_task fetch generate fs = Resolved fs' /\ forall p, fs' p = fs p.
Proof.
  intros F N. pose proof (no_href_no_resource _ N) as R. split; [exact R|].
  unfold build_config_task. rewrite F, R. cbn [fetch_all].
  eexists. split; [reflexivity|]. now apply write_back.
Qed.

Lemma config_without_href_is_kept_witness :
  let config := js "title: Lodash" ++ [LF] ++ js "integrity: sha384-abc" in
  let fs := write_file "_config.yml" config (fun _ => None) in
  fs "_config.yml"%string = Some config
  /\ index_of (js "href:") config = None
  /\ resources config = []
  /\ exists fs',
       build_config_task (fun _ => None) (fun body => body) fs = Resolved fs'
       /\ forall p, fs' p = fs p.
Proof.
  intros config fs. split; [reflexivity|]. split; [reflexivity|].
  apply (config_without_href_is_kept _ _ fs config); reflexivity.
Defined.

Close Scope string_scope.
